(** * com::vectormap — a shallow embedding of include/vectormap.hpp

  The container owns one contiguous buffer of [capacity_] slots of which
  the first [size_] are meant to be live.  The C++ code manages the
  lifetime of every slot by hand ([allocator_traits::construct] and
  [allocator_traits::destroy]); the embedding keeps that: a slot is
  [Some entry] while an object lives in it and [None] when it is raw
  storage (never constructed, or destroyed).

  Conventions of the embedding
  - [size_type] is [std::size_t], 64 bits: a [Z] with the wrap-around
    written out ([size_type.add], [size_type.sub], [size_type.mul]).
    Pointer arithmetic ([data_ + i - length]) is not modular and is
    written with plain [Z] operations.
  - [std::allocator] is stateless, the member [allocator_] is left out.
    [allocate] always hands out fresh raw storage ([std::allocator]
    reports exhaustion by throwing, which is outside this model).
  - a buffer never is shared by two containers in the source (the copy
    operations allocate, the move operations null the source pointer), so
    [data_] holds the buffer itself: [None] is [nullptr].
  - reading a slot that holds no object, or a slot outside the allocation,
    has no defined result in C++; the model reads it as [None], and a slot
    constructed from such a read is [None] again.  A write outside the
    allocation is dropped.
  - an iterator is the offset of its pointer from [data_] of the
    container that produced it. *)

From Stdlib Require Import ZArith Lia Sorted.
From stdpp Require Import base numbers list strings.

Local Open Scope Z_scope.

(** ** size_type *)

Module size_type.
Definition modulus : Z := 2 ^ 64.
(** [npos = std::numeric_limits<size_type>::max()] *)
Definition npos : Z := modulus - 1.
Definition wrap (x : Z) : Z := x mod modulus.
Definition add (a b : Z) : Z := wrap (a + b).
Definition sub (a b : Z) : Z := wrap (a - b).
Definition mul (a b : Z) : Z := wrap (a * b).
Definition div (a b : Z) : Z := a / b.
Definition in_range (x : Z) : Prop := 0 <= x < modulus.
End size_type.

(** ** The concepts constraining the template parameters *)

(** [Keyable]: the key type has [operator==].  Nothing else is required of
  it by the source, so no law is assumed here either. *)
Class Keyable (T : Type) := key_equal : T -> T -> bool.

(** [std::default_initializable]: [T t;] is well-formed.  [default_init]
    is what such a default-initialisation leaves in [t]: [Some v] for a
    class type whose default constructor makes [v], [None] for a scalar
    type, whose value is then indeterminate. *)
Class DefaultInitializable (T : Type) := default_init : option T.

Section vectormap.

Context {key_type mapped_type : Type}.
Context `{!Keyable key_type, !DefaultInitializable key_type,
          !DefaultInitializable mapped_type}.

(** [delta_]: number of slots added every time the container grows. *)
Variable delta_ : Z.

Definition value_type : Type := key_type * mapped_type.
Definition slot : Type := option value_type.
(** [pointer]: [None] is [nullptr], [Some buf] an allocation. *)
Definition pointer : Type := option (list slot).

Record vectormap : Type := Vectormap {
  size_ : Z;
  capacity_ : Z;
  data_ : pointer;
  (* the two members no constructor mentions: they are default-initialised,
     and hold no determinate value when that leaves none *)
  void_mapped_type_ : option mapped_type;
  void_key_type_ : option key_type
}.

Record iterator : Type := Iterator { ptr_ : Z }.
Definition iterator_pos : Type := iterator * Z.

Definition set_size_ (v : Z) (m : vectormap) : vectormap :=
  Vectormap v (capacity_ m) (data_ m) (void_mapped_type_ m) (void_key_type_ m).
Definition set_capacity_ (v : Z) (m : vectormap) : vectormap :=
  Vectormap (size_ m) v (data_ m) (void_mapped_type_ m) (void_key_type_ m).
Definition set_data_ (p : pointer) (m : vectormap) : vectormap :=
  Vectormap (size_ m) (capacity_ m) p (void_mapped_type_ m) (void_key_type_ m).
Definition set_void_mapped_type_ (v : option mapped_type) (m : vectormap)
  : vectormap :=
  Vectormap (size_ m) (capacity_ m) (data_ m) v (void_key_type_ m).

(** *** Raw storage *)

Definition in_bounds (buf : list slot) (i : Z) : bool :=
  (0 <=? i) && (i <? Z.of_nat (length buf)).

(** [allocator_traits::allocate(allocator_, n)] *)
Definition allocate (n : Z) : pointer := Some (replicate (Z.to_nat n) None).

(** [p[i]] read as a value *)
Definition peek (p : pointer) (i : Z) : slot :=
  match p with
  | Some buf => if in_bounds buf i then default None (buf !! Z.to_nat i) else None
  | None => None
  end.

(** the slot [p + i] overwritten *)
Definition poke (p : pointer) (i : Z) (s : slot) : pointer :=
  match p with
  | Some buf => if in_bounds buf i then Some (<[Z.to_nat i := s]> buf) else Some buf
  | None => None
  end.

(** [p + i] lies inside the allocation *)
Definition allocated (p : pointer) (i : Z) : bool :=
  match p with
  | Some buf => in_bounds buf i
  | None => false
  end.

(** *** Member functions run in a state monad over [*this] *)

Definition M (A : Type) : Type := vectormap -> A * vectormap.

Definition ret {A} (a : A) : M A := fun m => (a, m).
Definition bind {A B} (c : M A) (k : A -> M B) : M B :=
  fun m => k (fst (c m)) (snd (c m)).
Definition gets {A} (f : vectormap -> A) : M A := fun m => (f m, m).
Definition modify (f : vectormap -> vectormap) : M unit := fun m => (tt, f m).

Notation "x <- c ;; k" := (bind c (fun x => k))
  (at level 100, c at next level, right associativity).
Notation "c ;;; k" := (bind c (fun _ => k))
  (at level 100, right associativity).

(** [allocator_traits::construct(allocator_, data_ + i, v)] *)
Definition construct (i : Z) (v : slot) : M unit :=
  modify (fun m => set_data_ (poke (data_ m) i v) m).
(** [allocator_traits::destroy(allocator_, data_ + i)] *)
Definition destroy (i : Z) : M unit :=
  modify (fun m => set_data_ (poke (data_ m) i None) m).
(** [data_[i]] *)
Definition at_ (i : Z) : M slot := gets (fun m => peek (data_ m) i).

(** [for (size_type i = start; <n more rounds>; ++i) body] *)
Fixpoint for_ (n : nat) (i : Z) (body : Z -> M unit) : M unit :=
  match n with
  | O => ret tt
  | S n' => body i ;;; for_ n' (size_type.add i 1) body
  end.

(** [for (auto elem : l) body] *)
Fixpoint for_each {A} (l : list A) (body : A -> M unit) : M unit :=
  match l with
  | [] => ret tt
  | x :: l' => body x ;;; for_each l' body
  end.

(** *** Iterators and size queries *)

Definition begin_ : M iterator := ret (Iterator 0).
Definition end_ : M iterator := sz <- gets size_ ;; ret (Iterator sz).
Definition size : M Z := gets size_.
Definition capacity : M Z := gets capacity_.
Definition is_empty : M bool :=
  gets (fun m => match data_ m with None => true | Some _ => size_ m =? 0 end).

(** *** Memory manipulation *)

(** The relocation loop of [resize]: copy [data_[i]] into [new_data + i],
    then destroy [data_ + i]. *)
Fixpoint resize_loop (n : nat) (i : Z) (new_data old_data : pointer)
  : pointer * pointer :=
  match n with
  | O => (new_data, old_data)
  | S n' => resize_loop n' (size_type.add i 1)
              (poke new_data i (peek old_data i)) (poke old_data i None)
  end.

Definition resize (new_capacity : Z) : M bool :=
  sz <- gets size_ ;;
  if new_capacity <? sz then ret false
  else
    old_data <- gets data_ ;;
    let new_data :=
      fst (resize_loop (Z.to_nat sz) 0 (allocate new_capacity) old_data) in
    (* the old buffer is deallocated (or, when size_ is 0, dropped) *)
    modify (set_data_ new_data) ;;;
    modify (set_capacity_ new_capacity) ;;;
    ret true.

Definition reserve (min_capacity : Z) : M bool :=
  sz <- gets size_ ;;
  if min_capacity <? sz then ret false
  else
    let new_capacity :=
      size_type.mul (size_type.add (size_type.div min_capacity delta_) 1) delta_ in
    resize new_capacity.

Definition shrink : M bool := sz <- gets size_ ;; resize sz.

(** *** The shift engine *)

(** [for (size_type i = size_ - 1; (i > from) && ((i - length) != npos); i--)]
    The counter strictly decreases and the loop stops at [i <= from], so
    [Z.to_nat i + 1] rounds are never exhausted. *)
Fixpoint gap_loop (rounds : nat) (from length i : Z) : M unit :=
  match rounds with
  | O => ret tt
  | S r =>
      if (from <? i) && negb (size_type.sub i length =? size_type.npos) then
        v <- at_ (size_type.sub i length) ;;
        construct i v ;;;
        destroy (i - length) ;;;
        gap_loop r from length (size_type.sub i 1)
      else ret tt
  end.

Definition gap_ (from length : Z) : M bool :=
  sz <- gets size_ ;;
  cap <- gets capacity_ ;;
  success <- (if cap <? size_type.add sz length
              then reserve (size_type.add sz length) else ret true) ;;
  sz <- gets size_ ;;
  modify (set_size_ (size_type.add sz length)) ;;;
  sz <- gets size_ ;;
  if sz <=? length then ret true
  else if success then
    if sz <=? from then ret true
    else
      gap_loop (Z.to_nat sz) from length (size_type.sub sz 1) ;;;
      ret true
  else ret false.

(** *** Constructors *)

(** No constructor names [void_mapped_type_] or [void_key_type_] in its
    initialiser list or its body: the two members are default-initialised,
    which [default_init] records for each type. *)

(** [vectormap()] *)
Definition vectormap_default : vectormap :=
  Vectormap 0 0 None default_init default_init.

(** [for (auto elem : il) { construct(data_ + counter, elem); size_++; counter++; }] *)
Fixpoint il_loop (il : list value_type) (counter : Z) : M unit :=
  match il with
  | [] => ret tt
  | elem :: il' =>
      construct counter (Some elem) ;;;
      sz <- gets size_ ;;
      modify (set_size_ (size_type.add sz 1)) ;;;
      il_loop il' (size_type.add counter 1)
  end.

(** [vectormap(const std::initializer_list<value_type>& il)] *)
Definition vectormap_il (il : list value_type) : vectormap :=
  let il_size := Z.of_nat (length il) in
  let capacity0 := delta_ in
  let capacity1 :=
    if capacity0 <? il_size
    then size_type.mul (size_type.add (size_type.div il_size delta_) 1) delta_
    else capacity0 in
  snd (il_loop il 0
         (Vectormap 0 capacity1 (allocate capacity1) default_init default_init)).

(** The loop shared by the copy operations and [insert(map, pos)]:
    [construct(data_ + base + i, make_pair(other.data_[i].first, other.data_[i].second))] *)
Definition copy_from (src : pointer) (base : Z) (n : nat) : M unit :=
  for_ n 0 (fun i => construct (base + i) (peek src i)).

(** [vectormap(const vectormap& other)] *)
Definition vectormap_copy (other : vectormap) : vectormap :=
  let m0 := Vectormap (size_ other) (capacity_ other)
              (allocate (capacity_ other)) default_init default_init in
  snd (copy_from (data_ other) 0 (Z.to_nat (size_ other)) m0).

(** [vectormap(vectormap&& other)]: the new object first, then what is
    left of [other]. *)
Definition vectormap_move (other : vectormap) : vectormap * vectormap :=
  (Vectormap (size_ other) (capacity_ other) (data_ other) default_init default_init,
   set_capacity_ 0 (set_size_ 0 (set_data_ None other))).

(** *** Element insertion *)

(** [insert(const value_type& val, const size_type pos)] *)
Definition insert (val : value_type) (pos : Z) : M iterator :=
  sz <- gets size_ ;;
  if sz <? pos then end_
  else
    success <- gap_ pos 1 ;;
    if success then
      construct pos (Some val) ;;;
      ret (Iterator pos)
    else end_.

(** [insert(const key_type& key, const mapped_type& val, const size_type pos)] *)
Definition insert_kv (key : key_type) (val : mapped_type) (pos : Z) : M iterator :=
  insert (key, val) pos.

(** [insert(const std::initializer_list<value_type>& il, const size_type pos)] *)
Definition insert_il (il : list value_type) (pos : Z) : M iterator :=
  sz <- gets size_ ;;
  if sz <? pos then end_
  else
    let il_size := Z.of_nat (length il) in
    success <- gap_ pos il_size ;;
    if success then
      for_ (length il) 0
        (fun i => construct (pos + i) (default None (Some <$> il !! Z.to_nat i))) ;;;
      ret (Iterator pos)
    else end_.

(** The right-hand side of an operation that takes another container by
    reference: the object itself ([rhs_this]) or a distinct one. *)
Inductive rhs : Type :=
| rhs_this
| rhs_other (other : vectormap).

(** [insert(const vectormap& map, const size_type pos)].  The bound
    [map.size_] and the slots [map.data_[i]] are read through the
    reference in every round; when [map] is [*this] they are the ones
    [gap_] has just changed. *)
Definition insert_map (map : rhs) (pos : Z) : M iterator :=
  sz <- gets size_ ;;
  if sz <? pos then end_
  else
    map_size <- gets (fun m => match map with rhs_this => size_ m | rhs_other o => size_ o end) ;;
    success <- gap_ pos map_size ;;
    if success then
      match map with
      | rhs_other o => copy_from (data_ o) pos (Z.to_nat (size_ o))
      | rhs_this =>
          n <- gets size_ ;;
          for_ (Z.to_nat n) 0 (fun i => v <- at_ i ;; construct (pos + i) v)
      end ;;;
      ret (Iterator pos)
    else end_.

Definition push_back (val : value_type) : M iterator :=
  sz <- gets size_ ;; insert val sz.
Definition push_back_kv (key : key_type) (val : mapped_type) : M iterator :=
  sz <- gets size_ ;; insert_kv key val sz.
Definition push_back_il (il : list value_type) : M iterator :=
  sz <- gets size_ ;; insert_il il sz.
Definition push_back_map (map : rhs) : M iterator :=
  sz <- gets size_ ;; insert_map map sz.
Definition push_front (val : value_type) : M iterator := insert val 0.
Definition push_front_kv (key : key_type) (val : mapped_type) : M iterator :=
  insert_kv key val 0.
Definition push_front_il (il : list value_type) : M iterator := insert_il il 0.
Definition push_front_map (map : rhs) : M iterator := insert_map map 0.

(** *** Element access *)

(** [data_[i].first == key]; a slot without an object matches no key. *)
Definition key_at (p : pointer) (i : Z) (key : key_type) : bool :=
  match peek p i with
  | Some (k, _) => key_equal k key
  | None => false
  end.

(** [get(const size_type pos)] *)
Definition get_at (pos : Z) : M iterator :=
  sz <- gets size_ ;;
  if pos <? sz then ret (Iterator pos) else end_.

(** The scan of [get(key, ordinal, number)], [n] rounds from position [i].
    [out.size() == (number - 1)] is a comparison of [size_type] values:
    with [number = 0] the right-hand side is [npos]. *)
Fixpoint get_loop (p : pointer) (key : key_type) (ordinal number : Z)
    (n : nat) (i order : Z) (out : list iterator_pos) : list iterator_pos :=
  match n with
  | O => out
  | S n' =>
      if key_at p i key then
        if (ordinal <=? order)
           && (Z.of_nat (length out) =? size_type.sub number 1) then
          out ++ [(Iterator i, i)]
        else if ordinal <=? order then
          get_loop p key ordinal number n' (size_type.add i 1)
            (size_type.add order 1) (out ++ [(Iterator i, i)])
        else
          get_loop p key ordinal number n' (size_type.add i 1)
            (size_type.add order 1) out
      else
        get_loop p key ordinal number n' (size_type.add i 1) order out
  end.

(** [get(const key_type& key, size_type ordinal = 1, size_type number = 1)] *)
Definition get (key : key_type) (ordinal number : Z) : M (list iterator_pos) :=
  gets (fun m =>
    get_loop (data_ m) key ordinal number (Z.to_nat (size_ m)) 0 1 []).

Fixpoint get_all_loop (p : pointer) (key : key_type)
    (n : nat) (i : Z) (out : list iterator_pos) : list iterator_pos :=
  match n with
  | O => out
  | S n' =>
      get_all_loop p key n' (size_type.add i 1)
        (if key_at p i key then out ++ [(Iterator i, i)] else out)
  end.

(** [get_all(const key_type& key)] *)
Definition get_all (key : key_type) : M (list iterator_pos) :=
  gets (fun m => get_all_loop (data_ m) key (Z.to_nat (size_ m)) 0 []).

(** [it->second]; every iterator the scans return points at an object. *)
Definition second_of (p : pointer) (it : iterator) : list mapped_type :=
  match peek p (ptr_ it) with
  | Some (_, v) => [v]
  | None => []
  end.

(** [get_value(const key_type& key, size_type ordinal, size_type number)] *)
Definition get_value_key (key : key_type) (ordinal number : Z) : M (list mapped_type) :=
  get_ <- get key ordinal number ;;
  gets (fun m => concat (map (fun e => second_of (data_ m) (fst e)) get_)).

(** [get_all_values(const key_type& key)] *)
Definition get_all_values (key : key_type) : M (list mapped_type) :=
  all <- get_all key ;;
  gets (fun m => concat (map (fun e => second_of (data_ m) (fst e)) all)).

(** [get_all_pos(const key_type& key)] *)
Definition get_all_pos (key : key_type) : M (list Z) :=
  all <- get_all key ;; ret (map snd all).

(** What a returned [mapped_type&] or [const key_type&] designates: the
    half of a slot, or the member standing in for a missing entry. *)
Inductive mapped_ref : Type :=
| ref_second (pos : Z)
| ref_void_mapped_type_.

Inductive key_ref : Type :=
| ref_first (pos : Z)
| ref_void_key_type_.

(** [get_value(const size_type& pos)] *)
Definition get_value (pos : Z) : M mapped_ref :=
  sz <- gets size_ ;;
  ret (if pos <? sz then ref_second pos else ref_void_mapped_type_).

(** [get_key(const size_type& pos)] *)
Definition get_key (pos : Z) : M key_ref :=
  sz <- gets size_ ;;
  ret (if pos <? sz then ref_first pos else ref_void_key_type_).

(** Reading through the references. *)
Definition load_mapped (m : vectormap) (r : mapped_ref) : option mapped_type :=
  match r with
  | ref_second pos => snd <$> peek (data_ m) pos
  | ref_void_mapped_type_ => void_mapped_type_ m
  end.

Definition load_key (m : vectormap) (r : key_ref) : option key_type :=
  match r with
  | ref_first pos => fst <$> peek (data_ m) pos
  | ref_void_key_type_ => void_key_type_ m
  end.

(** *** Element modification *)

(** [set_value(const mapped_type& new_mapped_value, const size_type pos)]:
    [data_[pos].second = new_mapped_value], with no check of [pos]. *)
Definition set_value (new_mapped_value : mapped_type) (pos : Z) : M unit :=
  s <- at_ pos ;;
  match s with
  | Some (k, _) => construct pos (Some (k, new_mapped_value))
  | None => ret tt
  end.

(** *** Element management *)

(** [clear()] *)
Definition clear : M unit :=
  sz <- gets size_ ;;
  for_ (Z.to_nat sz) 0 destroy ;;;
  modify (set_size_ 0).

(** [erase(const size_type pos)] *)
Definition erase (pos : Z) : M unit :=
  sz <- gets size_ ;;
  if (0 <? sz) && (pos <? sz) then
    modify (set_size_ (size_type.sub sz 1)) ;;;
    sz <- gets size_ ;;
    for_ (Z.to_nat (sz - pos)) pos
      (fun i =>
         destroy i ;;;
         v <- at_ (size_type.add i 1) ;;
         construct i v)
  else ret tt.

(** [erase(const std::initializer_list<size_type>& il)] *)
Definition erase_il (il : list Z) : M unit := for_each il erase.

(** [erase_all(const key_type& key)] *)
Definition erase_all (key : key_type) : M unit :=
  v <- get_all key ;;
  for_each (rev v) (fun it => erase (snd it)).

(** [move(const size_type from, const size_type to)] *)
Definition move (from to : Z) : M unit :=
  sz <- gets size_ ;;
  if (from <? sz) && (to <? sz) then
    gap_ to 1 ;;;
    v <- at_ (size_type.add from 1) ;;
    construct to v ;;;
    destroy (from + 1) ;;;
    sz <- gets size_ ;;
    for_ (Z.to_nat (sz - size_type.add from 1)) (size_type.add from 1)
      (fun i =>
         v <- at_ (size_type.add i 1) ;;
         construct i v ;;;
         destroy (i + 1)) ;;;
    sz <- gets size_ ;;
    modify (set_size_ (size_type.sub sz 1))
  else ret tt.

(** [swap(const size_type from, const size_type to)] *)
Definition swap_pos (from to : Z) : M unit :=
  sz <- gets size_ ;;
  if (from <? sz) && (to <? sz) then
    temp_ <- at_ to ;;
    destroy to ;;;
    v <- at_ from ;;
    construct to v ;;;
    destroy from ;;;
    construct from temp_
  else ret tt.

(** [swap(vectormap& a, vectormap& b)] for two distinct objects: buffer,
    size and capacity change hands, the [void_] members stay. *)
Definition swap (a b : vectormap) : vectormap * vectormap :=
  (set_capacity_ (capacity_ b) (set_size_ (size_ b) (set_data_ (data_ b) a)),
   set_capacity_ (capacity_ a) (set_size_ (size_ a) (set_data_ (data_ a) b))).

(** *** Operators *)

(** [operator=(const vectormap& other)] *)
Definition copy_assign (other : rhs) : M unit :=
  match other with
  | rhs_this => ret tt
  | rhs_other o =>
      clear ;;;
      cap <- gets capacity_ ;;
      (if cap <? size_ o then reserve (size_ o) ;;; ret tt else ret tt) ;;;
      copy_from (data_ o) 0 (Z.to_nat (size_ o))
  end.

(** [operator=(vectormap&& other)] for a distinct [other]; the result is
    what is left of [other]. *)
Definition move_assign (other : vectormap) : M vectormap :=
  (* data_ = std::exchange(other.data_, nullptr); *)
  modify (set_data_ (data_ other)) ;;;
  let other := set_data_ None other in
  (* size_ = std::exchange(other.size_, 0); *)
  modify (set_size_ (size_ other)) ;;;
  let other := set_size_ 0 other in
  (* std::swap(other.capacity_, capacity_); *)
  cap <- gets capacity_ ;;
  modify (set_capacity_ (capacity_ other)) ;;;
  let other := set_capacity_ cap other in
  ret other.

(** [operator=(vectormap&& other)] when [other] is [*this]: every
    statement reads and writes the same member. *)
Definition move_assign_this : M unit :=
  old_data <- gets data_ ;;
  modify (set_data_ None) ;;;
  modify (set_data_ old_data) ;;;
  old_size <- gets size_ ;;
  modify (set_size_ 0) ;;;
  modify (set_size_ old_size) ;;;
  cap <- gets capacity_ ;;
  modify (set_capacity_ cap).

(** The live range [data_[0] .. data_[size_ - 1]], slot by slot. *)
Definition entries (m : vectormap) : list slot :=
  peek (data_ m) <$> seqZ 0 (size_ m).

(** *** Reachable containers *)

(** The state-changing member functions that work on [*this] alone (or on
    [*this] passed as its own argument).  The accessors of the lookup
    family leave the container as it is and are not listed; neither is what
    a caller writes through a reference, an iterator or the [data()] pointer
    it was given, which is no call of the container. *)
Inductive call : Type :=
| call_insert (val : value_type) (pos : Z)
| call_insert_kv (key : key_type) (val : mapped_type) (pos : Z)
| call_insert_il (il : list value_type) (pos : Z)
| call_insert_this (pos : Z)
| call_push_back (val : value_type)
| call_push_back_kv (key : key_type) (val : mapped_type)
| call_push_back_il (il : list value_type)
| call_push_back_this
| call_push_front (val : value_type)
| call_push_front_kv (key : key_type) (val : mapped_type)
| call_push_front_il (il : list value_type)
| call_push_front_this
| call_set_value (new_mapped_value : mapped_type) (pos : Z)
| call_clear
| call_erase (pos : Z)
| call_erase_il (il : list Z)
| call_erase_all (key : key_type)
| call_move (from to : Z)
| call_swap_pos (from to : Z)
| call_reserve (min_capacity : Z)
| call_shrink
| call_resize (new_capacity : Z)
| call_copy_assign_this
| call_move_assign_this.

Definition exec (c : call) (m : vectormap) : vectormap :=
  match c with
  | call_insert val pos => snd (insert val pos m)
  | call_insert_kv key val pos => snd (insert_kv key val pos m)
  | call_insert_il il pos => snd (insert_il il pos m)
  | call_insert_this pos => snd (insert_map rhs_this pos m)
  | call_push_back val => snd (push_back val m)
  | call_push_back_kv key val => snd (push_back_kv key val m)
  | call_push_back_il il => snd (push_back_il il m)
  | call_push_back_this => snd (push_back_map rhs_this m)
  | call_push_front val => snd (push_front val m)
  | call_push_front_kv key val => snd (push_front_kv key val m)
  | call_push_front_il il => snd (push_front_il il m)
  | call_push_front_this => snd (push_front_map rhs_this m)
  | call_set_value v pos => snd (set_value v pos m)
  | call_clear => snd (clear m)
  | call_erase pos => snd (erase pos m)
  | call_erase_il il => snd (erase_il il m)
  | call_erase_all key => snd (erase_all key m)
  | call_move from to => snd (move from to m)
  | call_swap_pos from to => snd (swap_pos from to m)
  | call_reserve min_capacity => snd (reserve min_capacity m)
  | call_shrink => snd (shrink m)
  | call_resize new_capacity => snd (resize new_capacity m)
  | call_copy_assign_this => snd (copy_assign rhs_this m)
  | call_move_assign_this => snd (move_assign_this m)
  end.

(** [room m n]: [n] more entries and one more chunk still are counted
    without leaving [size_type].  Every entry occupies memory, so a
    container and the sequence handed to it always have this room. *)
Definition room (m : vectormap) (n : Z) : Prop :=
  size_ m + n + delta_ < size_type.modulus.

(** The arguments of a call are [size_type] values, and an insertion has
    the room it needs. *)
Definition fits (c : call) (m : vectormap) : Prop :=
  match c with
  | call_insert _ pos | call_insert_kv _ _ pos =>
      size_type.in_range pos /\ room m 1
  | call_insert_il il pos =>
      size_type.in_range pos /\ room m (Z.of_nat (length il))
  | call_insert_this pos => size_type.in_range pos /\ room m (size_ m)
  | call_push_back _ | call_push_back_kv _ _
  | call_push_front _ | call_push_front_kv _ _ => room m 1
  | call_push_back_il il | call_push_front_il il =>
      room m (Z.of_nat (length il))
  | call_push_back_this | call_push_front_this => room m (size_ m)
  | call_reserve n | call_resize n => size_type.in_range n
  | _ => True
  end.

Inductive reachable : vectormap -> Prop :=
| reach_default : reachable vectormap_default
| reach_il il :
    Z.of_nat (length il) + delta_ < size_type.modulus ->
    reachable (vectormap_il il)
| reach_copy o : reachable o -> reachable (vectormap_copy o)
| reach_move_new o : reachable o -> reachable (fst (vectormap_move o))
| reach_move_old o : reachable o -> reachable (snd (vectormap_move o))
| reach_call c m : reachable m -> fits c m -> reachable (exec c m)
| reach_insert_map m o pos :
    reachable m -> reachable o ->
    size_type.in_range pos -> room m (size_ o) ->
    reachable (snd (insert_map (rhs_other o) pos m))
| reach_push_back_map m o :
    reachable m -> reachable o -> room m (size_ o) ->
    reachable (snd (push_back_map (rhs_other o) m))
| reach_push_front_map m o :
    reachable m -> reachable o -> room m (size_ o) ->
    reachable (snd (push_front_map (rhs_other o) m))
| reach_swap_fst a b :
    reachable a -> reachable b -> reachable (fst (swap a b))
| reach_swap_snd a b :
    reachable a -> reachable b -> reachable (snd (swap a b))
| reach_copy_assign m o :
    reachable m -> reachable o ->
    reachable (snd (copy_assign (rhs_other o) m))
| reach_move_assign_to m o :
    reachable m -> reachable o -> reachable (snd (move_assign o m))
| reach_move_assign_from m o :
    reachable m -> reachable o -> reachable (fst (move_assign o m)).

(** *** What a call leaves of a container *)

(** Everything of a container but its buffer. *)
Definition frame (m : vectormap)
  : Z * Z * option mapped_type * option key_type :=
  (size_ m, capacity_ m, void_mapped_type_ m, void_key_type_ m).

(** A computation that only touches slots of the buffer. *)
Definition data_only {A} (c : M A) : Prop :=
  forall m, frame (snd (c m)) = frame m.

(** The capacity [gap_] leaves: it asks [reserve] for [size_ + length]
    slots when they exceed the capacity, and [reserve] and [resize] each
    refuse a request smaller than [size_]. *)
Definition gap_capacity (m : vectormap) (length : Z) : Z :=
  let wanted := size_type.add (size_ m) length in
  let new_capacity :=
    size_type.mul (size_type.add (size_type.div wanted delta_) 1) delta_ in
  if capacity_ m <? wanted then
    if wanted <? size_ m then capacity_ m
    else if new_capacity <? size_ m then capacity_ m
    else new_capacity
  else capacity_ m.

(** The invariant of the data model, with the bound of [size_type] and
    the two members that stand in for a missing entry. *)
Definition good (m : vectormap) : Prop :=
  0 <= size_ m <= capacity_ m /\ capacity_ m < size_type.modulus /\
  void_mapped_type_ m = default_init /\ void_key_type_ m = default_init.

(** The buffer is an allocation of [capacity_] slots, and the counters are
    [size_type] values with [size_ <= capacity_]. *)
Definition intact (m : vectormap) : Prop :=
  (forall j, allocated (data_ m) j = (0 <=? j) && (j <? capacity_ m)) /\
  0 <= size_ m <= capacity_ m /\ capacity_ m < size_type.modulus.

(** *** The lookups, said without a loop *)

(** The positions [0 .. size_ - 1] whose key equals [key], ascending, each
    paired with the iterator to it. *)
Definition all_matches (m : vectormap) (key : key_type) : list iterator_pos :=
  map (fun i => (Iterator i, i))
    (List.filter (fun i => key_at (data_ m) i key)
       (map Z.of_nat (seq 0 (Z.to_nat (size_ m))))).

(** A slot holds an entry whose key equals [key]. *)
Definition holds_key (key : key_type) (s : slot) : bool :=
  match s with
  | Some (k, _) => key_equal k key
  | None => false
  end.

(** *** The buffer and [capacity_] *)

(** The buffer is an allocation of exactly [capacity_] slots. *)
Definition fitted (m : vectormap) : Prop :=
  forall j, allocated (data_ m) j = (0 <=? j) && (j <? capacity_ m).

(** A computation that leaves it so. *)
Definition keeps_fitted {A} (c : M A) : Prop :=
  forall m, fitted m -> fitted (snd (c m)).

End vectormap.

(** ** An instance: [vectormap<std::string, int, 100>] *)

Module example.

#[export] Instance string_keyable : Keyable string := String.eqb.
(** [std::string t;] is the empty string; [int t;] is indeterminate. *)
#[export] Instance string_default : DefaultInitializable string :=
  Some EmptyString.
#[export] Instance int_default : DefaultInitializable Z := None.

Definition delta : Z := 100.

Definition run {A} (c : M A) (m : @vectormap string Z) : @vectormap string Z :=
  snd (c m).

Definition empty : @vectormap string Z := vectormap_default.
Definition abc : @vectormap string Z :=
  vectormap_il delta [("a"%string, 1); ("b"%string, 2); ("c"%string, 3)].
Definition abcde : @vectormap string Z :=
  vectormap_il delta
    [("a"%string, 1); ("b"%string, 2); ("c"%string, 3);
     ("d"%string, 4); ("e"%string, 5)].
Definition aba : @vectormap string Z :=
  vectormap_il delta [("a"%string, 1); ("b"%string, 2); ("a"%string, 3)].

End example.

(** ** Facts about [size_type] arithmetic *)

Lemma wrap_small x : size_type.in_range x -> size_type.wrap x = x.
Proof.
  unfold size_type.in_range, size_type.wrap. intros. now apply Z.mod_small.
Qed.

Lemma wrap_in_range x : size_type.in_range (size_type.wrap x).
Proof.
  unfold size_type.in_range, size_type.wrap, size_type.modulus.
  apply Z.mod_pos_bound. lia.
Qed.

Lemma add_small a b :
  size_type.in_range (a + b) -> size_type.add a b = a + b.
Proof. apply wrap_small. Qed.

Lemma sub_small a b :
  size_type.in_range (a - b) -> size_type.sub a b = a - b.
Proof. apply wrap_small. Qed.

Lemma sub_0_1 : size_type.sub 0 1 = size_type.npos.
Proof. reflexivity. Qed.

Lemma sub_in_range a b : size_type.in_range (size_type.sub a b).
Proof. apply wrap_in_range. Qed.

(** ** The lookup family *)

Section lookup_facts.

Context {key_type mapped_type : Type}.
Context `{!Keyable key_type, !DefaultInitializable key_type,
          !DefaultInitializable mapped_type}.

Implicit Types (p : @pointer key_type mapped_type) (key : key_type).
Implicit Types (m : @vectormap key_type mapped_type).
Implicit Types (out : list iterator_pos).

Lemma get_all_loop_app p key n : forall i out,
  get_all_loop p key n i out = out ++ get_all_loop p key n i [].
Proof.
  induction n as [|n IH]; intros i out; simpl.
  - now rewrite app_nil_r.
  - destruct (key_at p i key); [|apply IH].
    rewrite (IH _ (out ++ _)), (IH _ [_]).
    now rewrite <- app_assoc.
Qed.

Lemma get_all_loop_cons p key n i :
  get_all_loop p key (S n) i [] =
  (if key_at p i key then [(Iterator i, i)] else [])
    ++ get_all_loop p key n (size_type.add i 1) [].
Proof.
  simpl. destruct (key_at p i key); [|reflexivity].
  now rewrite get_all_loop_app.
Qed.

Lemma get_all_loop_length p key n : forall i,
  (length (get_all_loop p key n i []) <= n)%nat.
Proof.
  induction n as [|n IH]; intros i; [simpl; lia|].
  rewrite get_all_loop_cons, length_app.
  specialize (IH (size_type.add i 1)).
  destruct (key_at p i key); [exact (le_n_S _ _ IH) | exact (le_S _ _ IH)].
Qed.

(** The exhaustive scan visits the positions [i, i + n). *)
Lemma get_all_loop_filter p key n : forall i,
  0 <= i -> i + Z.of_nat n <= size_type.modulus ->
  get_all_loop p key n i [] =
  map (fun j => (Iterator j, j))
    (List.filter (fun j => key_at p j key)
       (map Z.of_nat (seq (Z.to_nat i) n))).
Proof.
  induction n as [|n IH]; intros i Hi Hn; [reflexivity|].
  rewrite get_all_loop_cons.
  cbn [seq map List.filter]. rewrite Z2Nat.id by lia.
  destruct n as [|n].
  - destruct (key_at p i key); reflexivity.
  - rewrite add_small by (unfold size_type.in_range; lia).
    rewrite IH by lia.
    replace (Z.to_nat (i + 1)) with (S (Z.to_nat i)) by lia.
    destruct (key_at p i key); reflexivity.
Qed.

Lemma get_all_matches m key :
  size_type.in_range (size_ m) ->
  fst (get_all key m) = all_matches m key.
Proof.
  intros [H0 H1]. unfold get_all, gets, all_matches. simpl.
  rewrite get_all_loop_filter by lia. reflexivity.
Qed.

(** What the scan of [get] returns, in terms of the exhaustive scan over
    the same positions: the matches before rank [ordinal] are skipped, and
    the scan stops with the push that finds [out.size() == number - 1]. *)
Lemma get_loop_spec p key ordinal number n : forall i order out,
  0 <= order -> order + Z.of_nat n <= size_type.modulus ->
  Z.of_nat (length out) <= size_type.sub number 1 ->
  get_loop p key ordinal number n i order out =
  out ++ take (S (Z.to_nat (size_type.sub number 1 - Z.of_nat (length out))))
           (drop (Z.to_nat (ordinal - order)) (get_all_loop p key n i [])).
Proof.
  induction n as [|n IH]; intros i order out Ho Hn Hout.
  - simpl. rewrite drop_nil. now rewrite app_nil_r.
  - rewrite get_all_loop_cons. cbn [get_loop].
    destruct (key_at p i key) eqn:Hhit; cbn [app].
    2:{ apply IH; lia. }
    destruct n as [|n].
    { (* the last round *)
      cbn [get_loop get_all_loop].
      destruct (ordinal <=? order) eqn:Hord; cbn [andb].
      - replace (Z.to_nat (ordinal - order)) with O by lia.
        rewrite drop_0. cbn [firstn]. rewrite take_nil.
        now destruct (_ =? _).
      - replace (Z.to_nat (ordinal - order))
          with (S (Z.to_nat (ordinal - order - 1))) by lia.
        cbn [skipn]. rewrite drop_nil. now rewrite app_nil_r. }
    assert (Hadd : size_type.add order 1 = order + 1)
      by (apply add_small; unfold size_type.in_range; lia).
    rewrite Hadd.
    destruct (ordinal <=? order) eqn:Hord; cbn [andb].
    + replace (Z.to_nat (ordinal - order)) with O by lia.
      rewrite drop_0.
      destruct (Z.of_nat (length out) =? size_type.sub number 1) eqn:Hlim.
      * apply Z.eqb_eq in Hlim. rewrite Hlim, Z.sub_diag. reflexivity.
      * apply Z.eqb_neq in Hlim.
        rewrite IH by (rewrite ?length_app; simpl; lia).
        replace (Z.to_nat (ordinal - (order + 1))) with O by lia.
        rewrite drop_0, length_app. simpl.
        rewrite <- app_assoc. simpl. do 3 f_equal. lia.
    + rewrite IH by lia.
      replace (Z.to_nat (ordinal - order))
        with (S (Z.to_nat (ordinal - (order + 1)))) by lia.
      reflexivity.
Qed.

(** [get] in one equation: take [number] matches (all of them when
    [number] is 0) after dropping the first [ordinal - 1]. *)
Lemma get_spec m key ordinal number :
  size_type.in_range (size_ m) ->
  fst (get key ordinal number m) =
  take (S (Z.to_nat (size_type.sub number 1)))
    (drop (Z.to_nat (ordinal - 1)) (fst (get_all key m))).
Proof.
  intros [H0 H1]. unfold get, get_all, gets. cbn [fst].
  rewrite get_loop_spec.
  - cbn [app length]. now rewrite Z.sub_0_r.
  - lia.
  - lia.
  - cbn [length]. pose proof (sub_in_range number 1) as [? ?]. lia.
Qed.

End lookup_facts.

(** ** What the member functions leave of the container *)

Section frame_facts.

Context {key_type mapped_type : Type}.
Context `{!Keyable key_type, !DefaultInitializable key_type,
          !DefaultInitializable mapped_type}.
Variable delta_ : Z.

Implicit Types (m o : @vectormap key_type mapped_type).
Local Abbreviation M := (@M key_type mapped_type).
Local Abbreviation vectormap := (@vectormap key_type mapped_type).

Lemma data_only_ret {A} (a : A) : data_only (ret a : M A).
Proof. intros m. reflexivity. Qed.

Lemma data_only_gets {A} (f : vectormap -> A) : data_only (gets f).
Proof. intros m. reflexivity. Qed.

Lemma data_only_bind {A B} (c : M A) (k : A -> M B) :
  data_only c -> (forall a, data_only (k a)) -> data_only (bind c k).
Proof. intros Hc Hk m. unfold bind. now rewrite Hk, Hc. Qed.

Lemma data_only_construct i v : data_only (construct i v : M unit).
Proof. intros m. reflexivity. Qed.

Lemma data_only_destroy i : data_only (destroy i : M unit).
Proof. intros m. reflexivity. Qed.

Lemma data_only_at i : data_only (at_ i : M slot).
Proof. intros m. reflexivity. Qed.

Lemma data_only_if {A} (b : bool) (c1 c2 : M A) :
  data_only c1 -> data_only c2 -> data_only (if b then c1 else c2).
Proof. now destruct b. Qed.

Lemma data_only_for n (body : Z -> M unit) : forall i,
  (forall j, data_only (body j)) -> data_only (for_ n i body).
Proof.
  induction n as [|n IH]; intros i Hbody; simpl.
  - apply data_only_ret.
  - apply data_only_bind; auto.
Qed.

Create HintDb vmap.

#[local] Hint Resolve data_only_ret data_only_gets data_only_bind
  data_only_construct data_only_destroy data_only_at data_only_if
  data_only_for : vmap.

Lemma data_only_gap_loop rounds from length : forall i,
  data_only (gap_loop rounds from length i : M unit).
Proof.
  induction rounds as [|r IH]; intros i; simpl; auto 10 with vmap.
Qed.

(** The rounds [gap_] hands to its loop suffice: from a counter [i] the
    loop has stopped within [i + 1] rounds, whatever more it is given. *)
Lemma gap_loop_rounds from length r1 : forall r2 i m,
  0 <= from -> size_type.in_range i ->
  (Z.to_nat i < r1)%nat -> (Z.to_nat i < r2)%nat ->
  gap_loop r1 from length i m = gap_loop r2 from length i m.
Proof.
  induction r1 as [|r1 IH]; intros r2 i m Hfrom [Hi0 Hi1] H1 H2; [lia|].
  destruct r2 as [|r2]; [lia|]. cbn [gap_loop].
  destruct ((from <? i) && negb (size_type.sub i length =? size_type.npos))
    eqn:Hcond; [|reflexivity].
  apply andb_true_iff in Hcond as [Hlt _]. apply Z.ltb_lt in Hlt.
  unfold bind. cbn [fst snd].
  assert (Hsub : size_type.sub i 1 = i - 1)
    by (apply sub_small; unfold size_type.in_range; lia).
  rewrite Hsub.
  apply IH; [exact Hfrom|unfold size_type.in_range; lia|lia|lia].
Qed.

Lemma data_only_copy_from src base n :
  data_only (copy_from src base n : M unit).
Proof. unfold copy_from. auto with vmap. Qed.

Lemma data_only_set_value v pos : data_only (set_value v pos : M unit).
Proof.
  unfold set_value. apply data_only_bind; auto with vmap.
  intros [[k w]|]; auto with vmap.
Qed.

Lemma data_only_swap_pos from to : data_only (swap_pos from to : M unit).
Proof. unfold swap_pos. auto 20 with vmap. Qed.

#[local] Hint Resolve data_only_gap_loop data_only_copy_from : vmap.

Lemma frame_resize new_capacity m :
  frame (snd (resize new_capacity m)) =
  if new_capacity <? size_ m then frame m
  else (size_ m, new_capacity, void_mapped_type_ m, void_key_type_ m).
Proof.
  unfold resize, bind, gets. cbn [fst snd].
  now destruct (new_capacity <? size_ m).
Qed.

Lemma frame_reserve min_capacity m :
  frame (snd (reserve delta_ min_capacity m)) =
  if min_capacity <? size_ m then frame m
  else frame (snd (resize
         (size_type.mul (size_type.add (size_type.div min_capacity delta_) 1) delta_)
         m)).
Proof.
  unfold reserve, bind, gets. cbn [fst snd].
  now destruct (min_capacity <? size_ m).
Qed.

Lemma fst_resize new_capacity m :
  fst (resize new_capacity m) = negb (new_capacity <? size_ m).
Proof.
  unfold resize, bind, gets. cbn [fst snd].
  now destruct (new_capacity <? size_ m).
Qed.

Lemma fst_reserve min_capacity m :
  fst (reserve delta_ min_capacity m) =
  negb (min_capacity <? size_ m) &&
  negb (size_type.mul (size_type.add (size_type.div min_capacity delta_) 1) delta_
        <? size_ m).
Proof.
  unfold reserve, bind, gets. cbn [fst snd].
  destruct (min_capacity <? size_ m); [reflexivity|].
  now rewrite fst_resize.
Qed.

Lemma frame_gap from length m :
  frame (snd (gap_ delta_ from length m)) =
  (size_type.add (size_ m) length, gap_capacity delta_ m length,
   void_mapped_type_ m, void_key_type_ m).
Proof.
  unfold gap_, gap_capacity, bind, gets, modify, ret. cbn [fst snd].
  set (wanted := size_type.add (size_ m) length).
  match goal with
  | |- context [(if ?b then ?f else ?g) m] =>
      remember ((if b then f else g) m) as r eqn:Hr
  end.
  assert (Hgrow : frame (snd r) =
    (size_ m,
     (if capacity_ m <? wanted then
        if wanted <? size_ m then capacity_ m
        else if size_type.mul (size_type.add (size_type.div wanted delta_) 1) delta_
                <? size_ m then capacity_ m
        else size_type.mul (size_type.add (size_type.div wanted delta_) 1) delta_
      else capacity_ m),
     void_mapped_type_ m, void_key_type_ m)).
  { subst r. destruct (capacity_ m <? wanted); [|reflexivity].
    rewrite frame_reserve. destruct (wanted <? size_ m); [reflexivity|].
    rewrite frame_resize. now destruct (_ <? size_ m). }
  clear Hr. destruct r as [success m1]. cbn [fst snd] in *.
  injection Hgrow as Hs Hc Hvm Hvk.
  cbn [size_ set_size_]. rewrite Hs. fold wanted.
  repeat match goal with
  | |- context [if ?b then _ else _] => destruct b
  end; cbn [fst snd];
  try (rewrite data_only_gap_loop); unfold frame; cbn; congruence.
Qed.

(** *** The invariant is kept *)

Hypothesis delta_pos : 0 < delta_.

Lemma good_of_frame m m' s c :
  frame m' = (s, c, void_mapped_type_ m, void_key_type_ m) ->
  good m -> 0 <= s <= c -> c < size_type.modulus -> good m'.
Proof.
  unfold frame, good. intros [= -> -> -> ->] (_ & _ & Hm & Hk) Hs Hc.
  auto.
Qed.

Lemma good_same_frame m m' : frame m' = frame m -> good m -> good m'.
Proof.
  intros Hf Hg. eapply good_of_frame; [exact Hf|exact Hg|apply Hg|apply Hg].
Qed.

Lemma good_data_only {A} (c : M A) m :
  data_only c -> good m -> good (snd (c m)).
Proof. intros Hc. apply good_same_frame, Hc. Qed.

Lemma new_capacity_bounds n :
  0 <= n -> n + delta_ < size_type.modulus ->
  n < size_type.mul (size_type.add (size_type.div n delta_) 1) delta_
    <= n + delta_.
Proof.
  intros Hn Hroom. unfold size_type.div.
  pose proof (Z.div_mod n delta_ ltac:(lia)) as Hdm.
  pose proof (Z.mod_pos_bound n delta_ delta_pos) as Hmod.
  assert (0 <= n / delta_) by (apply Z.div_pos; lia).
  assert (n / delta_ <= n) by (apply Z.div_le_upper_bound; nia).
  rewrite add_small by (unfold size_type.in_range; lia).
  unfold size_type.mul. rewrite wrap_small
    by (unfold size_type.in_range; nia).
  nia.
Qed.

Lemma good_resize new_capacity m :
  size_type.in_range new_capacity -> good m ->
  good (snd (resize new_capacity m)).
Proof.
  intros [? ?] Hg. pose proof (frame_resize new_capacity m) as Hf.
  destruct (new_capacity <? size_ m) eqn:Hlt.
  - eapply good_same_frame; eauto.
  - eapply good_of_frame; eauto. destruct Hg as [? _]. lia.
Qed.

Lemma good_reserve min_capacity m :
  good m -> good (snd (reserve delta_ min_capacity m)).
Proof.
  intros Hg. pose proof (frame_reserve min_capacity m) as Hf.
  destruct (min_capacity <? size_ m).
  - eapply good_same_frame; eauto.
  - eapply good_same_frame; [exact Hf|].
    apply good_resize; [apply wrap_in_range|exact Hg].
Qed.

Lemma good_shrink m : good m -> good (snd (shrink m)).
Proof.
  intros Hg. unfold shrink, bind, gets. cbn [fst snd].
  apply good_resize; [|exact Hg].
  destruct Hg as [? [? _]]. unfold size_type.in_range. lia.
Qed.

(** With room for [length] more entries [gap_] counts them without
    wrapping and leaves a capacity that holds them. *)
Lemma gap_capacity_room m length :
  good m -> 0 <= length -> room delta_ m length ->
  size_type.add (size_ m) length = size_ m + length /\
  size_ m + length <= gap_capacity delta_ m length < size_type.modulus.
Proof.
  intros ([Hs Hsc] & Hc & _) Hl Hroom. unfold room in Hroom.
  assert (Hadd : size_type.add (size_ m) length = size_ m + length)
    by (apply add_small; unfold size_type.in_range; lia).
  split; [exact Hadd|].
  unfold gap_capacity. rewrite Hadd.
  pose proof (new_capacity_bounds (size_ m + length) ltac:(lia) ltac:(lia)).
  repeat match goal with
  | |- context [?a <? ?b] => destruct (Z.ltb_spec a b)
  end; lia.
Qed.

(** Without that room the capacity [gap_] leaves still is one that
    [resize] accepted. *)
Lemma gap_capacity_any m length :
  good m ->
  size_ m <= gap_capacity delta_ m length < size_type.modulus.
Proof.
  intros ([Hs Hsc] & Hc & _). unfold gap_capacity.
  set (nc := size_type.mul _ delta_).
  pose proof (wrap_in_range
    (size_type.add (size_type.div (size_type.add (size_ m) length) delta_) 1
     * delta_)) as [_ Hnc].
  fold (size_type.mul
    (size_type.add (size_type.div (size_type.add (size_ m) length) delta_) 1)
    delta_) in Hnc. fold nc in Hnc.
  repeat match goal with
  | |- context [?a <? ?b] => destruct (Z.ltb_spec a b)
  end; lia.
Qed.

Lemma good_gap from length m :
  good m -> 0 <= length -> room delta_ m length ->
  good (snd (gap_ delta_ from length m)).
Proof.
  intros Hg Hl Hroom.
  destruct (gap_capacity_room m length Hg Hl Hroom) as [Hadd Hcap].
  eapply good_of_frame; [apply frame_gap|exact Hg| |lia].
  destruct Hg as [? _]. lia.
Qed.

Lemma good_insert val pos m :
  good m -> room delta_ m 1 -> good (snd (insert delta_ val pos m)).
Proof.
  intros Hg Hroom. unfold insert, end_, bind, gets, ret. cbn [fst snd].
  destruct (size_ m <? pos); [exact Hg|].
  pose proof (good_gap pos 1 m Hg ltac:(lia) Hroom) as Hgap.
  destruct (fst (gap_ delta_ pos 1 m)); cbn [fst snd]; [|exact Hgap].
  apply (good_data_only (construct pos (Some val))); auto with vmap.
Qed.

Lemma good_insert_il il pos m :
  good m -> room delta_ m (Z.of_nat (length il)) ->
  good (snd (insert_il delta_ il pos m)).
Proof.
  intros Hg Hroom. unfold insert_il, end_, bind, gets, ret. cbn [fst snd].
  destruct (size_ m <? pos); [exact Hg|].
  pose proof (good_gap pos (Z.of_nat (length il)) m Hg ltac:(lia) Hroom) as Hgap.
  destruct (fst (gap_ delta_ pos _ m)); cbn [fst snd]; [|exact Hgap].
  apply (good_data_only (for_ _ 0 _)); auto with vmap.
Qed.

Lemma good_insert_map map pos m :
  good m ->
  match map with
  | rhs_this => room delta_ m (size_ m)
  | rhs_other o => good o /\ room delta_ m (size_ o)
  end ->
  good (snd (insert_map delta_ map pos m)).
Proof.
  intros Hg Hmap. unfold insert_map, end_, bind, gets, ret. cbn [fst snd].
  destruct (size_ m <? pos); [exact Hg|].
  destruct map as [|o].
  - pose proof (good_gap pos (size_ m) m Hg ltac:(apply Hg) Hmap) as Hgap.
    destruct (fst (gap_ delta_ pos _ m)); cbn [fst snd]; [|exact Hgap].
    apply (good_data_only (for_ _ 0 _)); [|exact Hgap].
    apply data_only_for. intros j m0. reflexivity.
  - destruct Hmap as [Ho Hroom].
    pose proof (good_gap pos (size_ o) m Hg ltac:(apply Ho) Hroom) as Hgap.
    destruct (fst (gap_ delta_ pos _ m)); cbn [fst snd]; [|exact Hgap].
    apply (good_data_only (copy_from _ _ _)); auto with vmap.
Qed.

Lemma good_clear m : good m -> good (snd (clear m)).
Proof.
  intros Hg. unfold clear, bind, gets, modify. cbn [fst snd].
  eapply good_of_frame with (m := m) (s := 0) (c := capacity_ m).
  - unfold frame. cbn.
    pose proof (data_only_for (Z.to_nat (size_ m)) destroy 0 data_only_destroy m)
      as Hf.
    injection Hf as _ -> -> ->. reflexivity.
  - exact Hg.
  - destruct Hg as [? _]. lia.
  - apply Hg.
Qed.

Lemma good_erase pos m : good m -> good (snd (erase pos m)).
Proof.
  intros Hg. unfold erase, bind, gets, modify. cbn [fst snd].
  destruct ((0 <? size_ m) && (pos <? size_ m)) eqn:Hc; [|exact Hg].
  apply andb_true_iff in Hc as [H0 _]. apply Z.ltb_lt in H0.
  apply good_data_only; [apply data_only_for; intros j m0; reflexivity|].
  destruct Hg as ([? ?] & ? & ? & ?).
  eapply good_of_frame with (m := m) (s := size_type.sub (size_ m) 1)
    (c := capacity_ m); [reflexivity|unfold good; auto| |lia].
  rewrite sub_small by (unfold size_type.in_range; lia). lia.
Qed.

Lemma good_for_each {A} (l : list A) (body : A -> M unit) :
  (forall x m, good m -> good (snd (body x m))) ->
  forall m, good m -> good (snd (for_each l body m)).
Proof.
  intros Hbody. induction l as [|x l IH]; intros m Hg; [exact Hg|].
  cbn [for_each]. unfold bind. apply IH, Hbody, Hg.
Qed.

Lemma good_erase_il il m : good m -> good (snd (erase_il il m)).
Proof. apply good_for_each. intros. now apply good_erase. Qed.

Lemma good_erase_all key m : good m -> good (snd (erase_all key m)).
Proof.
  intros Hg. unfold erase_all, bind. cbn [get_all gets fst snd].
  apply good_for_each; [|exact Hg]. intros. now apply good_erase.
Qed.

Lemma good_move from to m : good m -> good (snd (move delta_ from to m)).
Proof.
  intros Hg. unfold move. unfold bind at 1.
  change (gets size_ m) with (size_ m, m). cbn [fst snd].
  destruct ((from <? size_ m) && (to <? size_ m)); [|exact Hg].
  unfold bind at 1.
  pose proof (frame_gap to 1 m) as Hf.
  pose proof (gap_capacity_any m 1 Hg) as Hcap.
  generalize dependent (snd (gap_ delta_ to 1 m)). intros m1 Hf.
  set (c := bind (at_ _) _).
  assert (Hc : exists p, snd (c m1) =
            set_size_ (size_type.sub (size_ m1) 1) (set_data_ p m1)).
  { subst c. unfold bind, gets, modify, at_, construct, destroy.
    cbn [fst snd set_data_ size_ capacity_ data_].
    match goal with
    | |- context [for_ ?n ?i ?b ?s] =>
        pose proof (data_only_for n b i
          ltac:(intros ? ?; reflexivity) s) as Hloop;
        destruct (for_ n i b s) as [[] m2]
    end.
    cbn [fst snd] in *. unfold frame in Hloop. cbn in Hloop.
    injection Hloop as Hs Hc Hvm Hvk.
    exists (data_ m2). destruct m2; cbn in *. subst. reflexivity. }
  destruct Hc as [p ->].
  injection Hf as Hs Hc Hvm Hvk.
  eapply good_of_frame with (m := m); [unfold frame; cbn| exact Hg | |].
  - rewrite Hs, Hc, Hvm, Hvk. reflexivity.
  - destruct Hg as ([? ?] & ? & _).
    assert (size_type.sub (size_type.add (size_ m) 1) 1 = size_ m) as ->.
    { unfold size_type.sub, size_type.add, size_type.wrap.
      rewrite Zminus_mod_idemp_l.
      replace (size_ m + 1 - 1) with (size_ m) by lia.
      apply Z.mod_small. lia. }
    lia.
  - lia.
Qed.

Lemma good_copy_assign other m :
  good m -> good (snd (copy_assign delta_ other m)).
Proof.
  intros Hg. destruct other as [|o]; [exact Hg|].
  unfold copy_assign. unfold bind at 1.
  pose proof (good_clear m Hg) as Hclear.
  generalize dependent (snd (clear m)). intros m1 Hg1.
  unfold bind at 1. change (gets capacity_ m1) with (capacity_ m1, m1).
  cbn [fst snd]. unfold bind at 1.
  apply good_data_only; [auto with vmap|].
  destruct (capacity_ m1 <? size_ o); [|exact Hg1].
  unfold bind, ret. cbn [fst snd]. now apply good_reserve.
Qed.

Lemma good_move_assign o m :
  good m -> good o ->
  good (snd (move_assign o m)) /\ good (fst (move_assign o m)).
Proof.
  unfold good. intros ([? ?] & ? & ? & ?) ([? ?] & ? & ? & ?).
  unfold move_assign, bind, gets, modify, ret. cbn. repeat split; auto; lia.
Qed.

Lemma good_move_assign_this m : good m -> good (snd (move_assign_this m)).
Proof. intros Hg. destruct m. exact Hg. Qed.

Lemma good_swap (a b : vectormap) :
  good a -> good b -> good (fst (swap a b)) /\ good (snd (swap a b)).
Proof.
  unfold good. intros ([? ?] & ? & ? & ?) ([? ?] & ? & ? & ?).
  cbn. repeat split; auto.
Qed.

Lemma good_vectormap_default : good (vectormap_default : vectormap).
Proof. unfold good. cbn. repeat split; auto; lia. Qed.

Lemma frame_il_loop il : forall counter m,
  0 <= size_ m -> size_ m + Z.of_nat (length il) < size_type.modulus ->
  frame (snd (il_loop il counter m)) =
  (size_ m + Z.of_nat (length il), capacity_ m,
   void_mapped_type_ m, void_key_type_ m).
Proof.
  induction il as [|elem il IH]; intros counter m H0 Hlen.
  - cbn. unfold frame. now rewrite Z.add_0_r.
  - cbn [il_loop length] in *. unfold bind, construct, modify, gets.
    cbn [fst snd].
    assert (Hadd : size_type.add (size_ m) 1 = size_ m + 1)
      by (apply add_small; unfold size_type.in_range; lia).
    rewrite IH;
      cbn [size_ set_data_ set_size_ capacity_ void_mapped_type_ void_key_type_];
      rewrite Hadd; [do 3 f_equal|..]; lia.
Qed.

Lemma good_vectormap_il il :
  Z.of_nat (length il) + delta_ < size_type.modulus ->
  good (vectormap_il delta_ il : vectormap).
Proof.
  intros Hlen. unfold vectormap_il.
  set (capacity1 := if delta_ <? _ then _ else _).
  assert (Hcap : Z.of_nat (length il) <= capacity1 < size_type.modulus).
  { subst capacity1. destruct (Z.ltb_spec delta_ (Z.of_nat (length il))).
    - pose proof (new_capacity_bounds (Z.of_nat (length il))
        ltac:(lia) ltac:(lia)). lia.
    - lia. }
  set (m0 := Vectormap 0 capacity1 _ _ _).
  assert (Hs0 : size_ m0 = 0) by reflexivity.
  pose proof (frame_il_loop il 0 m0 ltac:(lia) ltac:(lia)) as Hf.
  unfold frame in Hf. injection Hf as Hs Hc Hvm Hvk.
  unfold good. rewrite Hs, Hc, Hvm, Hvk.
  repeat split; auto; lia.
Qed.

Lemma good_vectormap_copy o : good o -> good (vectormap_copy o).
Proof.
  intros Hg. unfold vectormap_copy.
  apply good_data_only; [auto with vmap|].
  unfold good in *. cbn. tauto.
Qed.

Lemma good_vectormap_move o :
  good o -> good (fst (vectormap_move o)) /\ good (snd (vectormap_move o)).
Proof.
  unfold good. intros ([? ?] & ? & ? & ?). cbn. repeat split; auto; lia.
Qed.

Lemma good_exec c m : good m -> fits delta_ c m -> good (exec delta_ c m).
Proof.
  intros Hg Hfits.
  assert (Hsz : forall A (k : Z -> M A),
            bind (gets size_) k m = k (size_ m) m) by reflexivity.
  destruct c; cbn [exec fits] in *.
  - apply good_insert; tauto.
  - apply good_insert; tauto.
  - apply good_insert_il; tauto.
  - apply good_insert_map; tauto.
  - unfold push_back. rewrite Hsz. now apply good_insert.
  - unfold push_back_kv. rewrite Hsz. now apply good_insert.
  - unfold push_back_il. rewrite Hsz. now apply good_insert_il.
  - unfold push_back_map. rewrite Hsz. now apply good_insert_map.
  - now apply good_insert.
  - now apply good_insert.
  - now apply good_insert_il.
  - now apply good_insert_map.
  - apply good_data_only; [apply data_only_set_value|exact Hg].
  - now apply good_clear.
  - now apply good_erase.
  - now apply good_erase_il.
  - now apply good_erase_all.
  - now apply good_move.
  - apply good_data_only; [apply data_only_swap_pos|exact Hg].
  - now apply good_reserve.
  - now apply good_shrink.
  - now apply good_resize.
  - exact Hg.
  - now apply good_move_assign_this.
Qed.

(** Every reachable container satisfies the invariant. *)
Lemma reachable_good m : reachable delta_ m -> good m.
Proof.
  induction 1.
  - apply good_vectormap_default.
  - now apply good_vectormap_il.
  - now apply good_vectormap_copy.
  - eapply proj1, good_vectormap_move; eassumption.
  - eapply proj2, good_vectormap_move; eassumption.
  - now apply good_exec.
  - apply good_insert_map; auto.
  - change (push_back_map delta_ (rhs_other o) m)
      with (insert_map delta_ (rhs_other o) (size_ m) m).
    apply good_insert_map; auto.
  - apply good_insert_map; auto.
  - eapply proj1, good_swap; eassumption.
  - eapply proj2, good_swap; eassumption.
  - now apply good_copy_assign.
  - eapply proj1, good_move_assign; eassumption.
  - eapply proj2, good_move_assign; eassumption.
Qed.

End frame_facts.

(** ** The buffer, slot by slot *)

Section slot_facts.

Context {key_type mapped_type : Type}.
Context `{!Keyable key_type, !DefaultInitializable key_type,
          !DefaultInitializable mapped_type}.

Local Abbreviation pointer := (@pointer key_type mapped_type).
Implicit Types (p : pointer).
Implicit Types (m : @vectormap key_type mapped_type).
Implicit Types (v : @slot key_type mapped_type).

Lemma allocated_poke p i v j : allocated (poke p i v) j = allocated p j.
Proof.
  unfold allocated, poke. destruct p as [buf|]; [|reflexivity].
  destruct (in_bounds buf i); [|reflexivity].
  unfold in_bounds. now rewrite length_insert.
Qed.

Lemma peek_poke p i v j :
  peek (poke p i v) j = if (j =? i) && allocated p i then v else peek p j.
Proof.
  unfold peek, poke, allocated. destruct p as [buf|].
  2:{ now rewrite andb_false_r. }
  destruct (in_bounds buf i) eqn:Hi.
  - unfold in_bounds in *. unfold pointer, slot, value_type in *.
    rewrite length_insert.
    apply andb_true_iff in Hi as [Hi0 Hi1].
    apply Z.leb_le in Hi0. apply Z.ltb_lt in Hi1.
    destruct (Z.eqb_spec j i) as [->|Hne]; cbn [andb].
    + rewrite (proj2 (Z.leb_le 0 i) Hi0), (proj2 (Z.ltb_lt _ _) Hi1).
      cbn [andb]. rewrite list_lookup_insert_eq by lia. reflexivity.
    + destruct ((0 <=? j) && (j <? Z.of_nat (length buf))) eqn:Hj;
        [|reflexivity].
      apply andb_true_iff in Hj as [Hj0 Hj1].
      apply Z.leb_le in Hj0. apply Z.ltb_lt in Hj1.
      rewrite list_lookup_insert_ne by lia. reflexivity.
  - now rewrite andb_false_r.
Qed.

Lemma peek_unallocated p j : allocated p j = false -> peek p j = None.
Proof.
  unfold peek, allocated. destruct p as [buf|]; [|reflexivity].
  now intros ->.
Qed.






Lemma allocated_allocate n j :
  allocated (allocate n : pointer) j = (0 <=? j) && (j <? n).
Proof.
  unfold allocated, allocate, in_bounds. rewrite length_replicate.
  destruct (Z.leb_spec 0 j); cbn [andb]; [|reflexivity].
  destruct (Z.ltb_spec j n), (Z.ltb_spec j (Z.of_nat (Z.to_nat n)));
    [reflexivity|lia|lia|reflexivity].
Qed.

Lemma peek_allocate n j : peek (allocate n : pointer) j = None.
Proof.
  unfold peek, allocate. destruct (in_bounds _ j) eqn:Hj; [|reflexivity].
  unfold in_bounds in Hj. rewrite length_replicate in Hj.
  apply andb_true_iff in Hj as [Hj0 Hj1].
  apply Z.leb_le in Hj0. apply Z.ltb_lt in Hj1.
  rewrite lookup_replicate_2 by lia. reflexivity.
Qed.

(** [resize]'s loop copies the slots [i .. i + n - 1] that fit the new
    allocation and leaves the others raw. *)
Lemma peek_resize_loop n : forall i (new_data old_data : pointer) j,
  0 <= i -> i + Z.of_nat n <= size_type.modulus ->
  peek (fst (resize_loop n i new_data old_data)) j =
    (if (i <=? j) && (j <? i + Z.of_nat n) && allocated new_data j
     then peek old_data j else peek new_data j) /\
  allocated (fst (resize_loop n i new_data old_data)) j = allocated new_data j.
Proof.
  induction n as [|n IH]; intros i nd od j Hi Hn; cbn [resize_loop fst].
  - split; [|reflexivity].
    destruct (Z.leb_spec i j), (Z.ltb_spec j (i + Z.of_nat 0));
      cbn [andb]; try reflexivity; lia.
  - destruct n as [|n].
    + cbn [resize_loop fst]. rewrite peek_poke, allocated_poke.
      split; [|reflexivity].
      destruct (Z.eqb_spec j i) as [->|Hne]; cbn [andb].
      * rewrite Z.leb_refl, (proj2 (Z.ltb_lt i (i + Z.of_nat 1))) by lia.
        cbn [andb]. now destruct (allocated nd i).
      * destruct (Z.leb_spec i j), (Z.ltb_spec j (i + Z.of_nat 1));
          cbn [andb]; try reflexivity; lia.
    + assert (Hadd : size_type.add i 1 = i + 1)
        by (apply add_small; unfold size_type.in_range; lia).
      rewrite Hadd.
      destruct (IH (i + 1) (poke nd i (peek od i)) (poke od i None) j
                  ltac:(lia) ltac:(lia)) as [Hpeek Halloc].
      rewrite Hpeek, Halloc, !peek_poke, !allocated_poke.
      split; [|reflexivity].
      destruct (Z.eqb_spec j i) as [->|Hne]; cbn [andb].
      * rewrite Z.leb_refl.
        rewrite (proj2 (Z.leb_gt (i + 1) i)) by lia.
        rewrite (proj2 (Z.ltb_lt i (i + Z.of_nat (S (S n))))) by lia.
        cbn [andb]. now destruct (allocated nd i).
      * destruct (Z.leb_spec (i + 1) j), (Z.leb_spec i j),
          (Z.ltb_spec j (i + 1 + Z.of_nat (S n))),
          (Z.ltb_spec j (i + Z.of_nat (S (S n))));
          cbn [andb]; try reflexivity; lia.
Qed.


(** Decide every comparison of positions in the goal. *)
Ltac case_comparison :=
  match goal with
  | |- context [?x <=? ?y] => destruct (Z.leb_spec x y)
  | |- context [?x <? ?y] => destruct (Z.ltb_spec x y)
  | |- context [?x =? ?y] => destruct (Z.eqb_spec x y)
  end.

Ltac split_comparisons := repeat case_comparison; cbn [andb orb negb].

(** The relocation loop of [gap_], slot by slot.  From the counter [i] it
    runs down to [lo = max (from + 1) length]: the slots [lo .. i] receive
    what was [length] slots below them, and the slots [lo - length .. i -
    length] that are not written again are left destroyed. *)
Lemma peek_gap_loop from length cap r : forall i m j,
  0 <= from -> 1 <= length -> length - 1 <= i < cap ->
  cap <= size_type.modulus ->
  (forall k, allocated (data_ m) k = (0 <=? k) && (k <? cap)) ->
  (Z.to_nat i < r)%nat ->
  peek (data_ (snd (gap_loop r from length i m))) j =
    (if (Z.max (from + 1) length <=? j) && (j <=? i)
     then peek (data_ m) (j - length)
     else if (Z.max (from + 1) length - length <=? j) && (j <=? i - length)
     then None
     else peek (data_ m) j) /\
  (forall k, allocated (data_ (snd (gap_loop r from length i m))) k
             = (0 <=? k) && (k <? cap)).
Proof.
  induction r as [|r IH]; intros i m j Hfrom Hlen Hi Hcap Hall Hr; [lia|].
  cbn [gap_loop].
  assert (Hnpos : size_type.sub i length = size_type.npos <-> i = length - 1).
  { unfold size_type.sub, size_type.wrap, size_type.npos.
    destruct (Z.eq_dec i (length - 1)) as [->|Hne].
    - replace (length - 1 - length) with (-1) by lia. split; auto.
    - split; [|lia]. intros H.
      destruct (Z.le_gt_cases length i).
      + rewrite Z.mod_small in H by lia. lia.
      + lia. }
  destruct (Z.ltb_spec from i) as [Hfi|Hfi]; cbn [andb].
  2:{ cbn [snd ret]. split; [|exact Hall]. split_comparisons; try reflexivity; lia. }
  destruct (Z.eqb_spec (size_type.sub i length) size_type.npos) as [He|He];
    cbn [negb].
  { apply Hnpos in He. cbn [snd ret]. split; [|exact Hall].
    split_comparisons; try reflexivity; lia. }
  assert (Hil : length <= i) by (rewrite Hnpos in He; lia).
  assert (Hsub : size_type.sub i length = i - length)
    by (apply sub_small; unfold size_type.in_range; lia).
  assert (Hsub1 : size_type.sub i 1 = i - 1)
    by (apply sub_small; unfold size_type.in_range; lia).
  unfold bind, at_, gets, construct, destroy, modify. cbn [fst snd].
  rewrite Hsub, Hsub1.
  cbn [data_ set_data_].
  set (m1 := set_data_ _ (set_data_ _ m)).
  assert (Hall1 : forall k, allocated (data_ m1) k = (0 <=? k) && (k <? cap)).
  { intros k. subst m1. cbn [data_ set_data_].
    now rewrite !allocated_poke. }
  destruct (IH (i - 1) m1 j Hfrom Hlen ltac:(lia) Hcap Hall1 ltac:(lia))
    as [Hpeek Halloc].
  split.
  2:{ intros k.
      destruct (IH (i - 1) m1 k Hfrom Hlen ltac:(lia) Hcap Hall1 ltac:(lia))
        as [_ Hk]. apply Hk. }
  assert (Hai : allocated (data_ m) i = true).
  { rewrite Hall. apply andb_true_iff.
    split; [apply Z.leb_le|apply Z.ltb_lt]; lia. }
  assert (Hail : allocated (data_ m) (i - length) = true).
  { rewrite Hall. apply andb_true_iff.
    split; [apply Z.leb_le|apply Z.ltb_lt]; lia. }
  rewrite Hpeek. subst m1. cbn [data_ set_data_]. clear Hpeek Halloc Hall1 IH.
  rewrite !peek_poke, !allocated_poke, Hai, Hail, !andb_true_r.
  destruct (Z.max_spec (from + 1) length) as [[_ ->]|[_ ->]];
    split_comparisons; try reflexivity; try lia; try (f_equal; lia).
Qed.


Variable delta_ : Z.
Hypothesis delta_pos : 0 < delta_.

(** A successful [reserve] keeps the live slots and leaves an intact
    container with more than the requested capacity. *)
Lemma reserve_intact m n :
  intact m -> size_ m <= n -> n + delta_ < size_type.modulus ->
  fst (reserve delta_ n m) = true /\
  intact (snd (reserve delta_ n m)) /\
  size_ (snd (reserve delta_ n m)) = size_ m /\
  n < capacity_ (snd (reserve delta_ n m)) /\
  (forall j, j < size_ m ->
     peek (data_ (snd (reserve delta_ n m))) j = peek (data_ m) j).
Proof.
  intros (Hall & [Hs0 Hsc] & Hcap) Hn Hroom.
  pose proof (new_capacity_bounds delta_ delta_pos n ltac:(lia) Hroom) as Hb.
  unfold reserve, resize, bind, gets, modify, ret. cbn [fst snd].
  set (nc := size_type.mul _ delta_) in *.
  destruct (Z.ltb_spec n (size_ m)); [lia|].
  destruct (Z.ltb_spec nc (size_ m)); [lia|]. cbn [fst snd].
  unfold set_capacity_, set_data_. cbn [size_ capacity_ data_].
  assert (Hloop := fun j => peek_resize_loop (Z.to_nat (size_ m)) 0
                     (allocate nc) (data_ m) j ltac:(lia) ltac:(lia)).
  repeat split; cbn [size_ capacity_ data_]; try lia.
  - intros j. destruct (Hloop j) as [_ ->]. apply allocated_allocate.
  - intros j Hj. destruct (Hloop j) as [-> _].
    rewrite allocated_allocate, peek_allocate.
    split_comparisons; try reflexivity; try lia.
    rewrite peek_unallocated; [reflexivity|].
    rewrite Hall. split_comparisons; try reflexivity; lia.
Qed.

(** [gap_] slot by slot.  With [k] the larger of [from + 1 - length] and 0,
    the slots below [k] are untouched, the slots [from + length ..] hold the
    old [from ..], and the slots [k .. from - 1] are destroyed: entries of
    the prefix, unless [length] is 1 or [from] is 0. *)
Lemma gap_effect from length m :
  intact m -> 0 <= from <= size_ m -> 1 <= length -> room delta_ m length ->
  let r := gap_ delta_ from length m in
  let k := if size_ m =? 0 then 0 else Z.max (from + 1 - length) 0 in
  fst r = true /\ intact (snd r) /\ size_ (snd r) = size_ m + length /\
  (forall j, 0 <= j < k -> peek (data_ (snd r)) j = peek (data_ m) j) /\
  (forall j, k <= j < from -> peek (data_ (snd r)) j = None) /\
  (forall j, from + length <= j < size_ m + length ->
     peek (data_ (snd r)) j = peek (data_ m) (j - length)).
Proof.
  intros Hint Hfrom Hlen Hroom. pose proof Hint as (Hall & [Hs0 Hsc] & Hcap).
  unfold room in Hroom. cbv zeta.
  assert (Hadd : size_type.add (size_ m) length = size_ m + length)
    by (apply add_small; unfold size_type.in_range; lia).
  unfold gap_, bind, gets, modify, ret. cbn [fst snd].
  rewrite Hadd.
  match goal with
  | |- context [(if ?b then ?f else ?g) m] =>
      remember ((if b then f else g) m) as g1 eqn:Hg1
  end.
  assert (Hgrow : fst g1 = true /\ intact (snd g1) /\
            size_ (snd g1) = size_ m /\
            size_ m + length <= capacity_ (snd g1) /\
            (forall j, j < size_ m ->
               peek (data_ (snd g1)) j = peek (data_ m) j)).
  { subst g1. destruct (Z.ltb_spec (capacity_ m) (size_ m + length)).
    - destruct (reserve_intact m (size_ m + length) Hint ltac:(lia) Hroom)
        as (Hr1 & Hr2 & Hr3 & Hr4 & Hr5).
      split; [exact Hr1|]. split; [exact Hr2|]. split; [exact Hr3|].
      split; [lia|exact Hr5].
    - cbn [fst snd ret].
      split; [reflexivity|]. split; [exact Hint|]. split; [reflexivity|].
      split; [lia|reflexivity]. }
  clear Hg1. destruct g1 as [success m1]. cbn [fst snd] in *.
  destruct Hgrow as (-> & Hint1 & Hs1 & Hc1 & Hkeep).
  pose proof Hint1 as (Hall1 & _ & Hcap1).
  cbn [size_ set_size_]. rewrite Hs1, Hadd.
  assert (Hint2 : intact (set_size_ (size_ m + length) m1)).
  { unfold intact. cbn. repeat split; auto; lia. }
  destruct (Z.leb_spec (size_ m + length) length) as [Hz|Hz]; cbn [fst snd].
  { (* the container was empty *)
    assert (size_ m = 0) as Hz0 by lia. rewrite Hz0 in *. cbn [Z.eqb].
    repeat split; try apply Hint2; cbn [size_ set_size_]; intros; lia. }
  destruct (Z.eqb_spec (size_ m) 0) as [|_]; [lia|].
  destruct (Z.leb_spec (size_ m + length) from); [lia|]. cbn [fst snd].
  assert (Hsub : size_type.sub (size_ m + length) 1 = size_ m + length - 1)
    by (apply sub_small; unfold size_type.in_range; lia).
  rewrite Hsub.
  set (m2 := set_size_ (size_ m + length) m1).
  assert (Hloop := fun j => peek_gap_loop from length (capacity_ m1)
    (Z.to_nat (size_ m + length)) (size_ m + length - 1) m2 j
    ltac:(lia) Hlen ltac:(lia) ltac:(lia) Hall1 ltac:(lia)).
  pose proof (data_only_gap_loop (Z.to_nat (size_ m + length)) from length
                (size_ m + length - 1) m2) as Hframe.
  unfold frame in Hframe. injection Hframe as Hfs Hfc _ _.
  repeat split.
  - intros j. destruct (Hloop j) as [_ Ha]. rewrite Ha, Hfc. reflexivity.
  - rewrite Hfs. cbn. lia.
  - rewrite Hfs, Hfc. cbn. lia.
  - rewrite Hfc. exact Hcap1.
  - rewrite Hfs. reflexivity.
  - intros j Hj. destruct (Hloop j) as [-> _]. cbn [data_ m2 set_size_].
    split_comparisons; try lia; apply Hkeep; lia.
  - intros j Hj. destruct (Hloop j) as [-> _].
    split_comparisons; try lia; reflexivity.
  - intros j Hj. destruct (Hloop j) as [-> _]. cbn [data_ m2 set_size_].
    split_comparisons; try lia; apply Hkeep; lia.
Qed.


Lemma entries_length m : length (entries m) = Z.to_nat (size_ m).
Proof. unfold entries. now rewrite length_fmap, length_seqZ. Qed.

Lemma entries_lookup m (i : nat) :
  Z.of_nat i < size_ m ->
  entries m !! i = Some (peek (data_ m) (Z.of_nat i)).
Proof.
  intros Hi. unfold entries.
  rewrite list_lookup_fmap, lookup_seqZ_lt by exact Hi. reflexivity.
Qed.

(** A container whose live range is that of [m] with the slots [news]
    spliced in at [pos], and with the slots [k .. pos - 1] emptied. *)
Lemma entries_splice m m' (k pos : Z) (news : list slot) :
  0 <= k <= pos -> pos <= size_ m ->
  size_ m' = size_ m + Z.of_nat (length news) ->
  (forall j, 0 <= j < k -> peek (data_ m') j = peek (data_ m) j) ->
  (forall j, k <= j < pos -> peek (data_ m') j = None) ->
  (forall i, (i < length news)%nat ->
     news !! i = Some (peek (data_ m') (pos + Z.of_nat i))) ->
  (forall j, pos + Z.of_nat (length news) <= j
             < size_ m + Z.of_nat (length news) ->
     peek (data_ m') j = peek (data_ m) (j - Z.of_nat (length news))) ->
  entries m' =
    take (Z.to_nat k) (entries m) ++ replicate (Z.to_nat (pos - k)) None
      ++ news ++ drop (Z.to_nat pos) (entries m).
Proof.
  intros Hk Hpos Hsize Hlow Hmid Hnews Hhigh.
  pose proof (entries_length m) as Hlen.
  assert (Hlt : length (take (Z.to_nat k) (entries m)) = Z.to_nat k)
    by (rewrite length_take; lia).
  apply (list_eq_same_length _ _ (Z.to_nat (size_ m'))).
  - rewrite !length_app, Hlt, length_replicate, length_drop. lia.
  - apply entries_length.
  - intros i x y Hi Hx Hy.
    rewrite entries_lookup in Hx by lia. injection Hx as <-.
    destruct (Z.lt_ge_cases (Z.of_nat i) k) as [Hik|Hik].
    { rewrite lookup_app_l, lookup_take_lt, entries_lookup in Hy by lia.
      injection Hy as <-. apply Hlow. lia. }
    rewrite lookup_app_r in Hy by lia. rewrite Hlt in Hy.
    destruct (Z.lt_ge_cases (Z.of_nat i) pos) as [Hip|Hip].
    { rewrite lookup_app_l in Hy by (rewrite length_replicate; lia).
      rewrite lookup_replicate_2 in Hy by lia.
      injection Hy as <-. apply Hmid. lia. }
    rewrite lookup_app_r in Hy by (rewrite length_replicate; lia).
    rewrite length_replicate in Hy.
    destruct (Z.lt_ge_cases (Z.of_nat i) (pos + Z.of_nat (length news)))
      as [Hin|Hin].
    { rewrite lookup_app_l in Hy by lia.
      rewrite Hnews in Hy by lia. injection Hy as <-.
      f_equal. lia. }
    rewrite lookup_app_r in Hy by lia.
    rewrite lookup_drop, entries_lookup in Hy by lia.
    injection Hy as <-. rewrite Hhigh by lia. f_equal. lia.
Qed.


(** A loop of [construct(data_ + base + k, f k)] for [k = i .. i + n - 1]. *)
Lemma peek_for_construct (f : Z -> slot) base n : forall i m j,
  0 <= i -> i + Z.of_nat n <= size_type.modulus ->
  peek (data_ (snd (for_ n i (fun k => construct (base + k) (f k)) m))) j =
    (if (base + i <=? j) && (j <? base + i + Z.of_nat n)
        && allocated (data_ m) j
     then f (j - base) else peek (data_ m) j) /\
  allocated (data_ (snd (for_ n i (fun k => construct (base + k) (f k)) m))) j
    = allocated (data_ m) j.
Proof.
  induction n as [|n IH]; intros i m j Hi Hn; cbn [for_].
  - cbn [ret snd]. split; [|reflexivity].
    split_comparisons; try reflexivity; lia.
  - unfold bind. cbn [construct modify fst snd].
    destruct n as [|n].
    + cbn [for_ ret snd data_ set_data_].
      rewrite peek_poke, allocated_poke. split; [|reflexivity].
      destruct (Z.eqb_spec j (base + i)) as [->|Hne]; cbn [andb].
      * replace (base + i - base) with i by lia.
        split_comparisons; try lia. now destruct (allocated _ _).
      * split_comparisons; try reflexivity; lia.
    + assert (Hadd : size_type.add i 1 = i + 1)
        by (apply add_small; unfold size_type.in_range; lia).
      rewrite Hadd.
      destruct (IH (i + 1) (set_data_ (poke (data_ m) (base + i) (f i)) m) j
                  ltac:(lia) ltac:(lia)) as [-> ->].
      cbn [data_ set_data_]. rewrite peek_poke, !allocated_poke.
      split; [|reflexivity].
      destruct (Z.eqb_spec j (base + i)) as [->|Hne]; cbn [andb].
      * replace (base + i - base) with i by lia.
        split_comparisons; try lia; now destruct (allocated _ _).
      * split_comparisons; try reflexivity; lia.
Qed.

(** [insert(val, pos)] at a valid position puts [val] between the entries
    before [pos] and the entries from [pos] on. *)
Lemma insert_entries m val pos :
  intact m -> 0 <= pos <= size_ m -> room delta_ m 1 ->
  fst (insert delta_ val pos m) = Iterator pos /\
  entries (snd (insert delta_ val pos m)) =
    take (Z.to_nat pos) (entries m) ++ Some val :: drop (Z.to_nat pos) (entries m).
Proof.
  intros Hint Hpos Hroom.
  destruct (gap_effect pos 1 m Hint Hpos ltac:(lia) Hroom)
    as (Hok & (Hall & Hsc & _) & Hsz & Hlow & _ & Hhigh).
  unfold insert, end_, bind, gets, ret. cbn [fst snd].
  destruct (Z.ltb_spec (size_ m) pos); [lia|].
  rewrite Hok. cbn [fst snd construct modify].
  split; [reflexivity|].
  set (m' := set_data_ _ _).
  assert (Hk : (if size_ m =? 0 then 0 else Z.max (pos + 1 - 1) 0) = pos)
    by (destruct (Z.eqb_spec (size_ m) 0); lia).
  rewrite Hk in Hlow.
  assert (Hpeek : forall j, peek (data_ m') j =
            if j =? pos then Some val
            else peek (data_ (snd (gap_ delta_ pos 1 m))) j).
  { intros j. subst m'. cbn [data_ set_data_]. rewrite peek_poke, Hall.
    split_comparisons; try reflexivity; lia. }
  rewrite (entries_splice m m' pos pos [Some val]); cbn [length];
    try lia.
  - now rewrite Z.sub_diag.
  - subst m'. cbn [size_ set_data_]. lia.
  - intros j Hj. rewrite Hpeek.
    destruct (Z.eqb_spec j pos); [lia|]. apply Hlow. lia.
  - intros [|i] Hi; [|lia]. cbn. rewrite Hpeek.
    now rewrite Z.add_0_r, Z.eqb_refl.
  - intros j Hj. rewrite Hpeek.
    destruct (Z.eqb_spec j pos); [lia|]. apply Hhigh. lia.
Qed.

(** [insert(il, pos)] at a valid position, for a sequence of [length]
    entries: they stand between the entries before [pos] and those from
    [pos] on, but the last [length - 1] entries before [pos] (as many as
    there are) have been destroyed, unless the container was empty. *)
Lemma insert_il_entries m il pos :
  intact m -> 0 <= pos <= size_ m -> il <> [] ->
  room delta_ m (Z.of_nat (length il)) ->
  let k := if size_ m =? 0 then 0
           else Z.max (pos + 1 - Z.of_nat (length il)) 0 in
  fst (insert_il delta_ il pos m) = Iterator pos /\
  entries (snd (insert_il delta_ il pos m)) =
    take (Z.to_nat k) (entries m) ++ replicate (Z.to_nat (pos - k)) None
      ++ (Some <$> il) ++ drop (Z.to_nat pos) (entries m).
Proof.
  intros Hint Hpos Hil Hroom.
  assert (Hlen : 1 <= Z.of_nat (length il)) by (destruct il; [easy|cbn; lia]).
  destruct (gap_effect pos (Z.of_nat (length il)) m Hint Hpos Hlen Hroom)
    as (Hok & (Hall & Hsc & Hcap) & Hsz & Hlow & Hmid & Hhigh).
  cbv zeta. set (k := if size_ m =? 0 then _ else _) in *.
  assert (Hk : 0 <= k <= pos) by (subst k; destruct (size_ m =? 0); lia).
  unfold insert_il, end_, bind, gets, ret. cbn [fst snd].
  destruct (Z.ltb_spec (size_ m) pos); [lia|].
  rewrite Hok. cbn [fst snd]. split; [reflexivity|].
  set (m1 := snd (gap_ delta_ pos (Z.of_nat (length il)) m)) in *.
  assert (Hloop := fun j => peek_for_construct
    (fun i : Z => default None (Some <$> il !! Z.to_nat i))
    pos (length il) 0 m1 j
    ltac:(lia) ltac:(unfold room in Hroom; lia)).
  cbn beta in Hloop.
  pose proof (data_only_for (length il)
                (fun i => construct (pos + i)
                            (default None (Some <$> il !! Z.to_nat i))) 0
                ltac:(intros; apply data_only_construct) m1) as Hframe.
  unfold frame in Hframe. injection Hframe as Hfs _ _ _.
  rewrite (entries_splice m _ k pos (Some <$> il));
    rewrite ?length_fmap; try lia.
  - reflexivity.
  - intros j Hj. destruct (Hloop j) as [Hp _].
    etransitivity; [exact Hp|].
    split_comparisons; try lia; apply Hlow; lia.
  - intros j Hj. destruct (Hloop j) as [Hp _].
    etransitivity; [exact Hp|].
    split_comparisons; try lia; apply Hmid; lia.
  - intros i Hi. destruct (Hloop (pos + Z.of_nat i)) as [Hp _].
    rewrite list_lookup_fmap.
    destruct (lookup_lt_is_Some_2 il i Hi) as [x Hx]. rewrite Hx.
    cbn [fmap option_fmap option_map]. f_equal. symmetry.
    etransitivity; [exact Hp|].
    rewrite Hall.
    replace (Z.to_nat (pos + Z.of_nat i - pos)) with i by lia.
    rewrite Hx. split_comparisons; try lia; reflexivity.
  - intros j Hj. destruct (Hloop j) as [Hp _].
    etransitivity; [exact Hp|].
    split_comparisons; try lia; apply Hhigh; lia.
Qed.


(** The closing loop of [move]: every slot of [i .. i + n - 1] receives its
    right neighbour, and the last slot read is left destroyed. *)
Lemma peek_shift_left cap n : forall i m j,
  0 <= i -> i + Z.of_nat n < size_type.modulus -> i + Z.of_nat n <= cap ->
  (forall k, allocated (data_ m) k = (0 <=? k) && (k <? cap)) ->
  peek (data_ (snd (for_ n i
          (fun i => bind (at_ (size_type.add i 1))
                      (fun v => bind (construct i v)
                                  (fun _ => destroy (i + 1)))) m))) j =
    (if (i <=? j) && (j <? i + Z.of_nat n) then peek (data_ m) (j + 1)
     else if (j =? i + Z.of_nat n) && (0 <? Z.of_nat n) then None
     else peek (data_ m) j) /\
  (forall k, allocated (data_ (snd (for_ n i
          (fun i => bind (at_ (size_type.add i 1))
                      (fun v => bind (construct i v)
                                  (fun _ => destroy (i + 1)))) m))) k
             = (0 <=? k) && (k <? cap)).
Proof.
  set (body := fun i : Z => bind (at_ (size_type.add i 1)) _).
  induction n as [|n IH]; intros i m j Hi Hn Hcap Hall.
  - cbn [for_ ret snd]. split; [|exact Hall].
    split_comparisons; try reflexivity; lia.
  - assert (Hadd : size_type.add i 1 = i + 1)
      by (apply add_small; unfold size_type.in_range; lia).
    change (snd (for_ (S n) i body m))
      with (snd (for_ n (size_type.add i 1) body (snd (body i m)))).
    change (snd (body i m))
      with (set_data_ (poke (poke (data_ m) i
                               (peek (data_ m) (size_type.add i 1)))
                         (i + 1) None) m).
    rewrite Hadd.
    set (m1 := set_data_ _ m).
    assert (Hall1 : forall k, allocated (data_ m1) k = (0 <=? k) && (k <? cap)).
    { intros k. subst m1. cbn [data_ set_data_].
      now rewrite !allocated_poke. }
    assert (Hai : allocated (data_ m) i = true).
    { rewrite Hall. apply andb_true_iff.
      split; [apply Z.leb_le|apply Z.ltb_lt]; lia. }
    assert (Hpeek1 : forall x, peek (data_ m1) x =
              if x =? i + 1 then None
              else if x =? i then peek (data_ m) (i + 1)
              else peek (data_ m) x).
    { intros x. subst m1. cbn [data_ set_data_].
      rewrite !peek_poke, !allocated_poke, Hai, andb_true_r.
      destruct (Z.eqb_spec x (i + 1)) as [->|Hx]; cbn [andb]; [|reflexivity].
      destruct (allocated (data_ m) (i + 1)) eqn:Ha; [reflexivity|].
      destruct (Z.eqb_spec (i + 1) i); [lia|].
      now apply peek_unallocated. }
    destruct (IH (i + 1) m1 j ltac:(lia) ltac:(lia) ltac:(lia) Hall1)
      as [Hp Ha].
    split.
    2:{ intros k.
        destruct (IH (i + 1) m1 k ltac:(lia) ltac:(lia) ltac:(lia) Hall1)
          as [_ Hk]. apply Hk. }
    rewrite Hp, !Hpeek1. clear Hp Ha IH Hpeek1.
    split_comparisons; try reflexivity; try lia; f_equal; lia.
Qed.


(** [move(from, to)] slot by slot, in terms of the buffer [gap_(to, 1)]
    leaves: [data_[from + 1]] is put at [to] and destroyed, and the slots
    after [from] are closed up. *)
Lemma move_effect m from to :
  intact m -> 0 <= from < size_ m -> 0 <= to < size_ m -> room delta_ m 1 ->
  let gapped x := peek (data_ (snd (gap_ delta_ to 1 m))) x in
  let taken x :=
    if x =? from + 1 then None
    else if x =? to then gapped (from + 1) else gapped x in
  size_ (snd (move delta_ from to m)) = size_ m /\
  forall j, 0 <= j < size_ m ->
    peek (data_ (snd (move delta_ from to m))) j =
    if j <=? from then taken j else taken (j + 1).
Proof.
  intros Hint Hfrom Hto Hroom. cbv zeta.
  destruct (gap_effect to 1 m Hint ltac:(lia) ltac:(lia) Hroom)
    as (_ & (Hall & Hsc & Hcap) & Hsz & _).
  unfold room in Hroom.
  assert (Hadd : size_type.add from 1 = from + 1)
    by (apply add_small; unfold size_type.in_range; lia).
  set (m0 := snd (gap_ delta_ to 1 m)) in *.
  set (m1 := set_data_ (poke (poke (data_ m0) to
                                (peek (data_ m0) (size_type.add from 1)))
                          (from + 1) None) m0).
  set (body := fun i : Z =>
    bind (at_ (size_type.add i 1))
      (fun v => bind (construct i v) (fun _ => destroy (i + 1)))).
  set (m2 := snd (for_ (Z.to_nat (size_ m1 - size_type.add from 1))
                   (size_type.add from 1) body m1)).
  assert (Hmove : snd (move delta_ from to m)
                  = set_size_ (size_type.sub (size_ m2) 1) m2).
  { unfold move. unfold bind at 1.
    change (gets size_ m) with (size_ m, m). cbn [fst snd].
    destruct (Z.ltb_spec from (size_ m)); [|lia].
    destruct (Z.ltb_spec to (size_ m)); [|lia]. reflexivity. }
  rewrite Hmove. cbn [size_ data_ set_size_].
  assert (Hall1 : forall k,
            allocated (data_ m1) k = (0 <=? k) && (k <? capacity_ m0)).
  { intros k. subst m1. cbn [data_ set_data_]. now rewrite !allocated_poke. }
  assert (Hs1 : size_ m1 = size_ m + 1) by exact Hsz.
  assert (Hloop := fun j => peek_shift_left (capacity_ m0)
    (Z.to_nat (size_ m1 - size_type.add from 1)) (size_type.add from 1) m1 j
    ltac:(lia) ltac:(lia) ltac:(lia) Hall1).
  fold body in Hloop. fold m2 in Hloop.
  pose proof (data_only_for (Z.to_nat (size_ m1 - size_type.add from 1))
    body (size_type.add from 1)
    ltac:(intros ? ?; reflexivity) m1) as Hframe.
  fold m2 in Hframe. unfold frame in Hframe. injection Hframe as Hfs _ _ _.
  split.
  { rewrite Hfs, Hsz.
    rewrite sub_small by (unfold size_type.in_range; lia). lia. }
  intros j Hj. destruct (Hloop j) as [-> _].
  assert (Hat : allocated (data_ m0) to = true).
  { rewrite Hall. apply andb_true_iff.
    split; [apply Z.leb_le|apply Z.ltb_lt]; lia. }
  assert (Haf : allocated (data_ m0) (from + 1) = true).
  { rewrite Hall. apply andb_true_iff.
    split; [apply Z.leb_le|apply Z.ltb_lt]; lia. }
  assert (Hpeek1 : forall x, peek (data_ m1) x =
            if x =? from + 1 then None
            else if x =? to then peek (data_ m0) (from + 1)
            else peek (data_ m0) x).
  { intros x. subst m1. cbn [data_ set_data_].
    rewrite !peek_poke, !allocated_poke, Hat, Haf, !andb_true_r, Hadd.
    reflexivity. }
  rewrite !Hpeek1, Hadd, Hs1.
  split_comparisons; try reflexivity; lia.
Qed.

(** For [to <= from] the entry at [from] arrives at [to] and the entries
    between move up by one. *)
Lemma move_entries_backward m from to :
  intact m -> 0 <= to <= from -> from < size_ m -> room delta_ m 1 ->
  entries (snd (move delta_ from to m)) =
    take (Z.to_nat to) (entries m) ++ peek (data_ m) from
      :: take (Z.to_nat (from - to)) (drop (Z.to_nat to) (entries m))
      ++ drop (Z.to_nat (from + 1)) (entries m).
Proof.
  intros Hint Hto Hfrom Hroom.
  destruct (move_effect m from to Hint ltac:(lia) ltac:(lia) Hroom)
    as [Hsz Hpeek].
  destruct (gap_effect to 1 m Hint ltac:(lia) ltac:(lia) Hroom)
    as (_ & _ & _ & Hlow & _ & Hhigh).
  assert (Hk : (if size_ m =? 0 then 0 else Z.max (to + 1 - 1) 0) = to)
    by (destruct (Z.eqb_spec (size_ m) 0); lia).
  rewrite Hk in Hlow. clear Hk.
  pose proof (entries_length m) as Hlen.
  assert (Hlt : length (take (Z.to_nat to) (entries m)) = Z.to_nat to)
    by (rewrite length_take; lia).
  assert (Hlm : length (take (Z.to_nat (from - to))
                  (drop (Z.to_nat to) (entries m))) = Z.to_nat (from - to))
    by (rewrite length_take, length_drop; lia).
  apply (list_eq_same_length _ _ (Z.to_nat (size_ m))).
  - rewrite length_app, Hlt. cbn [length].
    rewrite length_app, Hlm, length_drop. lia.
  - rewrite entries_length. lia.
  - intros i x y Hi Hx Hy.
    rewrite entries_lookup in Hx by lia. injection Hx as <-.
    rewrite Hpeek by lia.
    destruct (Z.lt_ge_cases (Z.of_nat i) to) as [Hit|Hit].
    { rewrite lookup_app_l, lookup_take_lt, entries_lookup in Hy by lia.
      injection Hy as <-.
      split_comparisons; try lia. apply Hlow. lia. }
    rewrite lookup_app_r in Hy by lia. rewrite Hlt in Hy.
    destruct (Z.eq_dec (Z.of_nat i) to) as [Heq|Hne].
    { replace (i - Z.to_nat to)%nat with O in Hy by lia.
      cbn in Hy. injection Hy as <-.
      split_comparisons; try lia.
      rewrite Hhigh by lia. f_equal. lia. }
    rewrite lookup_cons_ne_0 in Hy by lia.
    destruct (Z.le_gt_cases (Z.of_nat i) from) as [Hif|Hif].
    { rewrite lookup_app_l, lookup_take_lt, lookup_drop, entries_lookup in Hy
        by lia. injection Hy as <-.
      split_comparisons; try lia.
      rewrite Hhigh by lia. f_equal. lia. }
    rewrite lookup_app_r in Hy by lia. rewrite Hlm in Hy.
    rewrite lookup_drop, entries_lookup in Hy by lia. injection Hy as <-.
    split_comparisons; try lia.
    rewrite Hhigh by lia. f_equal. lia.
Qed.

(** For [from < to] the entry at [from] stays where it was. *)
Lemma move_forward_keeps_from m from to :
  intact m -> 0 <= from < to -> to < size_ m -> room delta_ m 1 ->
  size_ (snd (move delta_ from to m)) = size_ m /\
  peek (data_ (snd (move delta_ from to m))) from = peek (data_ m) from.
Proof.
  intros Hint Hfrom Hto Hroom.
  destruct (move_effect m from to Hint ltac:(lia) ltac:(lia) Hroom)
    as [Hsz Hpeek].
  destruct (gap_effect to 1 m Hint ltac:(lia) ltac:(lia) Hroom)
    as (_ & _ & _ & Hlow & _).
  assert (Hk : (if size_ m =? 0 then 0 else Z.max (to + 1 - 1) 0) = to)
    by (destruct (Z.eqb_spec (size_ m) 0); lia).
  rewrite Hk in Hlow.
  split; [exact Hsz|]. rewrite Hpeek by lia.
  split_comparisons; try lia. apply Hlow. lia.
Qed.

(** The capacity [reserve] asks for, without the wrap-around. *)
Lemma new_capacity_exact n :
  0 <= n -> n + delta_ < size_type.modulus ->
  size_type.mul (size_type.add (size_type.div n delta_) 1) delta_ =
  (n / delta_ + 1) * delta_.
Proof.
  intros H0 H1. unfold size_type.div.
  assert (0 <= n / delta_) by (apply Z.div_pos; lia).
  assert (n / delta_ <= n) by (apply Z.div_le_upper_bound; nia).
  rewrite add_small by (unfold size_type.in_range; lia).
  pose proof (Z.div_mod n delta_ ltac:(lia)).
  pose proof (Z.mod_pos_bound n delta_ delta_pos).
  apply wrap_small. unfold size_type.in_range. nia.
Qed.

(** A container that differs from an intact one in slots only is intact. *)
Lemma intact_same_frame m m' :
  intact m -> frame m' = frame m ->
  (forall j, allocated (data_ m') j = allocated (data_ m) j) -> intact m'.
Proof.
  intros (Hall & Hs & Hc) Hf Ha. unfold frame in Hf.
  injection Hf as Hfs Hfc _ _. unfold intact. rewrite Hfs, Hfc.
  split; [|split; assumption]. intros j. now rewrite Ha, Hall.
Qed.

Lemma allocated_inside m j :
  intact m -> 0 <= j < capacity_ m -> allocated (data_ m) j = true.
Proof.
  intros (Hall & _) Hj. rewrite Hall. apply andb_true_iff.
  split; [apply Z.leb_le|apply Z.ltb_lt]; lia.
Qed.

(** The closing loop of [erase]: every slot of [i .. i + n - 1] is destroyed
    and constructed anew from its right neighbour, which is left as it is. *)
Lemma peek_erase_loop cap n : forall i m j,
  0 <= i -> i + Z.of_nat n < size_type.modulus -> i + Z.of_nat n <= cap ->
  (forall k, allocated (data_ m) k = (0 <=? k) && (k <? cap)) ->
  peek (data_ (snd (for_ n i
          (fun i => bind (destroy i)
                      (fun _ => bind (at_ (size_type.add i 1))
                                  (fun v => construct i v))) m))) j =
    (if (i <=? j) && (j <? i + Z.of_nat n) then peek (data_ m) (j + 1)
     else peek (data_ m) j) /\
  (forall k, allocated (data_ (snd (for_ n i
          (fun i => bind (destroy i)
                      (fun _ => bind (at_ (size_type.add i 1))
                                  (fun v => construct i v))) m))) k
             = (0 <=? k) && (k <? cap)).
Proof.
  set (body := fun i : Z => bind (destroy i) _).
  induction n as [|n IH]; intros i m j Hi Hn Hcap Hall.
  - cbn [for_ ret snd]. split; [|exact Hall].
    split_comparisons; try reflexivity; lia.
  - assert (Hadd : size_type.add i 1 = i + 1)
      by (apply add_small; unfold size_type.in_range; lia).
    change (snd (for_ (S n) i body m))
      with (snd (for_ n (size_type.add i 1) body (snd (body i m)))).
    change (snd (body i m))
      with (set_data_ (poke (poke (data_ m) i None) i
                         (peek (poke (data_ m) i None) (size_type.add i 1)))
              m).
    rewrite Hadd.
    set (m1 := set_data_ _ m).
    assert (Hall1 : forall k, allocated (data_ m1) k = (0 <=? k) && (k <? cap)).
    { intros k. subst m1. cbn [data_ set_data_].
      now rewrite !allocated_poke. }
    assert (Hai : allocated (data_ m) i = true).
    { rewrite Hall. apply andb_true_iff.
      split; [apply Z.leb_le|apply Z.ltb_lt]; lia. }
    assert (Hpeek1 : forall x, peek (data_ m1) x =
              if x =? i then peek (data_ m) (i + 1) else peek (data_ m) x).
    { intros x. subst m1. cbn [data_ set_data_].
      rewrite !peek_poke, !allocated_poke, Hai, !andb_true_r.
      destruct (Z.eqb_spec (i + 1) i); [lia|].
      now destruct (Z.eqb_spec x i). }
    destruct (IH (i + 1) m1 j ltac:(lia) ltac:(lia) ltac:(lia) Hall1)
      as [Hp Ha].
    split.
    2:{ intros k.
        destruct (IH (i + 1) m1 k ltac:(lia) ltac:(lia) ltac:(lia) Hall1)
          as [_ Hk]. apply Hk. }
    rewrite Hp, !Hpeek1. clear Hp Ha IH Hpeek1.
    split_comparisons; try reflexivity; try lia; f_equal; lia.
Qed.

(** [erase(pos)] at a live position closes the gap: the container stays
    intact with one entry less, and its entries are the old ones without the
    one at [pos]. *)
Lemma erase_effect m pos :
  intact m -> 0 <= pos < size_ m ->
  intact (snd (erase pos m)) /\
  size_ (snd (erase pos m)) = size_ m - 1 /\
  capacity_ (snd (erase pos m)) = capacity_ m /\
  entries (snd (erase pos m)) = delete (Z.to_nat pos) (entries m).
Proof.
  intros Hint Hpos. pose proof Hint as (Hall & [Hs0 Hsc] & Hcap).
  set (body := fun i : Z =>
    bind (destroy i) (fun _ => bind (at_ (size_type.add i 1))
                                 (fun v => construct i v))).
  assert (Hsub : size_type.sub (size_ m) 1 = size_ m - 1)
    by (apply sub_small; unfold size_type.in_range; lia).
  set (m1 := set_size_ (size_ m - 1) m).
  assert (Herase : snd (erase pos m)
            = snd (for_ (Z.to_nat (size_ m - 1 - pos)) pos body m1)).
  { unfold erase. unfold bind at 1.
    change (gets size_ m) with (size_ m, m). cbn [fst snd].
    destruct (Z.ltb_spec 0 (size_ m)); [|lia].
    destruct (Z.ltb_spec pos (size_ m)); [|lia]. cbn [andb].
    unfold bind at 1. unfold modify at 1. cbn [fst snd].
    unfold bind at 1. unfold gets at 1. cbn [fst snd size_ set_size_].
    rewrite Hsub. reflexivity. }
  rewrite Herase.
  assert (Hloop := fun j => peek_erase_loop (capacity_ m)
    (Z.to_nat (size_ m - 1 - pos)) pos m1 j
    ltac:(lia) ltac:(lia) ltac:(lia) Hall).
  fold body in Hloop.
  pose proof (data_only_for (Z.to_nat (size_ m - 1 - pos)) body pos
    ltac:(intros ? ?; reflexivity) m1) as Hframe.
  set (m2 := snd (for_ _ pos body m1)) in *.
  unfold frame in Hframe. injection Hframe as Hfs Hfc Hfm Hfk.
  cbn [size_ capacity_ m1 set_size_] in Hfs, Hfc.
  split; [|split; [exact Hfs|split; [exact Hfc|]]].
  { unfold intact. rewrite Hfs, Hfc. split; [|lia].
    intros j. destruct (Hloop j) as [_ Ha]. apply Ha. }
  pose proof (entries_length m) as Hlen.
  apply (list_eq_same_length _ _ (Z.to_nat (size_ m - 1))).
  - rewrite length_delete; [lia|].
    apply lookup_lt_is_Some_2. lia.
  - rewrite entries_length. lia.
  - intros i x y Hi Hx Hy.
    rewrite entries_lookup in Hx by lia. injection Hx as <-.
    destruct (Hloop (Z.of_nat i)) as [-> _]. cbn [data_ m1 set_size_].
    destruct (Z.lt_ge_cases (Z.of_nat i) pos).
    + rewrite list_lookup_delete_lt, entries_lookup in Hy by lia.
      injection Hy as <-. split_comparisons; try lia; reflexivity.
    + rewrite list_lookup_delete_ge, entries_lookup in Hy by lia.
      injection Hy as <-. split_comparisons; try lia; f_equal; lia.
Qed.

Lemma erase_out_of_range m pos : size_ m <= pos -> erase pos m = (tt, m).
Proof.
  intros Hpos. unfold erase. unfold bind at 1.
  change (gets size_ m) with (size_ m, m). cbn [fst snd].
  destruct (Z.ltb_spec pos (size_ m)); [lia|].
  now rewrite andb_false_r.
Qed.


(** [insert(val, pos)] at a valid position leaves an intact container with
    one entry more, and [val] in slot [pos]. *)
Lemma insert_effect m val pos :
  intact m -> 0 <= pos <= size_ m -> room delta_ m 1 ->
  intact (snd (insert delta_ val pos m)) /\
  size_ (snd (insert delta_ val pos m)) = size_ m + 1 /\
  peek (data_ (snd (insert delta_ val pos m))) pos = Some val.
Proof.
  intros Hint Hpos Hroom.
  destruct (gap_effect pos 1 m Hint Hpos ltac:(lia) Hroom)
    as (Hok & Hint1 & Hsz & _).
  unfold insert, end_, bind, gets, ret. cbn [fst snd].
  destruct (Z.ltb_spec (size_ m) pos); [lia|].
  rewrite Hok. cbn [fst snd construct modify].
  set (m1 := snd (gap_ delta_ pos 1 m)) in *.
  pose proof Hint1 as (Hall1 & Hsc1 & Hcap1).
  split; [|split; [exact Hsz|]].
  - apply (intact_same_frame m1); [exact Hint1|reflexivity|].
    intros j. cbn [data_ set_data_]. apply allocated_poke.
  - cbn [data_ set_data_]. rewrite peek_poke, Z.eqb_refl.
    rewrite (allocated_inside m1 pos Hint1) by lia. reflexivity.
Qed.

(** [clear()] destroys every slot of the live range. *)
Lemma peek_clear m j :
  size_type.in_range (size_ m) ->
  peek (data_ (snd (clear m))) j =
    if (0 <=? j) && (j <? size_ m) then None else peek (data_ m) j.
Proof.
  intros [H0 H1].
  assert (Hloop := fun k => peek_for_construct (fun _ : Z => None) 0
                     (Z.to_nat (size_ m)) 0 m k ltac:(lia) ltac:(lia)).
  unfold clear, bind, gets, modify. cbn [fst snd data_ set_size_].
  destruct (Hloop j) as [Hp _]. etransitivity; [exact Hp|].
  rewrite Z2Nat.id by lia.
  destruct (allocated (data_ m) j) eqn:Ha; split_comparisons;
    try reflexivity; try lia.
  now apply peek_unallocated.
Qed.


(** Two containers with the same size and the same slots in the live range
    have the same entries. *)
Lemma entries_ext m m' :
  size_ m' = size_ m ->
  (forall j, 0 <= j < size_ m -> peek (data_ m') j = peek (data_ m) j) ->
  entries m' = entries m.
Proof.
  intros Hs Hp.
  apply (list_eq_same_length _ _ (Z.to_nat (size_ m))).
  - apply entries_length.
  - rewrite entries_length. lia.
  - intros i x y Hi Hx Hy.
    rewrite entries_lookup in Hx by lia. rewrite entries_lookup in Hy by lia.
    injection Hx as <-. injection Hy as <-. apply Hp. lia.
Qed.

(** [swap(from, to)] slot by slot. *)
Lemma swap_pos_effect m from to :
  intact m -> 0 <= from < size_ m -> 0 <= to < size_ m ->
  intact (snd (swap_pos from to m)) /\
  frame (snd (swap_pos from to m)) = frame m /\
  forall j, peek (data_ (snd (swap_pos from to m))) j =
    if j =? from then peek (data_ m) to
    else if j =? to then peek (data_ m) from
    else peek (data_ m) j.
Proof.
  intros Hint Hfrom Hto. pose proof Hint as (Hall & Hsc & Hcap).
  assert (Haf := allocated_inside m from Hint ltac:(lia)).
  assert (Hat := allocated_inside m to Hint ltac:(lia)).
  unfold swap_pos, at_, construct, destroy, bind, gets, modify, ret.
  cbn [fst snd].
  destruct (Z.ltb_spec from (size_ m)); [|lia].
  destruct (Z.ltb_spec to (size_ m)); [|lia]. cbn [andb fst snd].
  cbn [data_ set_data_].
  split; [|split; [reflexivity|]].
  - apply (intact_same_frame m); [exact Hint|reflexivity|].
    intros j. cbn [data_ set_data_]. now rewrite !allocated_poke.
  - intros j. cbn [data_ set_data_].
    rewrite !peek_poke, !allocated_poke, Haf, Hat, !andb_true_r.
    destruct (Z.eqb_spec j from) as [->|Hjf]; [reflexivity|].
    destruct (Z.eqb_spec j to) as [->|Hjt]; [|reflexivity].
    destruct (Z.eqb_spec from to); [lia|reflexivity].
Qed.

(** [set_value(v, pos)] slot by slot. *)
Lemma set_value_effect m new_value pos :
  intact m -> 0 <= pos < capacity_ m ->
  intact (snd (set_value new_value pos m)) /\
  frame (snd (set_value new_value pos m)) = frame m /\
  forall j, peek (data_ (snd (set_value new_value pos m))) j =
    if j =? pos
    then (fun e => (fst e, new_value)) <$> peek (data_ m) pos
    else peek (data_ m) j.
Proof.
  intros Hint Hpos.
  assert (Hap := allocated_inside m pos Hint Hpos).
  unfold set_value, at_, bind, gets. cbn [fst snd].
  destruct (peek (data_ m) pos) as [[k old]|] eqn:Hpeek.
  - split; [|split; [reflexivity|]].
    + apply (intact_same_frame m); [exact Hint|reflexivity|].
      intros j. cbn [construct modify snd data_ set_data_].
      apply allocated_poke.
    + intros j. cbn [construct modify snd data_ set_data_].
      rewrite peek_poke, Hap, andb_true_r.
      now destruct (Z.eqb_spec j pos).
  - split; [exact Hint|split; [reflexivity|]].
    intros j. cbn [ret snd].
    destruct (Z.eqb_spec j pos) as [->|]; [|reflexivity].
    now rewrite Hpeek.
Qed.

(** A [resize] that is accepted keeps the live slots. *)
Lemma resize_effect m n :
  intact m -> size_ m <= n < size_type.modulus ->
  fst (resize n m) = true /\
  intact (snd (resize n m)) /\
  size_ (snd (resize n m)) = size_ m /\
  capacity_ (snd (resize n m)) = n /\
  entries (snd (resize n m)) = entries m.
Proof.
  intros (Hall & [Hs0 Hsc] & Hcap) Hn.
  unfold resize, bind, gets, modify, ret. cbn [fst snd].
  destruct (Z.ltb_spec n (size_ m)); [lia|]. cbn [fst snd].
  assert (Hloop := fun j => peek_resize_loop (Z.to_nat (size_ m)) 0
                     (allocate n) (data_ m) j ltac:(lia) ltac:(lia)).
  split; [reflexivity|].
  split; [|split; [reflexivity|split; [reflexivity|]]].
  - unfold intact, set_capacity_, set_data_. cbn [size_ capacity_ data_].
    split; [|lia]. intros j. destruct (Hloop j) as [_ ->].
    apply allocated_allocate.
  - apply entries_ext; [reflexivity|].
    intros j Hj. unfold set_capacity_, set_data_. cbn [data_].
    destruct (Hloop j) as [-> _].
    rewrite allocated_allocate. split_comparisons; try lia. reflexivity.
Qed.

Lemma resize_refuses m n :
  n < size_ m -> resize n m = (false, m).
Proof.
  intros Hn. unfold resize, bind, gets, ret. cbn [fst snd].
  destruct (Z.ltb_spec n (size_ m)); [reflexivity|lia].
Qed.


(** The loop of the initializer-list constructor writes the elements in
    order from slot [counter] on. *)
Lemma peek_il_loop il : forall counter m j,
  0 <= counter ->
  counter + Z.of_nat (length il) <= size_type.modulus ->
  peek (data_ (snd (il_loop il counter m))) j =
    (if (counter <=? j) && (j <? counter + Z.of_nat (length il))
        && allocated (data_ m) j
     then default None (Some <$> il !! Z.to_nat (j - counter))
     else peek (data_ m) j) /\
  allocated (data_ (snd (il_loop il counter m))) j = allocated (data_ m) j.
Proof.
  induction il as [|elem il IH]; intros counter m j Hc Hlen.
  - cbn [il_loop ret snd length]. split; [|reflexivity].
    split_comparisons; try reflexivity; lia.
  - cbn [il_loop length] in *. unfold bind, construct, modify, gets.
    cbn [fst snd].
    destruct il as [|elem' il]; cbn [length] in *.
    + cbn [il_loop ret snd data_ set_size_ set_data_].
      rewrite peek_poke, allocated_poke. split; [|reflexivity].
      destruct (Z.eqb_spec j counter) as [->|Hne]; cbn [andb].
      * replace (Z.to_nat (counter - counter)) with O by lia.
        split_comparisons; try lia. cbn. now destruct (allocated _ _).
      * split_comparisons; try reflexivity; lia.
    + assert (Hadd : size_type.add counter 1 = counter + 1).
      { apply add_small. unfold size_type.in_range.
        cbn [length] in Hlen. lia. }
      rewrite Hadd.
      match goal with
      | |- context [il_loop ?l ?c ?st] =>
          destruct (IH c st j ltac:(lia) ltac:(cbn [length] in *; lia))
            as [-> ->]
      end.
      cbn [data_ set_size_ set_data_]. rewrite peek_poke, !allocated_poke.
      split; [|reflexivity].
      destruct (Z.eqb_spec j counter) as [->|Hne]; cbn [andb].
      * replace (Z.to_nat (counter - counter)) with O by lia.
        split_comparisons; try lia; cbn; now destruct (allocated _ _).
      * split_comparisons; try reflexivity; try lia.
        replace (Z.to_nat (j - counter))
          with (S (Z.to_nat (j - (counter + 1)))) by lia.
        reflexivity.
Qed.

(** The initializer-list constructor: the container is intact, holds the
    elements in order, and has the chunk-rounded capacity. *)
Lemma vectormap_il_effect (il : list (@value_type key_type mapped_type)) :
  Z.of_nat (length il) + delta_ < size_type.modulus ->
  intact (vectormap_il delta_ il) /\
  size_ (vectormap_il delta_ il) = Z.of_nat (length il) /\
  capacity_ (vectormap_il delta_ il) =
    (if delta_ <? Z.of_nat (length il)
     then (Z.of_nat (length il) / delta_ + 1) * delta_ else delta_) /\
  entries (vectormap_il delta_ il) = Some <$> il.
Proof.
  intros Hlen. unfold vectormap_il.
  set (capacity1 := if delta_ <? _ then _ else _).
  assert (Hcap : capacity1 =
            (if delta_ <? Z.of_nat (length il)
             then (Z.of_nat (length il) / delta_ + 1) * delta_ else delta_)
            /\ Z.of_nat (length il) <= capacity1 < size_type.modulus).
  { subst capacity1. destruct (Z.ltb_spec delta_ (Z.of_nat (length il))).
    - pose proof (new_capacity_bounds delta_ delta_pos (Z.of_nat (length il))
        ltac:(lia) ltac:(lia)) as Hb.
      rewrite new_capacity_exact in * by lia.
      split; [reflexivity|lia].
    - split; [reflexivity|lia]. }
  destruct Hcap as [Hcapeq Hcapb].
  set (m0 := Vectormap 0 capacity1 _ _ _).
  pose proof (frame_il_loop il 0 m0 ltac:(cbn [size_ m0]; lia)
                ltac:(cbn [size_ m0]; lia)) as Hf.
  unfold frame in Hf. injection Hf as Hs Hc _ _.
  cbn [size_ capacity_ m0] in Hs, Hc.
  assert (Hloop := fun j => peek_il_loop il 0 m0 j ltac:(lia) ltac:(lia)).
  assert (Hall0 : forall j, allocated (data_ m0) j = (0 <=? j) && (j <? capacity1))
    by (intros j; apply allocated_allocate).
  split; [|split; [lia|split; [congruence|]]].
  - unfold intact. rewrite Hs, Hc. split; [|lia].
    intros j. destruct (Hloop j) as [_ ->]. apply Hall0.
  - apply (list_eq_same_length _ _ (length il)).
    + apply length_fmap.
    + rewrite entries_length. lia.
    + intros i x y Hi Hx Hy.
      rewrite entries_lookup in Hx by lia. injection Hx as <-.
      destruct (Hloop (Z.of_nat i)) as [-> _].
      rewrite list_lookup_fmap in Hy.
      rewrite Hall0, Z.sub_0_r, Nat2Z.id.
      destruct (il !! i) as [e|]; [|discriminate Hy].
      cbn [fmap option_fmap option_map] in Hy. injection Hy as <-.
      split_comparisons; try lia. reflexivity.
Qed.

(** The copy constructor: the copy is intact and has the size, the capacity
    and the entries of the original. *)
Lemma vectormap_copy_effect (o : @vectormap key_type mapped_type) :
  intact o ->
  intact (vectormap_copy o) /\
  size_ (vectormap_copy o) = size_ o /\
  capacity_ (vectormap_copy o) = capacity_ o /\
  entries (vectormap_copy o) = entries o.
Proof.
  intros (Hall & [Hs0 Hsc] & Hcap). unfold vectormap_copy.
  set (m0 := Vectormap (size_ o) (capacity_ o) _ _ _).
  assert (Hloop := fun j => peek_for_construct (peek (data_ o)) 0
                     (Z.to_nat (size_ o)) 0 m0 j ltac:(lia) ltac:(lia)).
  pose proof (data_only_copy_from (data_ o) 0 (Z.to_nat (size_ o)) m0) as Hf.
  unfold frame in Hf. injection Hf as Hs Hc _ _.
  cbn [size_ capacity_ m0] in Hs, Hc.
  assert (Hall0 : forall j, allocated (data_ m0) j
                            = (0 <=? j) && (j <? capacity_ o))
    by (intros j; apply allocated_allocate).
  split; [|split; [exact Hs|split; [exact Hc|]]].
  - unfold intact. rewrite Hs, Hc. split; [|lia].
    intros j. destruct (Hloop j) as [_ Ha].
    etransitivity; [exact Ha|apply Hall0].
  - apply entries_ext; [exact Hs|].
    intros j Hj. destruct (Hloop j) as [Hp _].
    etransitivity; [exact Hp|].
    rewrite Hall0, Z.sub_0_r. split_comparisons; try lia. reflexivity.
Qed.


(** [erase(pos)] for every position: one past the end erases nothing, which
    is what [delete] does on a list. *)
Lemma erase_entries m pos :
  intact m -> 0 <= pos ->
  intact (snd (erase pos m)) /\
  capacity_ (snd (erase pos m)) = capacity_ m /\
  entries (snd (erase pos m)) = delete (Z.to_nat pos) (entries m).
Proof.
  intros Hint Hpos. destruct (Z.lt_ge_cases pos (size_ m)) as [Hin|Hout].
  - destruct (erase_effect m pos Hint ltac:(lia)) as (H1 & _ & H2 & H3).
    auto.
  - rewrite erase_out_of_range by lia. cbn [snd].
    split; [exact Hint|split; [reflexivity|]].
    rewrite delete_take_drop, take_ge, drop_ge, app_nil_r; try reflexivity;
      rewrite entries_length; lia.
Qed.

(** A sequence of [erase] calls, each on what the one before has left. *)
Lemma for_each_erase {A} (f : A -> Z) (l : list A) : forall m,
  intact m -> Forall (fun x => 0 <= f x) l ->
  intact (snd (for_each l (fun x => erase (f x)) m)) /\
  capacity_ (snd (for_each l (fun x => erase (f x)) m)) = capacity_ m /\
  entries (snd (for_each l (fun x => erase (f x)) m)) =
    foldl (fun es x => delete (Z.to_nat (f x)) es) (entries m) l.
Proof.
  induction l as [|x l IH]; intros m Hint Hall.
  - cbn [for_each ret snd foldl]. auto.
  - apply Forall_cons in Hall as [Hx Hl].
    destruct (erase_entries m (f x) Hint Hx) as (Hint1 & Hc1 & He1).
    change (snd (for_each (x :: l) (fun x => erase (f x)) m))
      with (snd (for_each l (fun x => erase (f x)) (snd (erase (f x) m)))).
    cbn [foldl].
    destruct (IH (snd (erase (f x) m)) Hint1 Hl) as (Hint2 & Hc2 & He2).
    split; [exact Hint2|split; [congruence|]].
    now rewrite He2, He1.
Qed.

(** Deleting behind a kept head leaves the head. *)
Lemma foldr_delete_shift {A} (x : A) (ps : list nat) (l : list A) :
  foldr (fun (i : nat) es => delete (S i) es) (x :: l) ps =
  x :: foldr (fun (i : nat) es => delete i es) l ps.
Proof.
  induction ps as [|i ps IH]; [reflexivity|].
  cbn [foldr]. now rewrite IH.
Qed.

(** Deleting the positions that satisfy [q], last one first, is filtering
    by the negation of [q]. *)
Lemma foldr_delete_filter {A} (q : A -> bool) (l : list A) :
  foldr (fun (i : nat) es => delete i es) l
    (List.filter (fun i => from_option q false (l !! i)) (seq 0 (length l))) =
  List.filter (fun x => negb (q x)) l.
Proof.
  induction l as [|x l IH]; [reflexivity|].
  cbn [length seq List.filter lookup list_lookup from_option].
  rewrite <- seq_shift, filter_map_swap.
  cbn [lookup list_lookup].
  destruct (q x) eqn:Hq; cbn [negb foldr].
  - rewrite foldr_fmap, foldr_delete_shift. cbn [delete list_delete].
    exact IH.
  - rewrite foldr_fmap, foldr_delete_shift. f_equal. exact IH.
Qed.

Lemma foldl_rev_foldr {A B} (f : A -> B -> A) (a : A) (l : list B) :
  foldl f a (rev l) = foldr (fun x acc => f acc x) a l.
Proof.
  induction l as [|x l IH]; [reflexivity|].
  cbn [rev foldr]. now rewrite foldl_snoc, IH.
Qed.

(** [key_at] reads the slot that [entries] lists. *)
Lemma key_at_holds_key p i key : key_at p i key = holds_key key (peek p i).
Proof. reflexivity. Qed.

Lemma seqZ_of_seq (n : Z) : seqZ 0 n = map Z.of_nat (seq 0 (Z.to_nat n)).
Proof.
  unfold seqZ. apply map_ext. intros i. lia.
Qed.

Lemma entries_of_seq m :
  entries m = map (fun i => peek (data_ m) (Z.of_nat i))
                (seq 0 (Z.to_nat (size_ m))).
Proof. unfold entries. now rewrite seqZ_of_seq, map_map. Qed.

(** The matches of the exhaustive scan, as positions in [entries]. *)
Lemma all_matches_entries m key :
  all_matches m key =
  map (fun i => (Iterator (Z.of_nat i), Z.of_nat i))
    (List.filter (fun i => from_option (holds_key key) false (entries m !! i))
       (seq 0 (length (entries m)))).
Proof.
  unfold all_matches. rewrite filter_map_swap, map_map, entries_length.
  f_equal. apply filter_ext_in. intros i Hi%in_seq.
  rewrite entries_lookup by lia. reflexivity.
Qed.

(** [erase_all(key)] keeps exactly the entries whose key differs from
    [key], in their order. *)
Lemma erase_all_entries m key :
  intact m ->
  intact (snd (erase_all key m)) /\
  capacity_ (snd (erase_all key m)) = capacity_ m /\
  entries (snd (erase_all key m)) =
    List.filter (fun s => negb (holds_key key s)) (entries m).
Proof.
  intros Hint. pose proof Hint as (_ & [Hs0 Hsc] & Hcap).
  unfold erase_all. unfold bind at 1 2 3.
  assert (Hrange : size_type.in_range (size_ m))
    by (unfold size_type.in_range; lia).
  rewrite (get_all_matches m key Hrange).
  change (snd (get_all key m)) with m.
  destruct (for_each_erase snd (rev (all_matches m key)) m Hint)
    as (Hint' & Hc' & He').
  { apply List.Forall_forall. intros x Hx%in_rev.
    unfold all_matches in Hx. apply in_map_iff in Hx as (i & <- & Hi).
    apply filter_In in Hi as [Hi _]. apply in_map_iff in Hi as (n & <- & _).
    cbn [snd]. lia. }
  split; [exact Hint'|split; [exact Hc'|]].
  etransitivity; [exact He'|].
  rewrite <- (foldr_delete_filter (holds_key key)).
  rewrite all_matches_entries.
  rewrite foldl_rev_foldr.
  change (map ?f ?l) with (f <$> l). rewrite foldr_fmap. cbn [snd].
  apply foldr_ext; [|reflexivity|reflexivity].
  intros i es. now rewrite Nat2Z.id.
Qed.

(** ** The lookups on the list of entries *)

(** [get] with a positive [number]: at most [number] matches from rank
    [ordinal] on. *)
Lemma get_window m key ordinal number :
  size_type.in_range (size_ m) -> 1 <= number < size_type.modulus ->
  fst (get key ordinal number m) =
    take (Z.to_nat number)
      (drop (Z.to_nat (ordinal - 1)) (all_matches m key)).
Proof.
  intros Hr Hn. rewrite get_spec, get_all_matches by assumption.
  rewrite sub_small by (unfold size_type.in_range; lia).
  f_equal. lia.
Qed.

Lemma get_all_pos_filter m key :
  size_type.in_range (size_ m) ->
  fst (get_all_pos key m) =
    List.filter (fun i => key_at (data_ m) i key)
      (map Z.of_nat (seq 0 (Z.to_nat (size_ m)))).
Proof.
  intros Hr. unfold get_all_pos, bind, ret. cbn [fst].
  rewrite get_all_matches by assumption. unfold all_matches.
  rewrite map_map. cbn [snd]. apply map_id.
Qed.

Lemma filter_positions_sorted (f : Z -> bool) n : forall s,
  StronglySorted Z.lt (List.filter f (map Z.of_nat (seq s n))).
Proof.
  induction n as [|n IH]; intros s; [constructor|].
  cbn [seq map List.filter]. destruct (f (Z.of_nat s)); [|apply IH].
  constructor; [apply IH|].
  apply List.Forall_forall. intros x Hx.
  apply filter_In in Hx as [Hx _].
  apply in_map_iff in Hx as (i & <- & Hi%in_seq). lia.
Qed.

(** [get_all_pos(key)]: exactly the live positions that hold [key], in
    ascending order. *)
Lemma get_all_pos_spec m key :
  size_type.in_range (size_ m) ->
  (forall i, In i (fst (get_all_pos key m)) <->
             0 <= i < size_ m /\ holds_key key (peek (data_ m) i) = true) /\
  StronglySorted Z.lt (fst (get_all_pos key m)).
Proof.
  intros Hr. rewrite get_all_pos_filter by assumption.
  split; [|apply filter_positions_sorted].
  intros i. rewrite filter_In, in_map_iff, key_at_holds_key.
  destruct Hr as [H0 H1]. split.
  - intros [(n & <- & Hn%in_seq) Hk]. split; [lia|exact Hk].
  - intros [Hi Hk]. split; [|exact Hk].
    exists (Z.to_nat i). split; [lia|]. apply in_seq. lia.
Qed.

Lemma values_of_positions p key (l : list nat) :
  concat (map (fun e : iterator_pos => second_of p (fst e))
            (map (fun i => (Iterator i, i))
               (List.filter (fun i => key_at p i key) (map Z.of_nat l)))) =
  omap (fmap snd)
    (List.filter (holds_key key) (map (fun i => peek p (Z.of_nat i)) l)).
Proof.
  induction l as [|i l IH]; [reflexivity|].
  cbn [map List.filter]. rewrite key_at_holds_key.
  destruct (peek p (Z.of_nat i)) as [[k v]|] eqn:Hpeek; cbn [holds_key].
  - destruct (key_equal k key); [|exact IH].
    cbn [map concat fst]. unfold second_of at 1. cbn [ptr_].
    rewrite Hpeek. cbn [app omap list_omap fmap option_fmap option_map snd].
    f_equal. exact IH.
  - exact IH.
Qed.

(** [get_all_values(key)]: the mapped values of the entries that hold
    [key], in the order of the container. *)
Lemma get_all_values_spec m key :
  size_type.in_range (size_ m) ->
  fst (get_all_values key m) =
    omap (fmap snd) (List.filter (holds_key key) (entries m)).
Proof.
  intros Hr. unfold get_all_values, bind, gets. cbn [fst snd].
  pose proof (get_all_matches m key Hr) as Hall. cbn [get_all gets fst] in Hall.
  unfold get_all, gets. cbn [fst snd]. rewrite Hall.
  unfold all_matches. rewrite values_of_positions, entries_of_seq.
  reflexivity.
Qed.

Lemma concat_singletons_take {A B} (g : A -> list B) (l : list A) :
  Forall (fun e => length (g e) = 1%nat) l ->
  forall n, concat (map g (take n l)) = take n (concat (map g l)).
Proof.
  induction 1 as [|e l He _ IH]; intros n.
  - rewrite take_nil. cbn [map concat]. now rewrite take_nil.
  - destruct n as [|n]; [reflexivity|].
    cbn [take firstn map concat].
    destruct (g e) as [|b [|? ?]]; try discriminate He.
    cbn [app firstn]. f_equal. apply IH.
Qed.

Lemma concat_singletons_drop {A B} (g : A -> list B) (l : list A) :
  Forall (fun e => length (g e) = 1%nat) l ->
  forall n, concat (map g (drop n l)) = drop n (concat (map g l)).
Proof.
  induction 1 as [|e l He _ IH]; intros n.
  - rewrite drop_nil. cbn [map concat]. now rewrite drop_nil.
  - destruct n as [|n]; [reflexivity|].
    cbn [drop skipn map concat].
    destruct (g e) as [|b [|? ?]]; try discriminate He.
    cbn [app skipn]. apply IH.
Qed.

Lemma matches_have_values m key :
  Forall (fun e : iterator_pos => length (second_of (data_ m) (fst e)) = 1%nat)
    (all_matches m key).
Proof.
  apply List.Forall_forall. intros e He. unfold all_matches in He.
  apply in_map_iff in He as (i & <- & Hi). apply filter_In in Hi as [_ Hk].
  unfold second_of. cbn [fst ptr_]. unfold key_at in Hk.
  destruct (peek (data_ m) i) as [[k v]|]; [reflexivity|discriminate Hk].
Qed.

(** [get_value(key, ordinal, number)] with a positive [number]: the window
    of [get_all_values(key)] that [get] selects. *)
Lemma get_value_key_window m key ordinal number :
  size_type.in_range (size_ m) -> 1 <= number < size_type.modulus ->
  fst (get_value_key key ordinal number m) =
    take (Z.to_nat number)
      (drop (Z.to_nat (ordinal - 1)) (fst (get_all_values key m))).
Proof.
  intros Hr Hn.
  pose proof (get_window m key ordinal number Hr Hn) as Hget.
  pose proof (get_all_matches m key Hr) as Hall.
  unfold get_value_key, get_all_values, bind, gets. cbn [fst snd].
  unfold get, get_all, gets in *. cbn [fst snd] in *.
  rewrite Hget, Hall.
  pose proof (matches_have_values m key) as Hv.
  rewrite concat_singletons_take.
  - now rewrite concat_singletons_drop.
  - apply Forall_drop, Hv.
Qed.

(** ** More of the member functions on the list of entries *)

(** [insert] grows the buffer only when it is full, to the next multiple
    of [delta_] above the new size. *)
Lemma insert_capacity m val pos :
  intact m -> 0 <= pos <= size_ m -> room delta_ m 1 ->
  capacity_ (snd (insert delta_ val pos m)) =
    if size_ m <? capacity_ m then capacity_ m
    else ((size_ m + 1) / delta_ + 1) * delta_.
Proof.
  intros Hint Hpos Hroom. pose proof Hint as (_ & [Hs0 Hsc] & Hcap).
  destruct (gap_effect pos 1 m Hint Hpos ltac:(lia) Hroom)
    as (Hok & _).
  pose proof (frame_gap delta_ pos 1 m) as Hf.
  unfold frame in Hf. injection Hf as _ Hc _ _.
  unfold insert, end_, bind, gets, ret. cbn [fst snd].
  destruct (Z.ltb_spec (size_ m) pos); [lia|].
  rewrite Hok. cbn [fst snd construct modify capacity_ set_data_].
  rewrite Hc. unfold gap_capacity. unfold room in Hroom.
  rewrite add_small by (unfold size_type.in_range; lia).
  rewrite new_capacity_exact by lia.
  pose proof (new_capacity_bounds delta_ delta_pos (size_ m + 1)
                ltac:(lia) ltac:(lia)) as Hb.
  rewrite new_capacity_exact in Hb by lia.
  split_comparisons; try reflexivity; lia.
Qed.

(** [push_back] appends and [push_front] prepends. *)
Lemma push_entries m val :
  intact m -> room delta_ m 1 ->
  entries (snd (push_back delta_ val m)) = entries m ++ [Some val] /\
  entries (snd (push_front delta_ val m)) = Some val :: entries m.
Proof.
  intros Hint Hroom. pose proof Hint as (_ & [Hs0 Hsc] & Hcap).
  split.
  - unfold push_back. unfold bind at 1.
    change (gets size_ m) with (size_ m, m). cbn [fst snd].
    destruct (insert_entries m val (size_ m) Hint
                ltac:(lia) Hroom) as [_ ->].
    rewrite take_ge, drop_ge by (rewrite entries_length; lia).
    reflexivity.
  - unfold push_front.
    destruct (insert_entries m val 0 Hint
                ltac:(lia) Hroom) as [_ ->].
    reflexivity.
Qed.

(** Erasing what has just been inserted gives back the entries. *)
Lemma insert_erase m val pos :
  intact m -> 0 <= pos <= size_ m -> room delta_ m 1 ->
  size_ (snd (erase pos (snd (insert delta_ val pos m)))) = size_ m /\
  entries (snd (erase pos (snd (insert delta_ val pos m)))) = entries m.
Proof.
  intros Hint Hpos Hroom.
  destruct (insert_effect m val pos Hint Hpos Hroom) as (Hint1 & Hs1 & _).
  destruct (insert_entries m val pos Hint Hpos Hroom)
    as [_ He1].
  destruct (erase_effect (snd (insert delta_ val pos m)) pos Hint1
              ltac:(lia)) as (_ & Hs2 & _ & He2).
  split; [lia|]. rewrite He2, He1.
  assert (Hlen : length (take (Z.to_nat pos) (entries m)) = Z.to_nat pos)
    by (rewrite length_take, entries_length; lia).
  rewrite <- Hlen at 1. rewrite delete_middle. apply take_drop.
Qed.

(** What [insert(key, val, pos)] has stored is what the positional
    accessors return. *)
Lemma insert_kv_read_back m key val pos :
  intact m -> 0 <= pos <= size_ m -> room delta_ m 1 ->
  let m' := snd (insert_kv delta_ key val pos m) in
  fst (get_at pos m') = Iterator pos /\
  load_key m' (fst (get_key pos m')) = Some key /\
  load_mapped m' (fst (get_value pos m')) = Some val.
Proof.
  intros Hint Hpos Hroom. unfold insert_kv. cbv zeta.
  destruct (insert_effect m (key, val) pos Hint Hpos Hroom)
    as (_ & Hs1 & Hp1).
  unfold get_at, get_key, get_value, bind, gets, ret. cbn [fst snd].
  destruct (Z.ltb_spec pos (size_ (snd (insert delta_ (key, val) pos m))));
    [|lia].
  cbn [fst load_key load_mapped]. rewrite Hp1. auto.
Qed.

(** The copy loop of [insert(map, pos)] for a distinct [map]: like
    [insert(il, pos)], with the entries of [map] for the sequence. *)
Lemma insert_map_entries m (o : @vectormap key_type mapped_type) pos :
  intact m -> 0 <= pos <= size_ m -> 1 <= size_ o ->
  room delta_ m (size_ o) ->
  let k := if size_ m =? 0 then 0 else Z.max (pos + 1 - size_ o) 0 in
  fst (insert_map delta_ (rhs_other o) pos m) = Iterator pos /\
  entries (snd (insert_map delta_ (rhs_other o) pos m)) =
    take (Z.to_nat k) (entries m) ++ replicate (Z.to_nat (pos - k)) None
      ++ entries o ++ drop (Z.to_nat pos) (entries m).
Proof.
  intros Hint Hpos Hlen Hroom.
  destruct (gap_effect pos (size_ o) m Hint Hpos Hlen Hroom)
    as (Hok & (Hall & Hsc & Hcap) & Hsz & Hlow & Hmid & Hhigh).
  cbv zeta. set (k := if size_ m =? 0 then _ else _) in *.
  assert (Hk : 0 <= k <= pos) by (subst k; destruct (size_ m =? 0); lia).
  unfold insert_map, end_, bind, gets, ret. cbn [fst snd].
  destruct (Z.ltb_spec (size_ m) pos); [lia|].
  rewrite Hok. cbn [fst snd]. split; [reflexivity|].
  set (m1 := snd (gap_ delta_ pos (size_ o) m)) in *.
  unfold copy_from.
  assert (Hloop := fun j => peek_for_construct (peek (data_ o))
    pos (Z.to_nat (size_ o)) 0 m1 j
    ltac:(lia) ltac:(unfold room in Hroom; lia)).
  pose proof (data_only_for (Z.to_nat (size_ o))
                (fun i => construct (pos + i) (peek (data_ o) i)) 0
                ltac:(intros; apply data_only_construct) m1) as Hframe.
  unfold frame in Hframe. injection Hframe as Hfs _ _ _.
  assert (Hlo : Z.of_nat (length (entries o)) = size_ o)
    by (rewrite entries_length; lia).
  rewrite (entries_splice m _ k pos (entries o)); rewrite ?Hlo; try lia.
  - reflexivity.
  - intros j Hj. destruct (Hloop j) as [Hp _].
    etransitivity; [exact Hp|].
    split_comparisons; try lia; apply Hlow; lia.
  - intros j Hj. destruct (Hloop j) as [Hp _].
    etransitivity; [exact Hp|].
    split_comparisons; try lia; apply Hmid; lia.
  - intros i Hi. destruct (Hloop (pos + Z.of_nat i)) as [Hp _].
    rewrite entries_lookup by lia. f_equal. symmetry.
    etransitivity; [exact Hp|].
    rewrite Hall.
    replace (pos + Z.of_nat i - pos) with (Z.of_nat i) by lia.
    split_comparisons; try lia; reflexivity.
  - intros j Hj. destruct (Hloop j) as [Hp _].
    etransitivity; [exact Hp|].
    split_comparisons; try lia; apply Hhigh; lia.
Qed.

(** [clear()] keeps the buffer and its capacity, and leaves no entry. *)
Lemma clear_effect m :
  intact m ->
  intact (snd (clear m)) /\
  size_ (snd (clear m)) = 0 /\
  capacity_ (snd (clear m)) = capacity_ m /\
  entries (snd (clear m)) = [] /\
  (forall j, 0 <= j < size_ m -> peek (data_ (snd (clear m))) j = None).
Proof.
  intros Hint. pose proof Hint as (Hall & [Hs0 Hsc] & Hcap).
  assert (Hr : size_type.in_range (size_ m))
    by (unfold size_type.in_range; lia).
  assert (Hloop := fun k => peek_for_construct (fun _ : Z => None) 0
                     (Z.to_nat (size_ m)) 0 m k ltac:(lia) ltac:(lia)).
  pose proof (data_only_for (Z.to_nat (size_ m)) destroy 0
                data_only_destroy m) as Hframe.
  unfold frame in Hframe. injection Hframe as _ Hfc _ _.
  split; [|split; [reflexivity|split; [exact Hfc|split; [reflexivity|]]]].
  - unfold intact, clear, bind, gets, modify.
    cbn [fst snd data_ size_ capacity_ set_size_]. rewrite Hfc.
    split; [|lia].
    intros j. destruct (Hloop j) as [_ Ha].
    etransitivity; [exact Ha|]. apply Hall.
  - intros j Hj. rewrite peek_clear by assumption.
    split_comparisons; try lia; reflexivity.
Qed.

(** [swap(from, to)] on the list of entries. *)
Lemma swap_pos_entries m from to :
  intact m -> 0 <= from < size_ m -> 0 <= to < size_ m ->
  entries (snd (swap_pos from to m)) =
    <[Z.to_nat from := peek (data_ m) to]>
      (<[Z.to_nat to := peek (data_ m) from]> (entries m)).
Proof.
  intros Hint Hfrom Hto.
  destruct (swap_pos_effect m from to Hint Hfrom Hto) as (_ & Hf & Hp).
  unfold frame in Hf. injection Hf as Hs _ _ _.
  apply (list_eq_same_length _ _ (Z.to_nat (size_ m))).
  - rewrite !length_insert, entries_length. lia.
  - rewrite entries_length. lia.
  - intros i x y Hi Hx Hy.
    rewrite entries_lookup in Hx by lia. injection Hx as <-.
    rewrite Hp.
    destruct (Z.eqb_spec (Z.of_nat i) from) as [Heq|Hne].
    + replace (Z.to_nat from) with i in Hy by lia.
      rewrite list_lookup_insert_eq in Hy
        by (rewrite length_insert, entries_length; lia).
      now injection Hy.
    + rewrite list_lookup_insert_ne in Hy by lia.
      destruct (Z.eqb_spec (Z.of_nat i) to) as [Heq|Hne'].
      * replace (Z.to_nat to) with i in Hy by lia.
        rewrite list_lookup_insert_eq in Hy by (rewrite entries_length; lia).
        now injection Hy.
      * rewrite list_lookup_insert_ne in Hy by lia.
        rewrite entries_lookup in Hy by lia. now injection Hy.
Qed.

(** Swapping twice gives back the entries. *)
Lemma swap_pos_twice m from to :
  intact m -> 0 <= from < size_ m -> 0 <= to < size_ m ->
  entries (snd (swap_pos from to (snd (swap_pos from to m)))) = entries m.
Proof.
  intros Hint Hfrom Hto.
  destruct (swap_pos_effect m from to Hint Hfrom Hto) as (Hint1 & Hf & Hp).
  unfold frame in Hf. injection Hf as Hs _ _ _.
  destruct (swap_pos_effect (snd (swap_pos from to m)) from to Hint1
              ltac:(lia) ltac:(lia)) as (_ & Hf2 & Hp2).
  unfold frame in Hf2. injection Hf2 as Hs2 _ _ _.
  apply entries_ext; [lia|].
  intros j Hj. rewrite Hp2, !Hp, !Z.eqb_refl.
  destruct (Z.eqb_spec j from) as [->|Hjf].
  - destruct (Z.eqb_spec to from) as [->|]; reflexivity.
  - destruct (Z.eqb_spec j to) as [->|]; [|reflexivity].
    reflexivity.
Qed.

Lemma swap_pos_out_of_range m from to :
  size_ m <= from \/ size_ m <= to -> swap_pos from to m = (tt, m).
Proof.
  intros Hout. unfold swap_pos. unfold bind at 1.
  change (gets size_ m) with (size_ m, m). cbn [fst snd].
  destruct (Z.ltb_spec from (size_ m)); destruct (Z.ltb_spec to (size_ m));
    cbn [andb]; try reflexivity; lia.
Qed.

(** [set_value(v, pos)] replaces the mapped value of the entry at [pos]
    and nothing else. *)
Lemma set_value_entries m new_value pos key old :
  intact m -> 0 <= pos < size_ m ->
  peek (data_ m) pos = Some (key, old) ->
  let m' := snd (set_value new_value pos m) in
  entries m' = <[Z.to_nat pos := Some (key, new_value)]> (entries m) /\
  load_mapped m' (fst (get_value pos m')) = Some new_value /\
  load_key m' (fst (get_key pos m')) = Some key.
Proof.
  intros Hint Hpos Hold. pose proof Hint as (_ & [Hs0 Hsc] & _). cbv zeta.
  destruct (set_value_effect m new_value pos Hint ltac:(lia))
    as (_ & Hf & Hp).
  unfold frame in Hf. injection Hf as Hs _ _ _.
  split; [|split].
  - apply (list_eq_same_length _ _ (Z.to_nat (size_ m))).
    + rewrite length_insert, entries_length. lia.
    + rewrite entries_length. lia.
    + intros i x y Hi Hx Hy.
      rewrite entries_lookup in Hx by lia. injection Hx as <-.
      rewrite Hp.
      destruct (Z.eqb_spec (Z.of_nat i) pos) as [Heq|Hne].
      * replace (Z.to_nat pos) with i in Hy by lia.
        rewrite list_lookup_insert_eq in Hy by (rewrite entries_length; lia).
        injection Hy as <-. now rewrite Hold.
      * rewrite list_lookup_insert_ne in Hy by lia.
        rewrite entries_lookup in Hy by lia. now injection Hy.
  - unfold get_value, bind, gets, ret. cbn [fst snd]. rewrite Hs.
    destruct (Z.ltb_spec pos (size_ m)); [|lia].
    cbn [load_mapped]. rewrite Hp, Z.eqb_refl, Hold. reflexivity.
  - unfold get_key, bind, gets, ret. cbn [fst snd]. rewrite Hs.
    destruct (Z.ltb_spec pos (size_ m)); [|lia].
    cbn [load_key]. rewrite Hp, Z.eqb_refl, Hold. reflexivity.
Qed.

(** An accepted [reserve] keeps the entries. *)
Lemma reserve_entries m n :
  intact m -> size_ m <= n -> n + delta_ < size_type.modulus ->
  entries (snd (reserve delta_ n m)) = entries m.
Proof.
  intros Hint Hn Hroom.
  destruct (reserve_intact m n Hint Hn Hroom)
    as (_ & _ & Hs & _ & Hp).
  apply entries_ext; [exact Hs|]. intros j Hj. apply Hp. lia.
Qed.

(** [shrink()] is accepted: the capacity becomes the size. *)
Lemma shrink_effect m :
  intact m ->
  fst (shrink m) = true /\
  intact (snd (shrink m)) /\
  size_ (snd (shrink m)) = size_ m /\
  capacity_ (snd (shrink m)) = size_ m /\
  entries (snd (shrink m)) = entries m.
Proof.
  intros Hint. pose proof Hint as (_ & [Hs0 Hsc] & Hcap).
  unfold shrink. unfold bind at 1 2 3 4 5.
  change (gets size_ m) with (size_ m, m). cbn [fst snd].
  apply resize_effect; [exact Hint|lia].
Qed.

(** [is_empty()] on an intact container, allocated or not. *)
Lemma is_empty_spec m : intact m -> fst (is_empty m) = (size_ m =? 0).
Proof.
  intros (Hall & [Hs0 Hsc] & _). unfold is_empty, gets. cbn [fst].
  destruct (data_ m) as [buf|] eqn:Hd; [reflexivity|].
  specialize (Hall 0). cbn [allocated] in Hall.
  destruct (Z.ltb_spec 0 (capacity_ m)); [discriminate Hall|].
  symmetry. apply Z.eqb_eq. lia.
Qed.

(** After [insert(key, val, pos)] the scan for [key] finds [pos]. *)
Lemma insert_kv_found m key val pos :
  intact m -> 0 <= pos <= size_ m -> room delta_ m 1 ->
  key_equal key key = true ->
  In pos (fst (get_all_pos key (snd (insert_kv delta_ key val pos m)))).
Proof.
  intros Hint Hpos Hroom Hrefl. unfold insert_kv.
  destruct (insert_effect m (key, val) pos Hint Hpos Hroom)
    as ((_ & Hsc1 & Hcap1) & Hs1 & Hp1).
  apply get_all_pos_spec; [unfold size_type.in_range; lia|].
  split; [lia|]. rewrite Hp1. exact Hrefl.
Qed.

Lemma filter_none {A} (f : A -> bool) (l : list A) :
  (forall x, In x l -> f x = false) -> List.filter f l = [].
Proof.
  induction l as [|x l IH]; intros Hf; [reflexivity|].
  cbn [List.filter]. rewrite (Hf x (or_introl eq_refl)).
  apply IH. intros y Hy. apply Hf. now right.
Qed.

(** After [erase_all(key)] no lookup finds [key]. *)
Lemma erase_all_then_get m key ordinal number :
  intact m ->
  fst (get_all key (snd (erase_all key m))) = [] /\
  fst (get key ordinal number (snd (erase_all key m))) = [].
Proof.
  intros Hint.
  destruct (erase_all_entries m key Hint) as ((_ & Hsc & Hcap) & _ & He).
  assert (Hr : size_type.in_range (size_ (snd (erase_all key m))))
    by (unfold size_type.in_range; lia).
  assert (Hnone : fst (get_all key (snd (erase_all key m))) = []).
  { rewrite get_all_matches, all_matches_entries by assumption.
    rewrite filter_none; [reflexivity|].
    intros i _. destruct (entries (snd (erase_all key m)) !! i) as [s|] eqn:Hi;
      [|reflexivity].
    cbn [from_option]. rewrite He in Hi.
    apply list_elem_of_lookup_2, list_elem_of_In, filter_In in Hi as [_ Hi].
    now apply negb_true_iff in Hi. }
  split; [exact Hnone|].
  rewrite get_spec, Hnone by assumption. now rewrite drop_nil, take_nil.
Qed.

(** ** The buffer has the slots [capacity_] counts *)

Local Abbreviation M := (@M key_type mapped_type).

Lemma keeps_fitted_ret {A} (a : A) : keeps_fitted (ret a : M A).
Proof. intros m Hm. exact Hm. Qed.

Lemma keeps_fitted_gets {A} (f : @vectormap key_type mapped_type -> A) :
  keeps_fitted (gets f).
Proof. intros m Hm. exact Hm. Qed.

Lemma keeps_fitted_bind {A B} (c : M A) (k : A -> M B) :
  keeps_fitted c -> (forall a, keeps_fitted (k a)) -> keeps_fitted (bind c k).
Proof. intros Hc Hk m Hm. unfold bind. apply Hk, Hc, Hm. Qed.

Lemma keeps_fitted_if {A} (b : bool) (c1 c2 : M A) :
  keeps_fitted c1 -> keeps_fitted c2 -> keeps_fitted (if b then c1 else c2).
Proof. now destruct b. Qed.

Lemma keeps_fitted_set_size s : keeps_fitted (modify (set_size_ s) : M unit).
Proof. intros m Hm. exact Hm. Qed.

Lemma keeps_fitted_construct i v : keeps_fitted (construct i v : M unit).
Proof.
  intros m Hm j. cbn [construct modify snd data_ capacity_ set_data_].
  rewrite allocated_poke. apply Hm.
Qed.

Lemma keeps_fitted_destroy i : keeps_fitted (destroy i : M unit).
Proof. apply keeps_fitted_construct. Qed.

Lemma keeps_fitted_at i : keeps_fitted (at_ i : M slot).
Proof. intros m Hm. exact Hm. Qed.

Lemma keeps_fitted_for n (body : Z -> M unit) : forall i,
  (forall j, keeps_fitted (body j)) -> keeps_fitted (for_ n i body).
Proof.
  induction n as [|n IH]; intros i Hbody; cbn [for_].
  - apply keeps_fitted_ret.
  - apply keeps_fitted_bind; auto.
Qed.

Lemma keeps_fitted_for_each {A} (l : list A) (body : A -> M unit) :
  (forall x, keeps_fitted (body x)) -> keeps_fitted (for_each l body).
Proof.
  intros Hbody. induction l as [|x l IH]; cbn [for_each].
  - apply keeps_fitted_ret.
  - apply keeps_fitted_bind; auto.
Qed.

Create HintDb fitted.

#[local] Hint Resolve keeps_fitted_ret keeps_fitted_gets keeps_fitted_bind
  keeps_fitted_if keeps_fitted_set_size keeps_fitted_construct
  keeps_fitted_destroy keeps_fitted_at keeps_fitted_for
  keeps_fitted_for_each : fitted.

Lemma keeps_fitted_gap_loop rounds from length : forall i,
  keeps_fitted (gap_loop rounds from length i : M unit).
Proof.
  induction rounds as [|r IH]; intros i; cbn [gap_loop]; auto 10 with fitted.
Qed.

Lemma allocated_resize_loop n : forall i (new_data old_data : pointer) j,
  allocated (fst (resize_loop n i new_data old_data)) j = allocated new_data j.
Proof.
  induction n as [|n IH]; intros i new_data old_data j; [reflexivity|].
  cbn [resize_loop]. rewrite IH. apply allocated_poke.
Qed.

(** [resize] is the one member function that replaces the buffer, and it
    sets [capacity_] to what it has allocated. *)
Lemma keeps_fitted_resize n : keeps_fitted (resize n : M bool).
Proof.
  intros m Hm. unfold resize, bind, gets, modify, ret. cbn [fst snd].
  destruct (n <? size_ m); [exact Hm|]. cbn [fst snd].
  intros j. cbn [data_ capacity_ set_capacity_ set_data_].
  rewrite allocated_resize_loop. apply allocated_allocate.
Qed.

Lemma keeps_fitted_reserve n : keeps_fitted (reserve delta_ n : M bool).
Proof.
  unfold reserve. apply keeps_fitted_bind; [auto with fitted|].
  intros sz. apply keeps_fitted_if; [auto with fitted|].
  apply keeps_fitted_resize.
Qed.

Lemma keeps_fitted_shrink : keeps_fitted (shrink : M bool).
Proof.
  unfold shrink. apply keeps_fitted_bind; [auto with fitted|].
  intros sz. apply keeps_fitted_resize.
Qed.

#[local] Hint Resolve keeps_fitted_gap_loop keeps_fitted_resize
  keeps_fitted_reserve keeps_fitted_shrink : fitted.

Lemma keeps_fitted_gap from length :
  keeps_fitted (gap_ delta_ from length : M bool).
Proof.
  unfold gap_.
  repeat (apply keeps_fitted_bind; [auto with fitted|intros ?]).
  auto 10 with fitted.
Qed.

Lemma keeps_fitted_end : keeps_fitted (end_ : M iterator).
Proof. unfold end_. auto with fitted. Qed.

#[local] Hint Resolve keeps_fitted_gap keeps_fitted_end : fitted.

Lemma keeps_fitted_insert val pos :
  keeps_fitted (insert delta_ val pos : M iterator).
Proof.
  unfold insert.
  repeat (apply keeps_fitted_bind; [auto with fitted|intros ?]).
  auto 10 with fitted.
Qed.

Lemma keeps_fitted_insert_il il pos :
  keeps_fitted (insert_il delta_ il pos : M iterator).
Proof.
  unfold insert_il.
  apply keeps_fitted_bind; [auto with fitted|intros ?].
  apply keeps_fitted_if; [auto with fitted|].
  apply keeps_fitted_bind; [auto with fitted|intros ?].
  auto 10 with fitted.
Qed.

Lemma keeps_fitted_copy_from src base n :
  keeps_fitted (copy_from src base n : M unit).
Proof. unfold copy_from. auto with fitted. Qed.

#[local] Hint Resolve keeps_fitted_copy_from : fitted.

Lemma keeps_fitted_insert_map map pos :
  keeps_fitted (insert_map delta_ map pos : M iterator).
Proof.
  unfold insert_map.
  apply keeps_fitted_bind; [auto with fitted|intros ?].
  apply keeps_fitted_if; [auto with fitted|].
  apply keeps_fitted_bind; [auto with fitted|intros ?].
  apply keeps_fitted_bind; [auto with fitted|intros ?].
  apply keeps_fitted_if; [|auto with fitted].
  apply keeps_fitted_bind; [|auto with fitted].
  destruct map; auto 10 with fitted.
Qed.

Lemma keeps_fitted_set_value (new_value : mapped_type) pos :
  keeps_fitted (set_value new_value pos : M unit).
Proof.
  unfold set_value. apply keeps_fitted_bind; [auto with fitted|].
  intros [[k w]|]; auto with fitted.
Qed.

Lemma keeps_fitted_clear : keeps_fitted (clear : M unit).
Proof. unfold clear. auto 10 with fitted. Qed.

Lemma keeps_fitted_erase pos : keeps_fitted (erase pos : M unit).
Proof. unfold erase. auto 20 with fitted. Qed.

Lemma keeps_fitted_move from to :
  keeps_fitted (move delta_ from to : M unit).
Proof. unfold move. auto 30 with fitted. Qed.

Lemma keeps_fitted_swap_pos from to :
  keeps_fitted (swap_pos from to : M unit).
Proof. unfold swap_pos. auto 20 with fitted. Qed.

(** Every call of a member function on a container leaves the buffer as
    large as [capacity_] says. *)
Lemma keeps_fitted_exec c m : fitted m -> fitted (exec delta_ c m).
Proof.
  intros Hm. destruct c; cbn [exec].
  - now apply keeps_fitted_insert.
  - now apply keeps_fitted_insert.
  - now apply keeps_fitted_insert_il.
  - now apply keeps_fitted_insert_map.
  - now apply keeps_fitted_insert.
  - now apply keeps_fitted_insert.
  - now apply keeps_fitted_insert_il.
  - now apply keeps_fitted_insert_map.
  - now apply keeps_fitted_insert.
  - now apply keeps_fitted_insert.
  - now apply keeps_fitted_insert_il.
  - now apply keeps_fitted_insert_map.
  - now apply keeps_fitted_set_value.
  - now apply keeps_fitted_clear.
  - now apply keeps_fitted_erase.
  - apply keeps_fitted_for_each; [apply keeps_fitted_erase|exact Hm].
  - unfold erase_all. apply keeps_fitted_bind; [auto with fitted| |exact Hm].
    intros v. apply keeps_fitted_for_each. intros it.
    apply keeps_fitted_erase.
  - now apply keeps_fitted_move.
  - now apply keeps_fitted_swap_pos.
  - now apply keeps_fitted_reserve.
  - now apply keeps_fitted_shrink.
  - now apply keeps_fitted_resize.
  - exact Hm.
  - destruct m. exact Hm.
Qed.

Lemma keeps_fitted_il_loop il : forall counter,
  keeps_fitted (il_loop il counter : M unit).
Proof.
  induction il as [|elem il IH]; intros counter; cbn [il_loop];
    auto 10 with fitted.
Qed.

Lemma fitted_vectormap_il (il : list (@value_type key_type mapped_type)) :
  fitted (vectormap_il delta_ il).
Proof.
  unfold vectormap_il. apply keeps_fitted_il_loop.
  intros j. apply allocated_allocate.
Qed.

Lemma fitted_vectormap_default :
  fitted (vectormap_default : @vectormap key_type mapped_type).
Proof.
  intros j. cbn [vectormap_default data_ capacity_ allocated].
  split_comparisons; try reflexivity; lia.
Qed.

Lemma fitted_vectormap_copy (o : @vectormap key_type mapped_type) :
  fitted (vectormap_copy o).
Proof.
  unfold vectormap_copy. apply keeps_fitted_copy_from.
  intros j. apply allocated_allocate.
Qed.

Lemma fitted_calls (cs : list (@call key_type mapped_type)) : forall m,
  fitted m -> fitted (foldl (fun m c => exec delta_ c m) m cs).
Proof.
  induction cs as [|c cs IH]; intros m Hm; [exact Hm|].
  cbn [foldl]. apply IH, keeps_fitted_exec, Hm.
Qed.

End slot_facts.

(** ** The claims *)

Section claims.

Context {key_type mapped_type : Type}.
Context `{!Keyable key_type, !DefaultInitializable key_type,
          !DefaultInitializable mapped_type}.

Implicit Types (m o : @vectormap key_type mapped_type).
Implicit Types (key : key_type) (val : @value_type key_type mapped_type).

(** [reserve]'s request is rounded to [(n / delta_ + 1) * delta_] and
    accepted by [resize] as soon as it is not below [size_]. *)
Lemma reserve_accepts delta_ m n :
  0 < delta_ -> 0 <= size_ m <= n -> n + delta_ < size_type.modulus ->
  fst (reserve delta_ n m) = true /\
  frame (snd (reserve delta_ n m)) =
  (size_ m, (n / delta_ + 1) * delta_, void_mapped_type_ m, void_key_type_ m).
Proof.
  intros Hd Hs Hn.
  pose proof (new_capacity_bounds delta_ Hd n ltac:(lia) Hn) as Hb.
  assert (Hnc : size_type.mul (size_type.add (size_type.div n delta_) 1) delta_
                = (n / delta_ + 1) * delta_).
  { unfold size_type.div in *.
    assert (0 <= n / delta_) by (apply Z.div_pos; lia).
    assert (n / delta_ <= n) by (apply Z.div_le_upper_bound; nia).
    rewrite add_small by (unfold size_type.in_range; lia).
    pose proof (Z.div_mod n delta_ ltac:(lia)).
    pose proof (Z.mod_pos_bound n delta_ Hd).
    apply wrap_small. unfold size_type.in_range. nia. }
  rewrite fst_reserve, frame_reserve, frame_resize, Hnc in *.
  destruct (Z.ltb_spec n (size_ m)); [lia|].
  destruct (Z.ltb_spec ((n / delta_ + 1) * delta_) (size_ m)); [lia|].
  split; reflexivity.
Qed.

Lemma reserve_refuses delta_ m n :
  n < size_ m ->
  fst (reserve delta_ n m) = false /\ snd (reserve delta_ n m) = m.
Proof.
  intros Hn. unfold reserve, bind, gets, ret. cbn [fst snd].
  destruct (Z.ltb_spec n (size_ m)); [split; reflexivity|lia].
Qed.

(** [operator=(const vectormap&)] from a distinct container leaves
    [size_] at the 0 that [clear] has set. *)
Lemma copy_assign_size delta_ m o :
  size_ (snd (copy_assign delta_ (rhs_other o) m)) = 0.
Proof.
  unfold copy_assign. unfold bind at 1 2 3.
  change (gets capacity_ (snd (clear m))) with
    (capacity_ (snd (clear m)), snd (clear m)). cbn [fst snd].
  assert (Hclear : size_ (snd (clear m)) = 0) by reflexivity.
  generalize dependent (snd (clear m)). intros m1 Hm1.
  pose proof (data_only_copy_from (data_ o) 0 (Z.to_nat (size_ o))) as Hcopy.
  unfold data_only, frame in Hcopy.
  match goal with
  | |- size_ (snd (copy_from _ _ _ ?st)) = 0 =>
      specialize (Hcopy st); injection Hcopy as -> _ _ _
  end.
  destruct (capacity_ m1 <? size_ o); [|exact Hm1].
  unfold bind, ret. cbn [fst snd].
  pose proof (frame_reserve delta_ (size_ o) m1) as Hf.
  rewrite frame_resize in Hf.
  repeat match type of Hf with
  | context [if ?b then _ else _] => destruct b
  end; injection Hf as -> _ _ _; exact Hm1.
Qed.

(** What [operator=(vectormap&&)] leaves of the two containers: the
    source keeps the destination's old capacity. *)
Lemma move_assign_effect m o :
  snd (move_assign o m) =
    Vectormap (size_ o) (capacity_ o) (data_ o)
      (void_mapped_type_ m) (void_key_type_ m) /\
  fst (move_assign o m) =
    Vectormap 0 (capacity_ m) None (void_mapped_type_ o) (void_key_type_ o).
Proof. split; reflexivity. Qed.

(** The move constructor does leave the empty container behind. *)
Lemma vectormap_move_effect o :
  entries (fst (vectormap_move o)) = entries o /\
  size_ (snd (vectormap_move o)) = 0 /\
  capacity_ (snd (vectormap_move o)) = 0 /\
  data_ (snd (vectormap_move o)) = None.
Proof. repeat split. Qed.

(** [move] with an index out of range does nothing. *)
Lemma move_out_of_range delta_ m from to :
  size_ m <= from \/ size_ m <= to -> move delta_ from to m = (tt, m).
Proof.
  intros Hout. unfold move. unfold bind at 1.
  change (gets size_ m) with (size_ m, m). cbn [fst snd].
  destruct (Z.ltb_spec from (size_ m)), (Z.ltb_spec to (size_ m));
    try reflexivity; lia.
Qed.

(** C4, amended.  [reserve(n1)] with [size <= n1] succeeds and sets the
    capacity to [(n1 / delta_ + 1) * delta_], the next multiple of the chunk
    size above [n1].  A second [reserve(n2)] does the same with [n2] when
    [size <= n2], whatever the capacity has become (so with [n2 < n1] it
    shrinks the capacity); when [n2 < size] it fails and the capacity stays. *)
Theorem reserve_rounds_and_resets delta_ m n1 n2 :
  0 < delta_ ->
  0 <= size_ m <= n1 -> n1 + delta_ < size_type.modulus ->
  0 <= n2 -> n2 + delta_ < size_type.modulus ->
  let r1 := reserve delta_ n1 m in
  let r2 := reserve delta_ n2 (snd r1) in
  fst r1 = true /\ capacity_ (snd r1) = (n1 / delta_ + 1) * delta_ /\
  n1 < capacity_ (snd r1) <= n1 + delta_ /\
  size_ (snd r1) = size_ m /\
  (size_ m <= n2 ->
   fst r2 = true /\ capacity_ (snd r2) = (n2 / delta_ + 1) * delta_) /\
  (n2 < size_ m ->
   fst r2 = false /\ capacity_ (snd r2) = (n1 / delta_ + 1) * delta_).
Proof.
  intros Hd Hs Hn1 H2 Hn2 r1 r2.
  destruct (reserve_accepts delta_ m n1 Hd Hs Hn1) as [Hok Hf].
  fold r1 in Hok, Hf. injection Hf as Hsize Hcap _ _.
  assert (Hb : n1 < (n1 / delta_ + 1) * delta_ <= n1 + delta_).
  { pose proof (Z.div_mod n1 delta_ ltac:(lia)).
    pose proof (Z.mod_pos_bound n1 delta_ Hd). nia. }
  rewrite Hcap.
  repeat split; auto; try lia.
  - destruct (reserve_accepts delta_ (snd r1) n2 Hd) as [Hok2 _]; auto; lia.
  - destruct (reserve_accepts delta_ (snd r1) n2 Hd) as [_ Hf2]; try lia.
    fold r2 in Hf2. now injection Hf2 as _ -> _ _.
  - destruct (reserve_refuses delta_ (snd r1) n2) as [Hno _]; auto; lia.
  - destruct (reserve_refuses delta_ (snd r1) n2) as [_ Hsame]; [lia|].
    fold r2 in Hsame. now rewrite Hsame.
Qed.

(** C6.  [insert(val, pos)] with [pos > size()] returns [end()] and leaves
    the container as it was: size, capacity, buffer and all. *)
Theorem insert_past_the_end delta_ m val pos :
  size_ m < pos ->
  fst (insert delta_ val pos m) = fst (end_ m) /\
  snd (insert delta_ val pos m) = m.
Proof.
  intros Hpos. unfold insert, end_, bind, gets, ret. cbn [fst snd].
  destruct (Z.ltb_spec (size_ m) pos); [split; reflexivity|lia].
Qed.

(** C7.  Every container reached from a constructor by member-function
    calls satisfies [0 <= size <= capacity].  ([reachable] takes the
    arguments of the calls to be [size_type] values and gives every
    insertion [room]: the entries it counts stay below [2^64].) *)
Theorem size_le_capacity_invariant delta_ m :
  0 < delta_ -> reachable delta_ m -> 0 <= size_ m <= capacity_ m.
Proof.
  intros Hd Hr. apply (reachable_good delta_ Hd m Hr).
Qed.

(** C8.  [get_all(key)] and [get(key, 1, size())] return the same number of
    results. *)
Theorem get_all_length_eq_get_size m key :
  size_type.in_range (size_ m) ->
  length (fst (get_all key m)) = length (fst (get key 1 (size_ m) m)).
Proof.
  intros Hr. rewrite get_spec by exact Hr.
  change (Z.to_nat (1 - 1)) with O. rewrite drop_0.
  rewrite take_ge; [reflexivity|].
  pose proof (get_all_loop_length (data_ m) key (Z.to_nat (size_ m)) 0) as Hlen.
  change (get_all_loop (data_ m) key (Z.to_nat (size_ m)) 0 [])
    with (fst (get_all key m)) in Hlen.
  destruct Hr as [H0 H1].
  destruct (Z.eq_dec (size_ m) 0) as [Hz|Hz].
  - rewrite Hz in Hlen. change (Z.to_nat 0) with O in Hlen. lia.
  - rewrite sub_small by (unfold size_type.in_range; lia). lia.
Qed.

(** What an out-of-range position gets from the position accessors, for any
    container whatever. *)
Lemma accessors_out_of_range m pos :
  size_ m <= pos ->
  get_value pos m = (ref_void_mapped_type_, m) /\
  get_key pos m = (ref_void_key_type_, m).
Proof.
  intros Hpos. unfold get_value, get_key, bind, gets, ret. cbn [fst snd].
  destruct (Z.ltb_spec pos (size_ m)); [lia|]. split; reflexivity.
Qed.

(** C9.  For every container and every [pos >= size], [get_value(pos)]
    returns the reference to the member [void_mapped_type_] and
    [get_key(pos)] the reference to the member [void_key_type_], and the
    container is left as it was: size, capacity, buffer and entries.  What
    is read through the references is what the two members hold.  Every
    constructor leaves them default-initialised and no member function
    writes them, so in a container that has only been changed by its member
    functions they still are what default-initialisation left (nothing
    determinate for a scalar type); a caller can assign to the mapped
    sentinel through the reference it was given. *)
Theorem get_out_of_range_sentinel delta_ m pos :
  size_ m <= pos ->
  get_value pos m = (ref_void_mapped_type_, m) /\
  get_key pos m = (ref_void_key_type_, m) /\
  load_mapped m ref_void_mapped_type_ = void_mapped_type_ m /\
  load_key m ref_void_key_type_ = void_key_type_ m /\
  (0 < delta_ -> reachable delta_ m ->
   void_mapped_type_ m = default_init /\ void_key_type_ m = default_init).
Proof.
  intros Hpos.
  destruct (accessors_out_of_range m pos Hpos) as [Hv Hk].
  split; [exact Hv|]. split; [exact Hk|].
  split; [reflexivity|]. split; [reflexivity|].
  intros Hd Hr.
  destruct (reachable_good delta_ Hd m Hr) as (_ & _ & Hvm & Hvk).
  split; assumption.
Qed.

(** C10.  [get(key, ordinal, 0)] with [ordinal >= 1] returns every match of
    rank [ordinal] or more, in ascending position order, and leaves the
    container as it was. *)
Theorem get_number_zero_full_tail m key ordinal :
  size_type.in_range (size_ m) -> 1 <= ordinal ->
  fst (get key ordinal 0 m) =
    drop (Z.to_nat (ordinal - 1)) (all_matches m key) /\
  snd (get key ordinal 0 m) = m.
Proof.
  intros Hr Hord. split; [|reflexivity].
  rewrite get_spec by exact Hr. rewrite get_all_matches by exact Hr.
  apply take_ge. rewrite length_drop.
  rewrite <- get_all_matches by exact Hr.
  pose proof (get_all_loop_length (data_ m) key (Z.to_nat (size_ m)) 0) as Hlen.
  change (get_all_loop (data_ m) key (Z.to_nat (size_ m)) 0 [])
    with (fst (get_all key m)) in Hlen.
  rewrite sub_0_1. destruct Hr as [H0 H1].
  unfold size_type.npos. lia.
Qed.

End claims.

(** ** More of the member functions *)

Section properties.

Context {key_type mapped_type : Type}.
Context `{!Keyable key_type, !DefaultInitializable key_type,
          !DefaultInitializable mapped_type}.

Implicit Types (m o : @vectormap key_type mapped_type).
Implicit Types (key : key_type) (val : @value_type key_type mapped_type).


(** X2. [insert] leaves the capacity alone while there is a free slot; on
    a full buffer the capacity becomes the next multiple of [delta_] above
    the new size. *)
Theorem insert_grows_when_full delta_ m val pos :
  0 < delta_ -> intact m -> 0 <= pos <= size_ m -> room delta_ m 1 ->
  capacity_ (snd (insert delta_ val pos m)) =
    if size_ m <? capacity_ m then capacity_ m
    else ((size_ m + 1) / delta_ + 1) * delta_.
Proof. intros Hd. apply insert_capacity, Hd. Qed.


(** X4. After [insert(key, val, pos)] with [pos <= size()], [get(pos)]
    is the iterator to [pos], [get_key(pos)] refers to [key] and
    [get_value(pos)] to [val]. *)
Theorem insert_then_positional_accessors delta_ m key (val : mapped_type) pos :
  0 < delta_ -> intact m -> 0 <= pos <= size_ m -> room delta_ m 1 ->
  let m' := snd (insert_kv delta_ key val pos m) in
  fst (get_at pos m') = Iterator pos /\
  load_key m' (fst (get_key pos m')) = Some key /\
  load_mapped m' (fst (get_value pos m')) = Some val.
Proof. intros Hd. apply insert_kv_read_back, Hd. Qed.

(** X5. [erase(pos)] after [insert(val, pos)] gives back the size and the
    entries the container had. *)
Theorem insert_then_erase_restores delta_ m val pos :
  0 < delta_ -> intact m -> 0 <= pos <= size_ m -> room delta_ m 1 ->
  size_ (snd (erase pos (snd (insert delta_ val pos m)))) = size_ m /\
  entries (snd (erase pos (snd (insert delta_ val pos m)))) = entries m.
Proof. intros Hd. apply insert_erase, Hd. Qed.

(** X6. When [key] equals itself, [get_all_pos(key)] after
    [insert(key, val, pos)] contains [pos]. *)
Theorem insert_then_scan_finds_position delta_ m key (val : mapped_type) pos :
  0 < delta_ -> intact m -> 0 <= pos <= size_ m -> room delta_ m 1 ->
  key_equal key key = true ->
  In pos (fst (get_all_pos key (snd (insert_kv delta_ key val pos m)))).
Proof. intros Hd. apply insert_kv_found, Hd. Qed.

(** X7. [erase(pos)] removes the entry at [pos] and moves the entries
    behind it one position down; a position past the end erases nothing.
    The capacity stays. *)
Theorem erase_deletes_entry m pos :
  intact m -> 0 <= pos ->
  intact (snd (erase pos m)) /\
  size_ (snd (erase pos m)) = (if pos <? size_ m then size_ m - 1 else size_ m) /\
  capacity_ (snd (erase pos m)) = capacity_ m /\
  entries (snd (erase pos m)) = delete (Z.to_nat pos) (entries m).
Proof.
  intros Hint Hpos.
  destruct (erase_entries m pos Hint Hpos) as (Hint' & Hc & He).
  split; [exact Hint'|split; [|split; [exact Hc|exact He]]].
  destruct (Z.ltb_spec pos (size_ m)).
  - now destruct (erase_effect m pos Hint ltac:(lia)) as (_ & Hs & _).
  - now rewrite erase_out_of_range.
Qed.

(** X8. [erase(il)] erases the positions of [il] one after the other, each
    counted in what the erasures before it have left. *)
Theorem erase_il_erases_in_sequence m (il : list Z) :
  intact m -> Forall (fun pos => 0 <= pos) il ->
  intact (snd (erase_il il m)) /\
  capacity_ (snd (erase_il il m)) = capacity_ m /\
  entries (snd (erase_il il m)) =
    foldl (fun es pos => delete (Z.to_nat pos) es) (entries m) il.
Proof. intros Hint Hil. exact (for_each_erase id il m Hint Hil). Qed.

(** X9. [erase_all(key)] keeps the entries whose key differs from [key],
    in their order, and the capacity. *)
Theorem erase_all_keeps_other_keys m key :
  intact m ->
  intact (snd (erase_all key m)) /\
  capacity_ (snd (erase_all key m)) = capacity_ m /\
  entries (snd (erase_all key m)) =
    List.filter (fun s => negb (holds_key key s)) (entries m).
Proof. apply erase_all_entries. Qed.

(** X10. After [erase_all(key)], [get_all(key)] and [get(key, ordinal,
    number)] return no iterator. *)
Theorem erase_all_then_lookup_finds_nothing m key ordinal number :
  intact m ->
  fst (get_all key (snd (erase_all key m))) = [] /\
  fst (get key ordinal number (snd (erase_all key m))) = [].
Proof. apply erase_all_then_get. Qed.

(** X11. [clear()] destroys the entries and sets the size to 0; the buffer
    and the capacity stay. *)
Theorem clear_keeps_capacity m :
  intact m ->
  intact (snd (clear m)) /\
  size_ (snd (clear m)) = 0 /\
  capacity_ (snd (clear m)) = capacity_ m /\
  entries (snd (clear m)) = [] /\
  (forall j, 0 <= j < size_ m -> peek (data_ (snd (clear m))) j = None).
Proof. apply clear_effect. Qed.

(** X12. [swap(from, to)] on two distinct live positions exchanges the two
    entries and keeps the others, and a second [swap(from, to)] undoes
    it. *)
Theorem swap_pos_exchanges_entries m from to :
  intact m -> 0 <= from < size_ m -> 0 <= to < size_ m -> from <> to ->
  entries (snd (swap_pos from to m)) =
    <[Z.to_nat from := peek (data_ m) to]>
      (<[Z.to_nat to := peek (data_ m) from]> (entries m)) /\
  entries (snd (swap_pos from to (snd (swap_pos from to m)))) = entries m.
Proof.
  intros Hint Hfrom Hto _. split.
  - now apply swap_pos_entries.
  - now apply swap_pos_twice.
Qed.

(** X13. [set_value(v, pos)] on the entry [(key, old)] at a live position
    makes it [(key, v)] and keeps the other entries; [get_value(pos)] then
    refers to [v] and [get_key(pos)] to [key]. *)
Theorem set_value_replaces_mapped_value m (new_value old : mapped_type) pos key :
  intact m -> 0 <= pos < size_ m ->
  peek (data_ m) pos = Some (key, old) ->
  let m' := snd (set_value new_value pos m) in
  entries m' = <[Z.to_nat pos := Some (key, new_value)]> (entries m) /\
  load_mapped m' (fst (get_value pos m')) = Some new_value /\
  load_key m' (fst (get_key pos m')) = Some key.
Proof. apply set_value_entries. Qed.

(** X14. [resize(n)] refuses an [n] below the size and changes nothing;
    any other [n] becomes the capacity, with the size and the entries
    kept. *)
Theorem resize_accepts_from_size_on m n :
  intact m -> 0 <= n < size_type.modulus ->
  if n <? size_ m then resize n m = (false, m)
  else fst (resize n m) = true /\
       intact (snd (resize n m)) /\
       size_ (snd (resize n m)) = size_ m /\
       capacity_ (snd (resize n m)) = n /\
       entries (snd (resize n m)) = entries m.
Proof.
  intros Hint Hn. destruct (Z.ltb_spec n (size_ m)).
  - now apply resize_refuses.
  - apply resize_effect; [exact Hint|lia].
Qed.

(** X15. [shrink()] is always accepted: the capacity becomes the size, and
    the entries stay. *)
Theorem shrink_sets_capacity_to_size m :
  intact m ->
  fst (shrink m) = true /\
  intact (snd (shrink m)) /\
  size_ (snd (shrink m)) = size_ m /\
  capacity_ (snd (shrink m)) = size_ m /\
  entries (snd (shrink m)) = entries m.
Proof. apply shrink_effect. Qed.

(** X16. A [reserve(n)] with [n] not below the size keeps the size and
    the entries, and the new buffer has the slots of the new capacity. *)
Theorem reserve_keeps_entries delta_ m n :
  0 < delta_ -> intact m -> size_ m <= n -> n + delta_ < size_type.modulus ->
  intact (snd (reserve delta_ n m)) /\
  size_ (snd (reserve delta_ n m)) = size_ m /\
  entries (snd (reserve delta_ n m)) = entries m.
Proof.
  intros Hd Hint Hn Hroom.
  destruct (reserve_intact delta_ Hd m n Hint Hn Hroom)
    as (_ & Hint' & Hs & _).
  split; [exact Hint'|split; [exact Hs|]].
  now apply reserve_entries.
Qed.

(** X17. [get(key, ordinal, number)] with [number >= 1] returns the
    matches of ranks [ordinal .. ordinal + number - 1] among the positions
    that hold [key], as many of them as there are. *)
Theorem get_takes_window m key ordinal number :
  size_type.in_range (size_ m) -> 1 <= number < size_type.modulus ->
  fst (get key ordinal number m) =
    take (Z.to_nat number)
      (drop (Z.to_nat (ordinal - 1)) (all_matches m key)) /\
  snd (get key ordinal number m) = m.
Proof.
  intros Hr Hn. split; [now apply get_window|reflexivity].
Qed.

(** X18. [get_all_pos(key)] returns exactly the positions below the size
    whose entry has the key [key], in ascending order. *)
Theorem get_all_pos_ascending_positions_of_key m key :
  size_type.in_range (size_ m) ->
  (forall i, In i (fst (get_all_pos key m)) <->
             0 <= i < size_ m /\ holds_key key (peek (data_ m) i) = true) /\
  StronglySorted Z.lt (fst (get_all_pos key m)).
Proof. apply get_all_pos_spec. Qed.

(** X19. [get_all_values(key)] returns the mapped values of the entries
    with the key [key], in the order of the container. *)
Theorem get_all_values_of_key m key :
  size_type.in_range (size_ m) ->
  fst (get_all_values key m) =
    omap (fmap snd) (List.filter (holds_key key) (entries m)).
Proof. apply get_all_values_spec. Qed.

(** X20. [get_value(key, ordinal, number)] with [number >= 1] returns the
    values of ranks [ordinal .. ordinal + number - 1] of
    [get_all_values(key)]. *)
Theorem get_value_key_takes_window m key ordinal number :
  size_type.in_range (size_ m) -> 1 <= number < size_type.modulus ->
  fst (get_value_key key ordinal number m) =
    take (Z.to_nat number)
      (drop (Z.to_nat (ordinal - 1)) (fst (get_all_values key m))).
Proof. apply get_value_key_window. Qed.

(** X21. The container built from an initializer list holds the elements
    of the list in order; its capacity is [delta_], or the next multiple of
    [delta_] above the length of a longer list. *)
Theorem vectormap_il_holds_list delta_
    (il : list (@value_type key_type mapped_type)) :
  0 < delta_ -> Z.of_nat (length il) + delta_ < size_type.modulus ->
  intact (vectormap_il delta_ il) /\
  size_ (vectormap_il delta_ il) = Z.of_nat (length il) /\
  capacity_ (vectormap_il delta_ il) =
    (if delta_ <? Z.of_nat (length il)
     then (Z.of_nat (length il) / delta_ + 1) * delta_ else delta_) /\
  entries (vectormap_il delta_ il) = Some <$> il.
Proof. intros Hd. apply vectormap_il_effect, Hd. Qed.

(** X22. The copy constructor gives a container with the size, the
    capacity and the entries of the original, in a buffer of its own. *)
Theorem vectormap_copy_equals_original o :
  intact o ->
  intact (vectormap_copy o) /\
  size_ (vectormap_copy o) = size_ o /\
  capacity_ (vectormap_copy o) = capacity_ o /\
  entries (vectormap_copy o) = entries o.
Proof. apply vectormap_copy_effect. Qed.

(** X23. [insert(il, pos)] of a non-empty list with [pos <= size()] puts
    the elements of [il] before the entries from [pos] on.  Of the entries
    before [pos] the last [length - 1] (as many as there are) are left
    destroyed unless the container was empty, so that [push_front(il)] puts
    the list before all the entries. *)
Theorem insert_il_splices_list delta_ m
    (il : list (@value_type key_type mapped_type)) pos :
  0 < delta_ -> intact m -> 0 <= pos <= size_ m -> il <> [] ->
  room delta_ m (Z.of_nat (length il)) ->
  let k := if size_ m =? 0 then 0
           else Z.max (pos + 1 - Z.of_nat (length il)) 0 in
  fst (insert_il delta_ il pos m) = Iterator pos /\
  entries (snd (insert_il delta_ il pos m)) =
    take (Z.to_nat k) (entries m) ++ replicate (Z.to_nat (pos - k)) None
      ++ (Some <$> il) ++ drop (Z.to_nat pos) (entries m) /\
  entries (snd (push_front_il delta_ il m)) = (Some <$> il) ++ entries m.
Proof.
  intros Hd Hint Hpos Hil Hroom. pose proof Hint as (_ & [Hs0 _] & _).
  destruct (insert_il_entries delta_ Hd m il pos Hint Hpos Hil Hroom)
    as [Hit He].
  split; [exact Hit|split; [exact He|]].
  unfold push_front_il.
  destruct (insert_il_entries delta_ Hd m il 0 Hint ltac:(lia) Hil Hroom)
    as [_ ->].
  assert (1 <= Z.of_nat (length il)) by (destruct il; [easy|cbn; lia]).
  replace (if size_ m =? 0 then 0 else Z.max (0 + 1 - Z.of_nat (length il)) 0)
    with 0 by (destruct (size_ m =? 0); lia).
  reflexivity.
Qed.

(** X24. [insert(map, pos)] of a distinct, non-empty container with
    [pos <= size()] behaves as [insert(il, pos)] does with the entries of
    [map], and [push_front(map)] puts them before all the entries. *)
Theorem insert_map_splices_entries delta_ m o pos :
  0 < delta_ -> intact m -> 0 <= pos <= size_ m -> 1 <= size_ o ->
  room delta_ m (size_ o) ->
  let k := if size_ m =? 0 then 0 else Z.max (pos + 1 - size_ o) 0 in
  fst (insert_map delta_ (rhs_other o) pos m) = Iterator pos /\
  entries (snd (insert_map delta_ (rhs_other o) pos m)) =
    take (Z.to_nat k) (entries m) ++ replicate (Z.to_nat (pos - k)) None
      ++ entries o ++ drop (Z.to_nat pos) (entries m) /\
  entries (snd (push_front_map delta_ (rhs_other o) m)) =
    entries o ++ entries m.
Proof.
  intros Hd Hint Hpos Hlen Hroom. pose proof Hint as (_ & [Hs0 _] & _).
  destruct (insert_map_entries delta_ Hd m o pos Hint Hpos Hlen Hroom)
    as [Hit He].
  split; [exact Hit|split; [exact He|]].
  unfold push_front_map.
  destruct (insert_map_entries delta_ Hd m o 0 Hint ltac:(lia) Hlen Hroom)
    as [_ ->].
  replace (if size_ m =? 0 then 0 else Z.max (0 + 1 - size_ o) 0)
    with 0 by (destruct (size_ m =? 0); lia).
  reflexivity.
Qed.

(** X25. [is_empty()] is [true] exactly when the size is 0, with or
    without a buffer. *)
Theorem is_empty_iff_size_zero m :
  intact m -> fst (is_empty m) = (size_ m =? 0) /\ snd (is_empty m) = m.
Proof. intros Hint. split; [now apply is_empty_spec|reflexivity]. Qed.

(** X26. [move(from, to)] and [swap(from, to)] with a position that is not
    below the size change nothing. *)
Theorem move_and_swap_ignore_positions_past_the_end delta_ m from to :
  size_ m <= from \/ size_ m <= to ->
  move delta_ from to m = (tt, m) /\ swap_pos from to m = (tt, m).
Proof.
  intros Hout. split.
  - now apply move_out_of_range.
  - now apply swap_pos_out_of_range.
Qed.


End properties.

(** ** The claims on [vectormap<std::string, int, 100>] *)

Import example.

Lemma reserve_rounds_and_resets_witness :
  let r1 := reserve delta 250 empty in
  let r2 := reserve delta 50 (snd r1) in
  0 <= size_ empty <= 250 /\
  fst r1 = true /\ capacity_ (snd r1) = 300 /\
  fst r2 = true /\ capacity_ (snd r2) = 100.
Proof.
  assert (H0 : 0 <= size_ empty <= 250) by (vm_compute; split; discriminate).
  pose proof (reserve_rounds_and_resets delta empty 250 50
    ltac:(reflexivity) H0 ltac:(reflexivity)
    ltac:(discriminate) ltac:(reflexivity)) as H.
  cbv zeta in H. destruct H as (H1 & H2 & _ & _ & H3 & _).
  destruct (H3 ltac:(vm_compute; discriminate)) as [H4 H5].
  cbv zeta. repeat split; try assumption; apply H0.
Defined.

(** C4 as it is stated fails on the empty container: after [reserve(250)]
    the capacity is 300, and [reserve(50)] then makes it 100. *)
Lemma reserve_50_after_250_shrinks :
  ~ (let m1 := run (reserve delta 250) empty in
     capacity_ m1 = 300 /\ capacity_ (run (reserve delta 50) m1) = 300).
Proof. vm_compute. intros [_ H]. discriminate H. Qed.

Lemma insert_past_the_end_witness :
  size_ abc < 5 /\
  fst (insert delta ("x"%string, 7) 5 abc) = fst (end_ abc) /\
  snd (insert delta ("x"%string, 7) 5 abc) = abc.
Proof.
  split; [reflexivity|].
  apply (insert_past_the_end delta abc ("x"%string, 7) 5). reflexivity.
Defined.

Lemma size_le_capacity_invariant_witness :
  0 < delta /\
  reachable delta (exec delta (call_erase 0)
                     (exec delta (call_push_back_il
                        [("x"%string, 7); ("y"%string, 8)]) abc)) /\
  0 <= size_ (exec delta (call_erase 0)
                (exec delta (call_push_back_il
                   [("x"%string, 7); ("y"%string, 8)]) abc))
    <= capacity_ (exec delta (call_erase 0)
                    (exec delta (call_push_back_il
                       [("x"%string, 7); ("y"%string, 8)]) abc)).
Proof.
  assert (Hr : reachable delta (exec delta (call_erase 0)
                 (exec delta (call_push_back_il
                    [("x"%string, 7); ("y"%string, 8)]) abc))).
  { apply reach_call; [apply reach_call; [apply reach_il|]|].
    - reflexivity.
    - reflexivity.
    - exact I. }
  split; [reflexivity|]. split; [exact Hr|].
  apply (size_le_capacity_invariant delta _ ltac:(reflexivity) Hr).
Defined.

Lemma get_all_length_eq_get_size_witness :
  size_type.in_range (size_ aba) /\
  length (fst (get_all "a"%string aba)) =
  length (fst (get "a"%string 1 (size_ aba) aba)).
Proof.
  assert (Hr : size_type.in_range (size_ aba))
    by (split; [discriminate|reflexivity]).
  split; [exact Hr|].
  apply (get_all_length_eq_get_size aba "a"%string Hr).
Defined.

Lemma get_out_of_range_sentinel_witness :
  size_ abc <= 7 /\ 0 < delta /\ reachable delta abc /\
  get_value 7 abc = (ref_void_mapped_type_, abc) /\
  get_key 7 abc = (ref_void_key_type_, abc) /\
  load_mapped abc ref_void_mapped_type_ = void_mapped_type_ abc /\
  load_key abc ref_void_key_type_ = void_key_type_ abc /\
  void_mapped_type_ abc = default_init /\ void_key_type_ abc = default_init.
Proof.
  assert (Hpos : size_ abc <= 7) by discriminate.
  assert (Hd : 0 < delta) by reflexivity.
  assert (Hr : reachable delta abc) by (apply reach_il; reflexivity).
  destruct (get_out_of_range_sentinel delta abc 7 Hpos)
    as (Hv & Hk & Hlv & Hlk & Hinit).
  destruct (Hinit Hd Hr) as [Hvm Hvk].
  repeat split; assumption.
Defined.

(** In [vectormap<std::string, int, 100>] the key sentinel is the empty
    string and the mapped sentinel, an [int] no constructor initialises,
    has no determinate value. *)
Example sentinels_of_abc :
  load_key abc (fst (get_key 7 abc)) = Some EmptyString /\
  load_mapped abc (fst (get_value 7 abc)) = None.
Proof. split; reflexivity. Qed.

Lemma get_number_zero_full_tail_witness :
  size_type.in_range (size_ aba) /\ 1 <= 2 /\
  fst (get "a"%string 2 0 aba) =
    drop (Z.to_nat (2 - 1)) (all_matches aba "a"%string) /\
  snd (get "a"%string 2 0 aba) = aba.
Proof.
  assert (Hr : size_type.in_range (size_ aba))
    by (split; [discriminate|reflexivity]).
  split; [exact Hr|]. split; [discriminate|].
  apply (get_number_zero_full_tail aba "a"%string 2 Hr). discriminate.
Defined.

(** The scenario of the specification, built with [push_back] from the
    empty container: [get_all_pos("a")] is [[0; 2]], [get_value("a", 2)] is
    [[3]], and after [erase_all("a")] the one entry left is [("b", 2)]. *)
Example scenario_push_back_lookup_erase_all :
  let m := run (push_back delta ("a"%string, 3))
             (run (push_back delta ("b"%string, 2))
                (run (push_back delta ("a"%string, 1)) empty)) in
  entries m = entries aba /\
  fst (get_all_pos "a"%string m) = [0; 2] /\
  fst (get_value_key "a"%string 2 1 m) = [3] /\
  size_ (run (erase_all "a"%string) m) = 1 /\
  entries (run (erase_all "a"%string) m) = [Some ("b"%string, 2)].
Proof. vm_compute. auto 6. Qed.

(** The scenario of the specification: after [("a",1), ("b",2), ("a",3)],
    [get("a", 1, 0)] is both matches and [get("a", 2, 0)] the second. *)
Example get_number_zero_aba :
  map snd (fst (get "a"%string 1 0 aba)) = [0; 2] /\
  map snd (fst (get "a"%string 2 0 aba)) = [2] /\
  map snd (fst (get "a"%string 1 1 aba)) = [0].
Proof. vm_compute. auto. Qed.

(** The containers of the examples are intact, so the slot-by-slot lemmas
    apply to them. *)
Lemma intact_abc : intact abc.
Proof.
  split; [intros j; reflexivity|]. vm_compute. repeat split; congruence.
Qed.

Lemma intact_abcde : intact abcde.
Proof.
  split; [intros j; reflexivity|]. vm_compute. repeat split; congruence.
Qed.

(** [insert_il_entries] at [[a; b; c]], [{x, y}] and position 1: nothing
    is kept of the prefix ([k] is 0) and one slot is left destroyed. *)
Example insert_il_entries_abc :
  entries (snd (insert_il delta [("x"%string, 7); ("y"%string, 8)] 1 abc)) =
    take 0 (entries abc) ++ replicate 1 None
      ++ [Some ("x"%string, 7); Some ("y"%string, 8)]
      ++ drop 1 (entries abc).
Proof.
  apply (insert_il_entries delta ltac:(reflexivity) abc
           [("x"%string, 7); ("y"%string, 8)] 1 intact_abc).
  - vm_compute. split; congruence.
  - discriminate.
  - reflexivity.
Qed.

(** [move_forward_keeps_from] at [[a; b; c; d; e]] and [move(0, 3)]. *)
Example move_forward_keeps_from_abcde :
  peek (data_ (snd (move delta 0 3 abcde))) 0 = Some ("a"%string, 1).
Proof.
  apply (move_forward_keeps_from delta ltac:(reflexivity) abcde 0 3
           intact_abcde); [split| |]; reflexivity.
Qed.

(** C1 fails on the code.  In [[a; b; c]] a gap of length 2 at position 1
    also moves the entry at position 0 (into the gap) and destroys its slot:
    the loop of [gap_] runs while [i > from], not while [i >= from + length].
    [insert({x, y}, 1)] then leaves position 0 without an object, where the
    claim has [[a; x; y; b; c]].  (With length 1 the two bounds agree:
    [insert(x, 1)] gives [[a; x; b; c]].) *)
Theorem gap_destroys_prefix :
  let r := gap_ delta 1 2 abc in
  fst r = true /\ size_ (snd r) = 5 /\
  entries abc =
    [Some ("a"%string, 1); Some ("b"%string, 2); Some ("c"%string, 3)] /\
  entries (snd r) =
    [None; None; Some ("a"%string, 1);
     Some ("b"%string, 2); Some ("c"%string, 3)] /\
  entries (run (insert_il delta [("x"%string, 7); ("y"%string, 8)] 1) abc) =
    [None; Some ("x"%string, 7); Some ("y"%string, 8);
     Some ("b"%string, 2); Some ("c"%string, 3)] /\
  entries (run (insert delta ("x"%string, 7) 1) abc) =
    [Some ("a"%string, 1); Some ("x"%string, 7);
     Some ("b"%string, 2); Some ("c"%string, 3)].
Proof. vm_compute. auto 7. Qed.

(** C2 fails on the code.  [operator=(const vectormap&)] clears the
    destination, copies the entries of [other] into its buffer and never
    sets [size_]: the destination reports size 0, where [other] has 3.
    (The copy constructor does set it.) *)
Theorem copy_assign_forgets_size :
  let a := run (copy_assign delta (rhs_other abc)) empty in
  size_ abc = 3 /\ size_ a = 0 /\ entries a = [] /\
  peek (data_ a) 0 = Some ("a"%string, 1) /\
  size_ (vectormap_copy abc) = 3 /\
  entries (vectormap_copy abc) = entries abc.
Proof. vm_compute. auto 7. Qed.

(** C3 fails on the code for move assignment.  [operator=(vectormap&&)]
    swaps the capacities instead of zeroing the source's: assigned to a
    container of capacity 100, the source is left with size 0, no buffer and
    capacity 100.  (The destination does hold the source's entries, and
    the move constructor does zero the source's capacity.) *)
Theorem move_assign_leaves_capacity :
  let r := move_assign abcde abc in
  capacity_ abc = 100 /\
  size_ (fst r) = 0 /\ data_ (fst r) = None /\ capacity_ (fst r) = 100 /\
  entries (snd r) = entries abcde /\
  capacity_ (snd (vectormap_move abcde)) = 0.
Proof. vm_compute. auto 7. Qed.

(** C5 fails on the code when [from < to].  [move(0, 3)] on
    [[a; b; c; d; e]] takes the entry after [from] instead of the one at
    [from]: the result is [[a; c; b; d; e]], where the claim has
    [[b; c; d; a; e]]. *)
Theorem move_forward_takes_wrong_entry :
  entries (run (move delta 0 3) abcde) =
    [Some ("a"%string, 1); Some ("c"%string, 3); Some ("b"%string, 2);
     Some ("d"%string, 4); Some ("e"%string, 5)] /\
  entries (run (move delta 3 0) abcde) =
    [Some ("d"%string, 4); Some ("a"%string, 1); Some ("b"%string, 2);
     Some ("c"%string, 3); Some ("e"%string, 5)].
Proof. vm_compute. auto. Qed.

(** ** The further properties on [vectormap<std::string, int, 100>] *)

Lemma intact_aba : intact aba.
Proof.
  split; [intros j; reflexivity|]. vm_compute. repeat split; congruence.
Qed.

Lemma intact_empty : intact empty.
Proof.
  split; [apply fitted_vectormap_default|].
  vm_compute. repeat split; congruence.
Qed.

(** [[a; b; c]] with its capacity cut down to its size. *)
Lemma intact_shrunk_abc : intact (run shrink abc).
Proof.
  split; [intros j; reflexivity|]. vm_compute. repeat split; congruence.
Qed.


Lemma insert_grows_when_full_witness :
  0 < delta /\ intact (run shrink abc) /\
  0 <= 3 <= size_ (run shrink abc) /\ room delta (run shrink abc) 1 /\
  capacity_ (run shrink abc) = 3 /\
  capacity_ (snd (insert delta ("x"%string, 7) 3 (run shrink abc))) =
    if size_ (run shrink abc) <? capacity_ (run shrink abc)
    then capacity_ (run shrink abc)
    else ((size_ (run shrink abc) + 1) / delta + 1) * delta.
Proof.
  assert (Hd : 0 < delta) by reflexivity.
  assert (Hpos : 0 <= 3 <= size_ (run shrink abc)) by (split; discriminate).
  assert (Hroom : room delta (run shrink abc) 1) by reflexivity.
  split; [exact Hd|]. split; [exact intact_shrunk_abc|].
  split; [exact Hpos|]. split; [exact Hroom|]. split; [reflexivity|].
  apply (insert_grows_when_full delta (run shrink abc) ("x"%string, 7) 3
           Hd intact_shrunk_abc Hpos Hroom).
Defined.


Lemma insert_then_positional_accessors_witness :
  let m' := snd (insert_kv delta "x"%string 7 1 abc) in
  0 < delta /\ intact abc /\ 0 <= 1 <= size_ abc /\ room delta abc 1 /\
  fst (get_at 1 m') = Iterator 1 /\
  load_key m' (fst (get_key 1 m')) = Some "x"%string /\
  load_mapped m' (fst (get_value 1 m')) = Some 7.
Proof.
  assert (Hd : 0 < delta) by reflexivity.
  assert (Hpos : 0 <= 1 <= size_ abc) by (split; discriminate).
  assert (Hroom : room delta abc 1) by reflexivity.
  cbv zeta.
  split; [exact Hd|]. split; [exact intact_abc|].
  split; [exact Hpos|]. split; [exact Hroom|].
  apply (insert_then_positional_accessors delta abc "x"%string 7 1
           Hd intact_abc Hpos Hroom).
Defined.

Lemma insert_then_erase_restores_witness :
  0 < delta /\ intact abc /\ 0 <= 1 <= size_ abc /\ room delta abc 1 /\
  size_ (snd (erase 1 (snd (insert delta ("x"%string, 7) 1 abc))))
    = size_ abc /\
  entries (snd (erase 1 (snd (insert delta ("x"%string, 7) 1 abc))))
    = entries abc.
Proof.
  assert (Hd : 0 < delta) by reflexivity.
  assert (Hpos : 0 <= 1 <= size_ abc) by (split; discriminate).
  assert (Hroom : room delta abc 1) by reflexivity.
  split; [exact Hd|]. split; [exact intact_abc|].
  split; [exact Hpos|]. split; [exact Hroom|].
  apply (insert_then_erase_restores delta abc ("x"%string, 7) 1
           Hd intact_abc Hpos Hroom).
Defined.

Lemma insert_then_scan_finds_position_witness :
  0 < delta /\ intact abc /\ 0 <= 1 <= size_ abc /\ room delta abc 1 /\
  key_equal "x"%string "x"%string = true /\
  In 1 (fst (get_all_pos "x"%string
               (snd (insert_kv delta "x"%string 7 1 abc)))).
Proof.
  assert (Hd : 0 < delta) by reflexivity.
  assert (Hpos : 0 <= 1 <= size_ abc) by (split; discriminate).
  assert (Hroom : room delta abc 1) by reflexivity.
  assert (Hkey : key_equal "x"%string "x"%string = true) by reflexivity.
  split; [exact Hd|]. split; [exact intact_abc|].
  split; [exact Hpos|]. split; [exact Hroom|]. split; [exact Hkey|].
  apply (insert_then_scan_finds_position delta abc "x"%string 7 1
           Hd intact_abc Hpos Hroom Hkey).
Defined.

Lemma erase_deletes_entry_witness :
  intact abc /\ 0 <= 1 /\
  intact (snd (erase 1 abc)) /\
  size_ (snd (erase 1 abc)) =
    (if 1 <? size_ abc then size_ abc - 1 else size_ abc) /\
  capacity_ (snd (erase 1 abc)) = capacity_ abc /\
  entries (snd (erase 1 abc)) = delete (Z.to_nat 1) (entries abc).
Proof.
  assert (Hpos : 0 <= 1) by discriminate.
  split; [exact intact_abc|]. split; [exact Hpos|].
  apply (erase_deletes_entry abc 1 intact_abc Hpos).
Defined.

Lemma erase_il_erases_in_sequence_witness :
  intact abcde /\ Forall (fun pos => 0 <= pos) [0; 1] /\
  intact (snd (erase_il [0; 1] abcde)) /\
  capacity_ (snd (erase_il [0; 1] abcde)) = capacity_ abcde /\
  entries (snd (erase_il [0; 1] abcde)) =
    foldl (fun es pos => delete (Z.to_nat pos) es) (entries abcde) [0; 1].
Proof.
  assert (Hil : Forall (fun pos => 0 <= pos) [0; 1])
    by (repeat constructor; discriminate).
  split; [exact intact_abcde|]. split; [exact Hil|].
  apply (erase_il_erases_in_sequence abcde [0; 1] intact_abcde Hil).
Defined.

Lemma erase_all_keeps_other_keys_witness :
  intact aba /\
  intact (snd (erase_all "a"%string aba)) /\
  capacity_ (snd (erase_all "a"%string aba)) = capacity_ aba /\
  entries (snd (erase_all "a"%string aba)) =
    List.filter (fun s => negb (holds_key "a"%string s)) (entries aba).
Proof.
  split; [exact intact_aba|].
  apply (erase_all_keeps_other_keys aba "a"%string intact_aba).
Defined.

Lemma erase_all_then_lookup_finds_nothing_witness :
  intact aba /\
  fst (get_all "a"%string (snd (erase_all "a"%string aba))) = [] /\
  fst (get "a"%string 1 1 (snd (erase_all "a"%string aba))) = [].
Proof.
  split; [exact intact_aba|].
  apply (erase_all_then_lookup_finds_nothing aba "a"%string 1 1 intact_aba).
Defined.

Lemma clear_keeps_capacity_witness :
  intact abc /\
  intact (snd (clear abc)) /\
  size_ (snd (clear abc)) = 0 /\
  capacity_ (snd (clear abc)) = capacity_ abc /\
  entries (snd (clear abc)) = [] /\
  (forall j, 0 <= j < size_ abc -> peek (data_ (snd (clear abc))) j = None).
Proof.
  split; [exact intact_abc|].
  apply (clear_keeps_capacity abc intact_abc).
Defined.

Lemma swap_pos_exchanges_entries_witness :
  intact abc /\ 0 <= 0 < size_ abc /\ 0 <= 2 < size_ abc /\ 0 <> 2 /\
  entries (snd (swap_pos 0 2 abc)) =
    <[Z.to_nat 0 := peek (data_ abc) 2]>
      (<[Z.to_nat 2 := peek (data_ abc) 0]> (entries abc)) /\
  entries (snd (swap_pos 0 2 (snd (swap_pos 0 2 abc)))) = entries abc.
Proof.
  assert (Hfrom : 0 <= 0 < size_ abc) by (split; [discriminate|reflexivity]).
  assert (Hto : 0 <= 2 < size_ abc) by (split; [discriminate|reflexivity]).
  assert (Hne : 0 <> 2) by discriminate.
  split; [exact intact_abc|]. split; [exact Hfrom|]. split; [exact Hto|].
  split; [exact Hne|].
  apply (swap_pos_exchanges_entries abc 0 2 intact_abc Hfrom Hto Hne).
Defined.

Lemma set_value_replaces_mapped_value_witness :
  let m' := snd (set_value 9 1 abc) in
  intact abc /\ 0 <= 1 < size_ abc /\
  peek (data_ abc) 1 = Some ("b"%string, 2) /\
  entries m' = <[Z.to_nat 1 := Some ("b"%string, 9)]> (entries abc) /\
  load_mapped m' (fst (get_value 1 m')) = Some 9 /\
  load_key m' (fst (get_key 1 m')) = Some "b"%string.
Proof.
  assert (Hpos : 0 <= 1 < size_ abc) by (split; [discriminate|reflexivity]).
  assert (Hold : peek (data_ abc) 1 = Some ("b"%string, 2)) by reflexivity.
  cbv zeta.
  split; [exact intact_abc|]. split; [exact Hpos|]. split; [exact Hold|].
  apply (set_value_replaces_mapped_value abc 9 2 1 "b"%string
           intact_abc Hpos Hold).
Defined.

Lemma resize_accepts_from_size_on_witness :
  intact abc /\ 0 <= 3 < size_type.modulus /\
  (if 3 <? size_ abc then resize 3 abc = (false, abc)
   else fst (resize 3 abc) = true /\
        intact (snd (resize 3 abc)) /\
        size_ (snd (resize 3 abc)) = size_ abc /\
        capacity_ (snd (resize 3 abc)) = 3 /\
        entries (snd (resize 3 abc)) = entries abc).
Proof.
  assert (Hn : 0 <= 3 < size_type.modulus)
    by (split; [discriminate|reflexivity]).
  split; [exact intact_abc|]. split; [exact Hn|].
  apply (resize_accepts_from_size_on abc 3 intact_abc Hn).
Defined.

Lemma shrink_sets_capacity_to_size_witness :
  intact abc /\
  fst (shrink abc) = true /\
  intact (snd (shrink abc)) /\
  size_ (snd (shrink abc)) = size_ abc /\
  capacity_ (snd (shrink abc)) = size_ abc /\
  entries (snd (shrink abc)) = entries abc.
Proof.
  split; [exact intact_abc|].
  apply (shrink_sets_capacity_to_size abc intact_abc).
Defined.

Lemma reserve_keeps_entries_witness :
  0 < delta /\ intact abc /\ size_ abc <= 250 /\
  250 + delta < size_type.modulus /\
  intact (snd (reserve delta 250 abc)) /\
  size_ (snd (reserve delta 250 abc)) = size_ abc /\
  entries (snd (reserve delta 250 abc)) = entries abc.
Proof.
  assert (Hd : 0 < delta) by reflexivity.
  assert (Hn : size_ abc <= 250) by discriminate.
  assert (Hroom : 250 + delta < size_type.modulus) by reflexivity.
  split; [exact Hd|]. split; [exact intact_abc|].
  split; [exact Hn|]. split; [exact Hroom|].
  apply (reserve_keeps_entries delta abc 250 Hd intact_abc Hn Hroom).
Defined.

Lemma get_takes_window_witness :
  size_type.in_range (size_ aba) /\ 1 <= 1 < size_type.modulus /\
  fst (get "a"%string 2 1 aba) =
    take (Z.to_nat 1)
      (drop (Z.to_nat (2 - 1)) (all_matches aba "a"%string)) /\
  snd (get "a"%string 2 1 aba) = aba.
Proof.
  assert (Hr : size_type.in_range (size_ aba))
    by (split; [discriminate|reflexivity]).
  assert (Hn : 1 <= 1 < size_type.modulus)
    by (split; [discriminate|reflexivity]).
  split; [exact Hr|]. split; [exact Hn|].
  apply (get_takes_window aba "a"%string 2 1 Hr Hn).
Defined.

Lemma get_all_pos_ascending_positions_of_key_witness :
  size_type.in_range (size_ aba) /\
  (forall i, In i (fst (get_all_pos "a"%string aba)) <->
             0 <= i < size_ aba /\
             holds_key "a"%string (peek (data_ aba) i) = true) /\
  StronglySorted Z.lt (fst (get_all_pos "a"%string aba)).
Proof.
  assert (Hr : size_type.in_range (size_ aba))
    by (split; [discriminate|reflexivity]).
  split; [exact Hr|].
  apply (get_all_pos_ascending_positions_of_key aba "a"%string Hr).
Defined.

Lemma get_all_values_of_key_witness :
  size_type.in_range (size_ aba) /\
  fst (get_all_values "a"%string aba) =
    omap (fmap snd) (List.filter (holds_key "a"%string) (entries aba)).
Proof.
  assert (Hr : size_type.in_range (size_ aba))
    by (split; [discriminate|reflexivity]).
  split; [exact Hr|].
  apply (get_all_values_of_key aba "a"%string Hr).
Defined.

Lemma get_value_key_takes_window_witness :
  size_type.in_range (size_ aba) /\ 1 <= 1 < size_type.modulus /\
  fst (get_value_key "a"%string 2 1 aba) =
    take (Z.to_nat 1)
      (drop (Z.to_nat (2 - 1)) (fst (get_all_values "a"%string aba))).
Proof.
  assert (Hr : size_type.in_range (size_ aba))
    by (split; [discriminate|reflexivity]).
  assert (Hn : 1 <= 1 < size_type.modulus)
    by (split; [discriminate|reflexivity]).
  split; [exact Hr|]. split; [exact Hn|].
  apply (get_value_key_takes_window aba "a"%string 2 1 Hr Hn).
Defined.

Lemma vectormap_il_holds_list_witness :
  0 < delta /\
  Z.of_nat (length [("a"%string, 1); ("b"%string, 2)]) + delta
    < size_type.modulus /\
  intact (vectormap_il delta [("a"%string, 1); ("b"%string, 2)]) /\
  size_ (vectormap_il delta [("a"%string, 1); ("b"%string, 2)]) =
    Z.of_nat (length [("a"%string, 1); ("b"%string, 2)]) /\
  capacity_ (vectormap_il delta [("a"%string, 1); ("b"%string, 2)]) =
    (if delta <? Z.of_nat (length [("a"%string, 1); ("b"%string, 2)])
     then (Z.of_nat (length [("a"%string, 1); ("b"%string, 2)]) / delta + 1)
          * delta
     else delta) /\
  entries (vectormap_il delta [("a"%string, 1); ("b"%string, 2)]) =
    Some <$> [("a"%string, 1); ("b"%string, 2)].
Proof.
  assert (Hd : 0 < delta) by reflexivity.
  assert (Hlen : Z.of_nat (length [("a"%string, 1); ("b"%string, 2)]) + delta
                 < size_type.modulus) by reflexivity.
  split; [exact Hd|]. split; [exact Hlen|].
  apply (vectormap_il_holds_list delta [("a"%string, 1); ("b"%string, 2)]
           Hd Hlen).
Defined.

Lemma vectormap_copy_equals_original_witness :
  intact abc /\
  intact (vectormap_copy abc) /\
  size_ (vectormap_copy abc) = size_ abc /\
  capacity_ (vectormap_copy abc) = capacity_ abc /\
  entries (vectormap_copy abc) = entries abc.
Proof.
  split; [exact intact_abc|].
  apply (vectormap_copy_equals_original abc intact_abc).
Defined.

Lemma insert_il_splices_list_witness :
  let il := [("x"%string, 7); ("y"%string, 8)] in
  let k := if size_ abc =? 0 then 0
           else Z.max (1 + 1 - Z.of_nat (length il)) 0 in
  0 < delta /\ intact abc /\ 0 <= 1 <= size_ abc /\ il <> [] /\
  room delta abc (Z.of_nat (length il)) /\
  fst (insert_il delta il 1 abc) = Iterator 1 /\
  entries (snd (insert_il delta il 1 abc)) =
    take (Z.to_nat k) (entries abc) ++ replicate (Z.to_nat (1 - k)) None
      ++ (Some <$> il) ++ drop (Z.to_nat 1) (entries abc) /\
  entries (snd (push_front_il delta il abc)) = (Some <$> il) ++ entries abc.
Proof.
  assert (Hd : 0 < delta) by reflexivity.
  assert (Hpos : 0 <= 1 <= size_ abc) by (split; discriminate).
  assert (Hil : [("x"%string, 7); ("y"%string, 8)] <> []) by discriminate.
  assert (Hroom : room delta abc
            (Z.of_nat (length [("x"%string, 7); ("y"%string, 8)])))
    by reflexivity.
  cbv zeta.
  split; [exact Hd|]. split; [exact intact_abc|]. split; [exact Hpos|].
  split; [exact Hil|]. split; [exact Hroom|].
  apply (insert_il_splices_list delta abc
           [("x"%string, 7); ("y"%string, 8)] 1
           Hd intact_abc Hpos Hil Hroom).
Defined.

Lemma insert_map_splices_entries_witness :
  let k := if size_ abc =? 0 then 0 else Z.max (1 + 1 - size_ aba) 0 in
  0 < delta /\ intact abc /\ 0 <= 1 <= size_ abc /\ 1 <= size_ aba /\
  room delta abc (size_ aba) /\
  fst (insert_map delta (rhs_other aba) 1 abc) = Iterator 1 /\
  entries (snd (insert_map delta (rhs_other aba) 1 abc)) =
    take (Z.to_nat k) (entries abc) ++ replicate (Z.to_nat (1 - k)) None
      ++ entries aba ++ drop (Z.to_nat 1) (entries abc) /\
  entries (snd (push_front_map delta (rhs_other aba) abc)) =
    entries aba ++ entries abc.
Proof.
  assert (Hd : 0 < delta) by reflexivity.
  assert (Hpos : 0 <= 1 <= size_ abc) by (split; discriminate).
  assert (Hlen : 1 <= size_ aba) by discriminate.
  assert (Hroom : room delta abc (size_ aba)) by reflexivity.
  cbv zeta.
  split; [exact Hd|]. split; [exact intact_abc|]. split; [exact Hpos|].
  split; [exact Hlen|]. split; [exact Hroom|].
  apply (insert_map_splices_entries delta abc aba 1
           Hd intact_abc Hpos Hlen Hroom).
Defined.

Lemma is_empty_iff_size_zero_witness :
  intact empty /\
  fst (is_empty empty) = (size_ empty =? 0) /\ snd (is_empty empty) = empty.
Proof.
  split; [exact intact_empty|].
  apply (is_empty_iff_size_zero empty intact_empty).
Defined.

Lemma move_and_swap_ignore_positions_past_the_end_witness :
  (size_ abc <= 5 \/ size_ abc <= 0) /\
  move delta 5 0 abc = (tt, abc) /\ swap_pos 5 0 abc = (tt, abc).
Proof.
  assert (Hout : size_ abc <= 5 \/ size_ abc <= 0) by (left; discriminate).
  split; [exact Hout|].
  apply (move_and_swap_ignore_positions_past_the_end delta abc 5 0 Hout).
Defined.

(** The calls of X27 do not include move assignment from another container,
    and with it the buffer need not match [capacity_]: what is left of the
    source of [d = std::move(s)] has the capacity [d] had and no buffer. *)
Example move_assign_source_not_fitted : ~ fitted (fst (move_assign abcde abc)).
Proof. intros H. specialize (H 0). discriminate H. Qed.
